(** * VideoKnife: the album catalog and the crop engine of [database.py]

    A shallow embedding of the class [Album] of [src/database.py]: the three
    tables ([videos], [crop_definitions], [images]), the in-memory identifier
    counters, the file name resolution loop, and the operations
    [add_video], [remove_video], [add_crop_definition],
    [remove_crop_definition], [do_crop] and [do_crop_all].

    Python integers are [Z]; strings are [string]; a table is the list of its
    rows in insertion order; an operation takes the album and returns the
    value it returns or the exception it raises, together with the album it
    leaves behind. The database and the file system are taken to work: a
    commit, a copy or a removal fails only in the ways written out below. *)

From Stdlib Require Import ZArith List Bool Lia String Ascii Permutation.
From Stdlib Require Import DecimalString DecimalNat DecimalZ.
Import ListNotations.

Open Scope string_scope.
Open Scope Z_scope.

(** ** Python strings *)

Module PyStr.

(** [s.rfind(c)] for a one-character needle: the highest index at which [c]
    occurs in [s], and [-1] when it does not occur. *)
Fixpoint rfind (c : ascii) (s : string) : Z :=
  match s with
  | EmptyString => -1
  | String a s' =>
      let r := rfind c s' in
      if 0 <=? r then r + 1
      else if Ascii.eqb a c then 0 else -1
  end.

(** The position a slice bound [i] denotes in [s]: a negative bound counts
    from the end, and every bound is clipped to [0 .. len(s)]. *)
Definition slice_index (s : string) (i : Z) : nat :=
  let n := Z.of_nat (String.length s) in
  if i <? 0 then Z.to_nat (Z.max 0 (n + i)) else Z.to_nat (Z.min i n).

(** [s[:i]] *)
Definition slice_to (s : string) (i : Z) : string :=
  substring 0 (slice_index s i) s.

(** [s[i:]] *)
Definition slice_from (s : string) (i : Z) : string :=
  substring (slice_index s i) (String.length s - slice_index s i) s.

(** [str(n)] for a natural number. *)
Definition str_nat (n : nat) : string :=
  NilEmpty.string_of_uint (Nat.to_uint n).

(** [str(z)] for an integer. *)
Definition str_Z (z : Z) : string :=
  match z with
  | Z0 => "0"
  | Zpos p => str_nat (Pos.to_nat p)
  | Zneg p => "-" ++ str_nat (Pos.to_nat p)
  end.

Fixpoint zeros (n : nat) : string :=
  match n with
  | O => EmptyString
  | S n' => String "0" (zeros n')
  end.

(** The format specification [{z:0>{width}d}]: the decimal text of [z],
    right-aligned in [width] columns and filled with the character [0]. *)
Definition fmt_0gt (width : nat) (z : Z) : string :=
  let s := str_Z z in
  zeros (width - String.length s) ++ s.

End PyStr.

Import PyStr.

(** ** The file name resolution loop

    The loop occurs twice in the source, textually the same up to the names of
    its variables: in [add_video] against the [videos] table

<<
        _name = name
        _idx = 1
        while session.query(VideoTable).filter(VideoTable.name_video == _name).all():
            _name = name[:name.rfind(".")] + f"({_idx})" + name[name.rfind("."):]
            _idx += 1
        name = _name
>>
    and in [do_crop] against the [images] table. *)

(** The assignment to [_name] in the body of the loop. *)
Definition candidate (name : string) (_idx : nat) : string :=
  slice_to name (rfind "." name) ++ "(" ++ str_nat _idx ++ ")"
    ++ slice_from name (rfind "." name).

Section Resolver.

(** The loop condition: the query for rows carrying the name is not empty. *)
Variable taken : string -> bool.

(** The loop itself, from the state [(_name, _idx)]; [fuel] bounds the
    number of times the condition is evaluated. *)
Fixpoint resolve_loop (fuel : nat) (name _name : string) (_idx : nat)
  : option string :=
  match fuel with
  | O => None
  | S fuel' =>
      if taken _name
      then resolve_loop fuel' name (candidate name _idx) (S _idx)
      else Some _name
  end.

End Resolver.

(** The query [filter(T.name == n).all()] is not empty. *)
Definition name_taken (names : list string) (n : string) : bool :=
  existsb (String.eqb n) names.

(** Evaluations of the loop condition that are enough against a table with
    the given names (see [resolve_loop_enough]). *)
Definition resolve_fuel (names : list string) : nat :=
  S (S (List.length names)).

(** The value of [name] after the loop, run against a table of names. *)
Definition resolve_name (names : list string) (name : string) : string :=
  match resolve_loop (name_taken names) (resolve_fuel names) name name 1 with
  | Some r => r
  | None => name
  end.


(** ** The catalog *)

(** A row of the table [videos]. *)
Record VideoTable := mkVideo {
  id_video : Z;
  name_video : string
}.

(** A row of the table [crop_definitions]; the four pixel columns are
    nullable. *)
Record CropDefinitionTable := mkDefinition {
  id_definition : Z;
  def_id_video : Z;
  description : string;
  done : bool;
  index_start : Z;
  index_end : Z;
  step_index : Z;
  pixel_left : option Z;
  pixel_top : option Z;
  pixel_right : option Z;
  pixel_bottom : option Z
}.

(** A row of the table [images]. *)
Record ImageTable := mkImage {
  id_image : Z;
  img_id_definition : Z;
  name_image : string;
  index_in_definition : Z
}.

(** An [Album] object with the database and the two directories behind it:
    the committed rows of the three tables, the counters [self.max_id_*], and
    the base names of the files in [self.dir_video] and [self.dir_image]. *)
Record Album := mkAlbum {
  videos : list VideoTable;
  definitions : list CropDefinitionTable;
  images : list ImageTable;
  max_id_video : Z;
  max_id_definition : Z;
  max_id_image : Z;
  dir_video : list string;
  dir_image : list string
}.

(** [func.max] over a column: [None] on an empty table. *)
Definition sql_max (ids : list Z) : option Z :=
  match ids with
  | [] => None
  | x :: xs => Some (fold_left Z.max xs x)
  end.

(** [-1 if m is None else m] *)
Definition max_or_minus_one (m : option Z) : Z :=
  match m with
  | None => -1
  | Some x => x
  end.

(** [Album.__init__] on a directory that exists: the counters are read from
    the tables. *)
Definition open_album (vs : list VideoTable) (ds : list CropDefinitionTable)
    (ims : list ImageTable) (dv di : list string) : Album :=
  {| videos := vs; definitions := ds; images := ims;
     max_id_video := max_or_minus_one (sql_max (map id_video vs));
     max_id_definition := max_or_minus_one (sql_max (map id_definition ds));
     max_id_image := max_or_minus_one (sql_max (map id_image ims));
     dir_video := dv; dir_image := di |}.

(** [Album.__init__] on a directory that does not exist yet. *)
Definition new_album : Album := open_album [] [] [] [] [].

(** ** Exceptions and the outside world *)

(** The three [RuntimeError]s of [do_crop], told apart by their message. *)
Inductive runtime_error :=
| VideoUnreadable      (* the video cannot be opened *)
| EmptyCropRegion      (* the rectangle to cut out is 0px or less *)
| InvalidFrameRange.   (* the frame numbers to cut out are not valid *)

Inductive exn :=
| FileNotFoundError
| RuntimeError (r : runtime_error)
| NoResultFound
| MultipleResultsFound
| TypeError
| OverflowError        (* an integer that does not fit an INTEGER of SQLite *)
| IntegrityError       (* a constraint of a table is violated *)
| IsADirectoryError    (* [shutil.copyfile] of a directory *)
| SameFileError        (* [shutil.copyfile] of a file onto itself *)
| FileExistsError.     (* [shutil.move] of a directory onto a file *)

Inductive result (A : Type) :=
| Returned (a : A)
| Raised (e : exn).
Arguments Returned {A} a.
Arguments Raised {A} e.

(** What one pass through the body of the extraction loop meets at a frame
    index. [ReadFails] and [WriteFails] are the two [continue]s; the three
    [...Raises] are exceptions that leave the body. *)
Inductive frame_event :=
| ReadRaises     (* [cap.set] or [cap.read] raises *)
| ReadFails      (* [cap.read] returns [success = False] *)
| StoreRaises    (* a query of the session raises *)
| WriteRaises    (* [cv2.imwrite] raises *)
| WriteFails     (* [cv2.imwrite] returns [False] *)
| Written.       (* the frame was read and its image written *)

Definition unrecoverable (e : frame_event) : bool :=
  match e with
  | ReadRaises | StoreRaises | WriteRaises => true
  | ReadFails | WriteFails | Written => false
  end.

(** What [cv2.VideoCapture] makes of a file. *)
Record VideoCapture := mkCapture {
  decodable : bool;
  CAP_PROP_FRAME_COUNT : Z;
  CAP_PROP_FRAME_WIDTH : Z;
  CAP_PROP_FRAME_HEIGHT : Z;
  frame_event_at : Z -> frame_event
}.

(** What the path given to [add_video] leads to. *)
Inductive source :=
| NoSuchPath                    (* nothing: [os.path.exists] is [False] *)
| OutsideFile                   (* a file outside the directory of the album *)
| StoredVideo (name : string)   (* the file of this name in the album's own
                                   video directory *)
| Directory.                    (* a directory outside the album *)

(** The world outside the album: what a path leads to, and what the decoder
    makes of a stored video, by its name in [dir_video]. *)
Record World := mkWorld {
  source_at : string -> source;
  capture : string -> VideoCapture
}.

(** An INTEGER of SQLite holds 64 bits, with sign: binding a Python integer
    outside this range to a statement raises [OverflowError]. *)
Definition int64 (z : Z) : bool :=
  (- 2 ^ 63 <=? z) && (z <? 2 ^ 63).

(** A nullable INTEGER. *)
Definition int64_or_null (o : option Z) : bool :=
  match o with
  | None => true
  | Some z => int64 z
  end.

(** What a method raises when its query by identifier finds no row. The
    columns hold 64 bits, so an identifier outside this range is in no row:
    for it the query itself raises [OverflowError]; for any other
    identifier the method raises its [FileNotFoundError]. *)
Definition lookup_failure (id : Z) : exn :=
  if int64 id then FileNotFoundError else OverflowError.

(** Writing a file into a directory (an existing file is overwritten). *)
Definition write_file (name : string) (dir : list string) : list string :=
  if name_taken dir name then dir else dir ++ [name].

(** [os.remove] of a file that exists. *)
Definition remove_file (name : string) (dir : list string) : list string :=
  filter (fun f => negb (String.eqb f name)) dir.

(** [os.path.basename]: [p[p.rfind("/") + 1:]]. *)
Definition basename (p : string) : string :=
  slice_from p (rfind "/" p + 1).

(** ** Operations of [Album] *)

(** [os.path.exists(path_video)]: the file of a video of the album exists
    as long as it is in [dir_video]. *)
Definition source_exists (src : source) (dir : list string) : bool :=
  match src with
  | NoSuchPath => false
  | StoredVideo n => name_taken dir n
  | OutsideFile | Directory => true
  end.

(** Lines 140-143 on the files of the video directory. [shutil.move]
    renames the source to the destination, so that a file of the album
    leaves its place; a directory is moved whole, and is no file where it
    arrives, unless a file is in its way. [shutil.copyfile] raises for a
    directory and for a file that is its own destination. *)
Definition transfer (src : source) (move : bool) (name : string)
    (dir : list string) : result (list string) :=
  match src, move with
  | NoSuchPath, _ => Raised FileNotFoundError
  | OutsideFile, _ => Returned (write_file name dir)
  | StoredVideo n, true => Returned (write_file name (remove_file n dir))
  | StoredVideo n, false =>
      if String.eqb n name then Raised SameFileError
      else Returned (write_file name dir)
  | Directory, true =>
      if name_taken dir name then Raised FileExistsError else Returned dir
  | Directory, false => Raised IsADirectoryError
  end.

(** [add_video(path_video, move=move)]. The counter is incremented before
    the row is committed: an identifier that does not fit the column leaves
    the counter incremented and the file in place, without a row. *)
Definition add_video (w : World) (path_video : string) (move : bool)
    (a : Album) : result Z * Album :=
  if negb (source_exists (source_at w path_video) (dir_video a))
  then (Raised FileNotFoundError, a)
  else
    let name := basename path_video in
    let name := resolve_name (map name_video (videos a)) name in
    match transfer (source_at w path_video) move name (dir_video a) with
    | Raised e => (Raised e, a)
    | Returned dir =>
        let id := max_id_video a + 1 in
        if int64 id
        then
          (Returned id,
           {| videos := videos a ++ [mkVideo id name];
              definitions := definitions a;
              images := images a;
              max_id_video := id;
              max_id_definition := max_id_definition a;
              max_id_image := max_id_image a;
              dir_video := dir;
              dir_image := dir_image a |})
        else
          (Raised OverflowError,
           {| videos := videos a;
              definitions := definitions a;
              images := images a;
              max_id_video := id;
              max_id_definition := max_id_definition a;
              max_id_image := max_id_image a;
              dir_video := dir;
              dir_image := dir_image a |})
    end.

(** The row [add_crop_definition] adds: [rect = None] leaves the four pixel
    columns null. *)
Definition definition_row (id id_video0 : Z) (slice : Z * Z * Z)
    (rect : option (Z * Z * Z * Z)) (description0 : string)
    : CropDefinitionTable :=
  let '(s0, s1, s2) := slice in
  match rect with
  | None =>
      mkDefinition id id_video0 description0 false s0 s1 s2 None None None None
  | Some (r0, r1, r2, r3) =>
      mkDefinition id id_video0 description0 false s0 s1 s2
        (Some r0) (Some r1) (Some r2) (Some r3)
  end.

(** The integers of a row of [crop_definitions] fit their columns. *)
Definition row_fits (d : CropDefinitionTable) : bool :=
  int64 (id_definition d) && int64 (def_id_video d)
  && int64 (index_start d) && int64 (index_end d) && int64 (step_index d)
  && int64_or_null (pixel_left d) && int64_or_null (pixel_top d)
  && int64_or_null (pixel_right d) && int64_or_null (pixel_bottom d).

(** [add_crop_definition(id_video, slice, rect, description)]. The counter
    is incremented before the row is committed: a row with an integer that
    does not fit its column is not stored, and the counter stays
    incremented. *)
Definition add_crop_definition (id_video0 : Z) (slice : Z * Z * Z)
    (rect : option (Z * Z * Z * Z)) (description0 : string) (a : Album)
    : result Z * Album :=
  match filter (fun v => id_video v =? id_video0) (videos a) with
  | [] => (Raised (lookup_failure id_video0), a)
  | _ :: _ =>
      let id := max_id_definition a + 1 in
      let row := definition_row id id_video0 slice rect description0 in
      if row_fits row
      then
        (Returned id,
         {| videos := videos a;
            definitions := definitions a ++ [row];
            images := images a;
            max_id_video := max_id_video a;
            max_id_definition := id;
            max_id_image := max_id_image a;
            dir_video := dir_video a;
            dir_image := dir_image a |})
      else
        (Raised OverflowError,
         {| videos := videos a;
            definitions := definitions a;
            images := images a;
            max_id_video := max_id_video a;
            max_id_definition := id;
            max_id_image := max_id_image a;
            dir_video := dir_video a;
            dir_image := dir_image a |})
  end.

(** The [for image in images] loop of [remove_crop_definition] on the
    directory: each file that exists is removed. *)
Definition remove_image_files (ims : list ImageTable) (dir : list string)
    : list string :=
  fold_left (fun d im => remove_file (name_image im) d) ims dir.

(** [remove_crop_definition(id_definition)]. Only the images of a
    definition that is done are deleted with it. When a definition that is
    not done has images, the deletion of its row leaves them without their
    definition, which their column does not allow: the commit raises
    [IntegrityError] and nothing is removed. *)
Definition remove_crop_definition (id : Z) (a : Album) : result bool * Album :=
  match find (fun d => id_definition d =? id) (definitions a) with
  | None => (Raised (lookup_failure id), a)
  | Some definition =>
      let owned := filter (fun im => img_id_definition im =? id) (images a) in
      if negb (done definition)
         && negb (match owned with [] => true | _ :: _ => false end)
      then (Raised IntegrityError, a)
      else
      (Returned true,
       {| videos := videos a;
          definitions :=
            filter (fun d => negb (id_definition d =? id_definition definition))
                   (definitions a);
          images :=
            if done definition
            then filter (fun im => negb (img_id_definition im =? id)) (images a)
            else images a;
          max_id_video := max_id_video a;
          max_id_definition := max_id_definition a;
          max_id_image := max_id_image a;
          dir_video := dir_video a;
          dir_image :=
            if done definition
            then remove_image_files owned (dir_image a)
            else dir_image a |})
  end.

(** The loop [for id_definition in ids_defiinition] of [remove_video]: an
    exception of [remove_crop_definition] ends it. *)
Fixpoint remove_crop_definitions (ids : list Z) (a : Album)
    : result bool * Album :=
  match ids with
  | [] => (Returned true, a)
  | id :: ids' =>
      match remove_crop_definition id a with
      | (Returned _, a') => remove_crop_definitions ids' a'
      | (Raised e, a') => (Raised e, a')
      end
  end.

(** [remove_video(id_video)]. [os.remove] raises when the file is not
    there; the definitions are gone by then, each removal having committed. *)
Definition remove_video (id : Z) (a : Album) : result bool * Album :=
  match find (fun v => id_video v =? id) (videos a) with
  | None => (Raised (lookup_failure id), a)
  | Some video =>
      let ids_definition :=
        map id_definition
            (filter (fun d => def_id_video d =? id) (definitions a)) in
      match remove_crop_definitions ids_definition a with
      | (Raised e, a') => (Raised e, a')
      | (Returned _, a') =>
          if negb (name_taken (dir_video a') (name_video video))
          then (Raised FileNotFoundError, a')
          else
            (Returned true,
             {| videos :=
                  filter (fun v => negb (id_video v =? id_video video))
                         (videos a');
                definitions := definitions a';
                images := images a';
                max_id_video := max_id_video a';
                max_id_definition := max_id_definition a';
                max_id_image := max_id_image a';
                dir_video := remove_file (name_video video) (dir_video a');
                dir_image := dir_image a' |})
      end
  end.

(** ** The crop engine *)

(** [range(start, stop, step)] for [step >= 1], the only steps with which
    [do_crop] reaches its loop; [fuel] bounds the number of elements. *)
Fixpoint range_loop (fuel : nat) (i stop step : Z) : list Z :=
  match fuel with
  | O => []
  | S fuel' =>
      if i <? stop then i :: range_loop fuel' (i + step) stop step else []
  end.

Definition py_range (start stop step : Z) : list Z :=
  range_loop (Z.to_nat (stop - start)) start stop step.

Definition Rect : Type := Z * Z * Z * Z.

(** Lines 303-310: the full frame, narrowed by the rectangle of the
    definition when its [pixel_left] is not null. [max] and [min] of an
    integer and [None] raise [TypeError], here [None]. *)
Definition effective_rect (width height : Z) (d : CropDefinitionTable)
    : option Rect :=
  match pixel_left d with
  | None => Some (0, 0, width, height)
  | Some l =>
      match pixel_top d, pixel_right d, pixel_bottom d with
      | Some t, Some r, Some b =>
          Some (Z.max 0 l, Z.max 0 t, Z.min width r, Z.min height b)
      | _, _, _ => None
      end
  end.

(** Line 311: [rect[2] <= rect[0] or rect[3] <= rect[1]]. *)
Definition rect_empty (rect : Rect) : bool :=
  let '(r0, r1, r2, r3) := rect in
  (r2 <=? r0) || (r3 <=? r1).

(** Line 332: the name of the image of frame [idx]. *)
Definition image_name (id_video0 idx : Z) (rect : Rect) : string :=
  let '(r0, r1, r2, r3) := rect in
  fmt_0gt 6 id_video0 ++ "_" ++ fmt_0gt 8 idx ++ "_"
    ++ fmt_0gt 4 r0 ++ "," ++ fmt_0gt 4 r1 ++ ","
    ++ fmt_0gt 4 r2 ++ "," ++ fmt_0gt 4 r3 ++ ".jpg".

(** How the body of the loop is left. *)
Inductive body_exit :=
| NextFrame (a : Album)     (* the end of the body, or a [continue] *)
| Thrown (a : Album).       (* an exception *)

(** One pass through the body of the [for it, idx in enumerate(...)] loop,
    on the session's view of the album: rows added to the session are in
    [images], since each query flushes the session first. *)
Definition crop_body (cap : VideoCapture) (definition : CropDefinitionTable)
    (rect : Rect) (it idx : Z) (a : Album) : body_exit :=
  match frame_event_at cap idx with
  | ReadRaises => Thrown a
  | ReadFails => NextFrame a
  | StoreRaises => Thrown a
  | WriteRaises => Thrown a
  | WriteFails => NextFrame a
  | Written =>
      let name_img :=
        resolve_name (map name_image (images a))
          (image_name (def_id_video definition) idx rect) in
      let id := max_id_image a + 1 in
      NextFrame
        {| videos := videos a;
           definitions := definitions a;
           images :=
             images a ++ [mkImage id (id_definition definition) name_img it];
           max_id_video := max_id_video a;
           max_id_definition := max_id_definition a;
           max_id_image := id;
           dir_video := dir_video a;
           dir_image := write_file name_img (dir_image a) |}
  end.

(** The loop over the frame indices still to visit, [it] being the position
    of the first of them: whether the loop ran to its end, the session's
    view of the album when it was left, and the indices at which a read was
    attempted, in order. *)
Fixpoint crop_loop (cap : VideoCapture) (definition : CropDefinitionTable)
    (rect : Rect) (it : Z) (idxs : list Z) (a : Album)
    : bool * Album * list Z :=
  match idxs with
  | [] => (true, a, [])
  | idx :: idxs' =>
      match crop_body cap definition rect it idx a with
      | Thrown a' => (false, a', [idx])
      | NextFrame a' =>
          let '(completed, a'', reads) :=
            crop_loop cap definition rect (it + 1) idxs' a' in
          (completed, a'', idx :: reads)
      end
  end.

(** [definition.done = True], committed. *)
Definition mark_done (id : Z) (ds : list CropDefinitionTable)
    : list CropDefinitionTable :=
  map (fun d =>
         if id_definition d =? id
         then mkDefinition (id_definition d) (def_id_video d) (description d)
                true (index_start d) (index_end d) (step_index d)
                (pixel_left d) (pixel_top d) (pixel_right d) (pixel_bottom d)
         else d) ds.

(** What a call of [do_crop] did: its result, the album it left, and the
    frame indices at which it attempted a read. *)
Record crop_run := mkRun {
  outcome : result bool;
  album_after : Album;
  frames_read : list Z
}.

(** What lines 284-322 of [do_crop] establish before the loop. *)
Record crop_plan := mkPlan {
  plan_definition : CropDefinitionTable;
  plan_capture : VideoCapture;
  plan_rect : Rect;
  plan_start : Z;
  plan_end : Z;
  plan_step : Z
}.

Inductive prelude :=
| AlreadyDone                 (* line 291: [return True] *)
| Fails (e : exn)             (* an exception before the loop *)
| Ready (p : crop_plan).

(** Lines 284-322 of [do_crop]. A video opens when its file is in
    [dir_video] and the decoder accepts it. *)
Definition crop_prelude (w : World) (id : Z) (a : Album) : prelude :=
  match find (fun d => id_definition d =? id) (definitions a) with
  | None => Fails (lookup_failure id)
  | Some definition =>
      if done definition then AlreadyDone
      else
        match filter (fun v => id_video v =? def_id_video definition)
                     (videos a) with
        | [] => Fails NoResultFound
        | _ :: _ :: _ => Fails MultipleResultsFound
        | [video] =>
            let cap := capture w (name_video video) in
            if negb (name_taken (dir_video a) (name_video video)
                     && decodable cap)
            then Fails (RuntimeError VideoUnreadable)
            else
              let num_frame_total := CAP_PROP_FRAME_COUNT cap in
              let width := CAP_PROP_FRAME_WIDTH cap in
              let height := CAP_PROP_FRAME_HEIGHT cap in
              match effective_rect width height definition with
              | None => Fails TypeError
              | Some rect =>
                  if rect_empty rect
                  then Fails (RuntimeError EmptyCropRegion)
                  else
                    let idx_start := index_start definition in
                    let idx_end :=
                      Z.min (index_end definition) num_frame_total in
                    let step := step_index definition in
                    if (idx_start <? 0) || (step <? 1)
                    then Fails (RuntimeError InvalidFrameRange)
                    else Ready (mkPlan definition cap rect
                                       idx_start idx_end step)
              end
        end
  end.

(** [do_crop(id_definition)]. When the loop is left by an exception, the
    [except:] clause restores [max_id_image] and rolls the session back;
    files written by then stay. Either way the call returns [True]. *)
Definition do_crop (w : World) (id : Z) (a : Album) : crop_run :=
  match crop_prelude w id a with
  | AlreadyDone => mkRun (Returned true) a []
  | Fails e => mkRun (Raised e) a []
  | Ready p =>
      let id_image_tmp := max_id_image a in
      let '(completed, a', reads) :=
        crop_loop (plan_capture p) (plan_definition p) (plan_rect p) 0
          (py_range (plan_start p) (plan_end p) (plan_step p)) a in
      if completed
      then
        mkRun (Returned true)
          {| videos := videos a';
             definitions :=
               mark_done (id_definition (plan_definition p)) (definitions a');
             images := images a';
             max_id_video := max_id_video a';
             max_id_definition := max_id_definition a';
             max_id_image := max_id_image a';
             dir_video := dir_video a';
             dir_image := dir_image a' |}
          reads
      else
        mkRun (Returned true)
          {| videos := videos a;
             definitions := definitions a;
             images := images a;
             max_id_video := max_id_video a;
             max_id_definition := max_id_definition a;
             max_id_image := id_image_tmp;
             dir_video := dir_video a;
             dir_image := dir_image a' |}
          reads
  end.

(** The loop [for id_definition in ids_definition] of [do_crop_all]: nothing
    catches an exception of [do_crop]. The third component lists the calls
    of [do_crop] that were made, with the frames each one read. *)
Fixpoint do_crop_each (w : World) (ids : list Z) (a : Album)
    : result bool * Album * list (Z * list Z) :=
  match ids with
  | [] => (Returned true, a, [])
  | id :: ids' =>
      let r := do_crop w id a in
      match outcome r with
      | Raised e => (Raised e, album_after r, [(id, frames_read r)])
      | Returned _ =>
          let '(res, a', calls) := do_crop_each w ids' (album_after r) in
          (res, a', (id, frames_read r) :: calls)
      end
  end.

(** The query of [do_crop_all]: the definitions with [done == False]. *)
Definition pending_definitions (a : Album) : list Z :=
  map id_definition (filter (fun d => negb (done d)) (definitions a)).

(** [do_crop_all()]. *)
Definition do_crop_all (w : World) (a : Album)
    : result bool * Album * list (Z * list Z) :=
  do_crop_each w (pending_definitions a) a.

(** ** Sessions

    A request is one call of a method of [Album], with the state of the world
    at the time of the call. *)
Inductive request :=
| AddVideo (w : World) (path_video : string) (move : bool)
| RemoveVideo (id_video0 : Z)
| AddCropDefinition (id_video0 : Z) (slice : Z * Z * Z)
    (rect : option (Z * Z * Z * Z)) (description0 : string)
| RemoveCropDefinition (id_definition0 : Z)
| DoCrop (w : World) (id_definition0 : Z)
| DoCropAll (w : World).

(** The album after a request, whether the call returned or raised. *)
Definition perform (r : request) (a : Album) : Album :=
  match r with
  | AddVideo w p m => snd (add_video w p m a)
  | RemoveVideo id => snd (remove_video id a)
  | AddCropDefinition id s r d => snd (add_crop_definition id s r d a)
  | RemoveCropDefinition id => snd (remove_crop_definition id a)
  | DoCrop w id => album_after (do_crop w id a)
  | DoCropAll w => snd (fst (do_crop_all w a))
  end.

(** A session: requests made one after the other on one [Album] object. *)
Definition session (rs : list request) (a : Album) : Album :=
  fold_left (fun a r => perform r a) rs a.

(** ** Predicates on albums *)

(** No two rows of [videos], and no two rows of [images], carry the same
    file name. *)
Definition names_unique (a : Album) : Prop :=
  NoDup (map name_video (videos a)) /\ NoDup (map name_image (images a)).

(** No row carries an identifier above the counter of its kind. *)
Definition ids_below (a : Album) : Prop :=
  Forall (fun x => x <= max_id_video a) (map id_video (videos a))
  /\ Forall (fun x => x <= max_id_definition a)
       (map id_definition (definitions a))
  /\ Forall (fun x => x <= max_id_image a) (map id_image (images a)).

(** [do_crop] gets as far as its loop: the definition is there and not done,
    its video is there, opens, and leaves a rectangle that is not empty, and
    the frame range is accepted. *)
Definition reaches_loop (w : World) (id : Z) (a : Album)
    (d : CropDefinitionTable) (v : VideoTable) (rect : Rect) : Prop :=
  find (fun d => id_definition d =? id) (definitions a) = Some d
  /\ done d = false
  /\ filter (fun v => id_video v =? def_id_video d) (videos a) = [v]
  /\ name_taken (dir_video a) (name_video v) = true
  /\ decodable (capture w (name_video v)) = true
  /\ effective_rect (CAP_PROP_FRAME_WIDTH (capture w (name_video v)))
       (CAP_PROP_FRAME_HEIGHT (capture w (name_video v))) d = Some rect
  /\ rect_empty rect = false
  /\ 0 <= index_start d
  /\ 1 <= step_index d.

(** The frame indices the loop of [do_crop] is to visit for a definition on
    a capture. *)
Definition sampled (d : CropDefinitionTable) (cap : VideoCapture) : list Z :=
  py_range (index_start d)
    (Z.min (index_end d) (CAP_PROP_FRAME_COUNT cap)) (step_index d).

(** Fire and continue: [do_crop_all] returns [True], having called
    [do_crop] for every definition that was not done. *)
Definition fire_and_continue (w : World) (a : Album) : Prop :=
  let '(res, _, calls) := do_crop_all w a in
  res = Returned true /\ map fst calls = pending_definitions a.

(** [do_crop] rejects a definition: it raises. *)
Definition rejects (w : World) (id : Z) (a : Album) : Prop :=
  exists e, outcome (do_crop w id a) = Raised e.

(** [a'] comes after [a] in a session: no counter has gone down, and every
    identifier in a table of [a'] was in that table of [a] already or lies
    above the counter [a] had for it. *)
Definition comes_after (a a' : Album) : Prop :=
  (max_id_video a <= max_id_video a'
   /\ max_id_definition a <= max_id_definition a'
   /\ max_id_image a <= max_id_image a')
  /\ (forall x, In x (map id_video (videos a')) ->
                In x (map id_video (videos a)) \/ max_id_video a < x)
  /\ (forall x, In x (map id_definition (definitions a')) ->
                In x (map id_definition (definitions a))
                \/ max_id_definition a < x)
  /\ (forall x, In x (map id_image (images a')) ->
                In x (map id_image (images a)) \/ max_id_image a < x).

(** What the extraction loop does to [images]: rows are added at the end,
    each with an identifier above the counter as it was and not above the
    counter as it is, and file names that were distinct stay distinct. *)
Definition appends_images (a a' : Album) : Prop :=
  max_id_image a <= max_id_image a'
  /\ (exists added,
         images a' = (images a ++ added)%list
         /\ Forall (fun im => max_id_image a < id_image im <= max_id_image a')
              added)
  /\ (NoDup (map name_image (images a)) ->
      NoDup (map name_image (images a'))).

(** What a request may do to an album, as far as identifiers and file names
    go. *)
Definition keeps_order (a a' : Album) : Prop :=
  comes_after a a'
  /\ (ids_below a -> ids_below a')
  /\ (names_unique a -> names_unique a').

(** The albums a session passes through, the first one included. *)
Fixpoint history (rs : list request) (a : Album) : list Album :=
  a :: match rs with
       | [] => []
       | r :: rs' => history rs' (perform r a)
       end.

(** Names of video files are never given twice in a session: two rows of
    [videos] that were recorded at any two moments under different
    identifiers carry different names. *)
Definition video_names_never_reused (rs : list request) (a : Album) : Prop :=
  forall a1 a2 v1 v2,
    In a1 (history rs a) -> In a2 (history rs a) ->
    In v1 (videos a1) -> In v2 (videos a2) ->
    id_video v1 <> id_video v2 -> name_video v1 <> name_video v2.

(** ** Worlds and albums used as examples *)

(** A video of ten frames, 800 by 600, that the decoder accepts. *)
Definition capture_10 (events : Z -> frame_event) : VideoCapture :=
  mkCapture true 10 800 600 events.

(** Every path leads to a file outside the album, every frame is read and
    every image is written. *)
Definition world_fine : World :=
  mkWorld (fun _ => OutsideFile) (fun _ => capture_10 (fun _ => Written)).

(** As [world_fine], but the store raises while frame 4 is handled. *)
Definition world_store_raises : World :=
  mkWorld (fun _ => OutsideFile)
    (fun _ => capture_10 (fun i => if i =? 4 then StoreRaises else Written)).

(** A new album with one video. *)
Definition album_clip : Album :=
  snd (add_video world_fine "/home/user/clip.mp4" false new_album).

(** ... and one definition: frames 1, 4, 7 of a rectangle that overlaps the
    frame on three sides. *)
Definition album_clamped : Album :=
  snd (add_crop_definition 0 (1, 20, 3) (Some (-10, 50, 900, 550)) ""
         album_clip).

(** ... after its extraction. *)
Definition album_cropped : Album :=
  album_after (do_crop world_fine 0 album_clamped).

(** One video and two definitions that are not done: the first has a
    rectangle of width zero, the second is in order. *)
Definition album_two_pending : Album :=
  snd (add_crop_definition 0 (0, 10, 5) None ""
         (snd (add_crop_definition 0 (0, 10, 1) (Some (100, 100, 100, 200)) ""
                 album_clip))).

(** One video and one definition whose range ends before it starts. *)
Definition album_backwards : Album :=
  snd (add_crop_definition 0 (5, 2, 1) None "" album_clip).

(** One video and one definition with a negative start. *)
Definition album_negative_start : Album :=
  snd (add_crop_definition 0 (-3, 8, 1) None "" album_clip).

(** One video and two definitions in order: frames 1, 4, 7 and frames
    0, 5. *)
Definition album_two_in_order : Album :=
  snd (add_crop_definition 0 (0, 10, 5) None "" album_clamped).

(** A video is added, removed, and a file of the same name is added. *)
Definition session_add_remove_add : list request :=
  [AddVideo world_fine "/home/user/clip.mp4" false;
   RemoveVideo 0;
   AddVideo world_fine "/home/user/clip.mp4" false].

(** One video and five definitions, with the identifiers 0 to 4. *)
Definition album_five_definitions : Album :=
  session
    [AddCropDefinition 0 (0, 10, 1) None "a";
     AddCropDefinition 0 (0, 10, 2) None "b";
     AddCropDefinition 0 (0, 10, 3) None "c";
     AddCropDefinition 0 (0, 10, 4) None "d";
     AddCropDefinition 0 (0, 10, 5) None "e"]
    album_clip.

(** ** Queries

    The seven [get_*] methods read a table through [pd.read_sql_query]; the
    data frame is the list of the rows selected. *)

(** [get_all_video()] *)
Definition get_all_video (a : Album) : list VideoTable := videos a.

(** [get_all_crop_definitions()] *)
Definition get_all_crop_definitions (a : Album) : list CropDefinitionTable :=
  definitions a.

(** [get_crop_definitions(id_video)] *)
Definition get_crop_definitions (id_video0 : Z) (a : Album)
    : list CropDefinitionTable :=
  filter (fun d => def_id_video d =? id_video0) (definitions a).

(** [get_crop_definition(id_definition)] *)
Definition get_crop_definition (id : Z) (a : Album)
    : list CropDefinitionTable :=
  filter (fun d => id_definition d =? id) (definitions a).

(** [get_all_images()] *)
Definition get_all_images (a : Album) : list ImageTable := images a.

(** The rows of [images] joined with [crop_definitions] on the foreign key
    [id_definition], one for each pair whose definition belongs to the
    video, images first. *)
Definition video_images_join (id_video0 : Z) (a : Album) : list ImageTable :=
  flat_map
    (fun im =>
       map (fun _ => im)
         (filter (fun d => (id_definition d =? img_id_definition im)
                           && (def_id_video d =? id_video0))
                 (definitions a)))
    (images a).

(** [get_video_images(id_video)]. The statement has no ORDER BY: the data
    frame holds the rows of the join in the order the database chooses, so
    [rows] is a data frame the call may return when it lists the join in
    some order. *)
Definition get_video_images (id_video0 : Z) (a : Album)
    (rows : list ImageTable) : Prop :=
  Permutation (video_images_join id_video0 a) rows.

(** [get_definition_images(id_definition)] *)
Definition get_definition_images (id : Z) (a : Album) : list ImageTable :=
  filter (fun im => img_id_definition im =? id) (images a).

(** ** More predicates on albums *)

(** The primary keys: no identifier occurs twice in a table. *)
Definition keys_unique (a : Album) : Prop :=
  NoDup (map id_video (videos a))
  /\ NoDup (map id_definition (definitions a))
  /\ NoDup (map id_image (images a)).

(** The foreign keys: the video of every definition is there, and the
    definition of every image is there and done. *)
Definition references_hold (a : Album) : Prop :=
  (forall d, In d (definitions a) ->
             In (def_id_video d) (map id_video (videos a)))
  /\ (forall im, In im (images a) ->
                 exists d, In d (definitions a)
                           /\ id_definition d = img_id_definition im
                           /\ done d = true).

Definition well_formed (a : Album) : Prop :=
  keys_unique a /\ ids_below a /\ references_hold a.

(** Every row of [videos] and of [images] has its file. *)
Definition files_present (a : Album) : Prop :=
  (forall v, In v (videos a) -> In (name_video v) (dir_video a))
  /\ (forall im, In im (images a) -> In (name_image im) (dir_image a)).

(** The values of [it] at which the loop of [do_crop] adds a row, [it]
    being the position of the first of the frame indices given: the
    positions of the frames that are written, up to the first frame that
    meets an exception. *)
Fixpoint written_slots (cap : VideoCapture) (it : Z) (idxs : list Z)
    : list Z :=
  match idxs with
  | [] => []
  | idx :: idxs' =>
      match frame_event_at cap idx with
      | Written => it :: written_slots cap (it + 1) idxs'
      | ReadFails | WriteFails => written_slots cap (it + 1) idxs'
      | ReadRaises | StoreRaises | WriteRaises => []
      end
  end.

(** The album is closed and opened again: [Album.__init__] on what the
    database and the directories hold. *)
Definition reopen (a : Album) : Album :=
  open_album (videos a) (definitions a) (images a) (dir_video a)
    (dir_image a).

(** As [world_fine], but frame 4 cannot be read. *)
Definition world_frame_4_unreadable : World :=
  mkWorld (fun _ => OutsideFile)
    (fun _ => capture_10 (fun i => if i =? 4 then ReadFails else Written)).

(** A world in which no path exists. *)
Definition world_empty : World :=
  mkWorld (fun _ => NoSuchPath) (fun _ => capture_10 (fun _ => Written)).


(** The frame indices of a list up to and including the first one that
    meets an exception. *)
Fixpoint up_to_exception (cap : VideoCapture) (idxs : list Z) : list Z :=
  match idxs with
  | [] => []
  | idx :: idxs' =>
      if unrecoverable (frame_event_at cap idx) then [idx]
      else idx :: up_to_exception cap idxs'
  end.

(** The condition of the join of [get_video_images] on a row of [images]:
    some definition of the video owns it. *)
Definition owned_by_video (id_video0 : Z) (a : Album) (im : ImageTable)
    : bool :=
  existsb (fun d => (id_definition d =? img_id_definition im)
                    && (def_id_video d =? id_video0))
          (definitions a).

(** One video and six definitions, the last one, 5, removed again. *)
Definition album_last_removed : Album :=
  session [AddCropDefinition 0 (0, 10, 6) None "f"; RemoveCropDefinition 5]
    album_five_definitions.

(** The [done] flags have only gone up from [a] to [a']: a definition of
    [a'] has the identifier of a definition of [a] that was not done, or
    not done unless this one is, or it has an identifier above the counter
    of [a]. *)
Definition done_kept (a a' : Album) : Prop :=
  forall d', In d' (definitions a') ->
    (exists d, In d (definitions a)
               /\ id_definition d' = id_definition d
               /\ (done d = true -> done d' = true))
    \/ max_id_definition a < id_definition d'.

(** The identifiers a call of [do_crop] gives to images fit their column:
    the call gives at most one for each frame it reads, from
    [max_id_image + 1] on. *)
Definition image_ids_fit (w : World) (id : Z) (a : Album) : Prop :=
  -1 <= max_id_image a
  /\ max_id_image a
       + Z.of_nat (List.length (frames_read (do_crop w id a))) < 2 ^ 63.

(** A request leaves the files of the album where they are: what
    [add_video] is to move is a file outside the album. *)
Definition moves_from_outside (r : request) : bool :=
  match r with
  | AddVideo w path_video true =>
      match source_at w path_video with
      | NoSuchPath | OutsideFile => true
      | StoredVideo _ | Directory => false
      end
  | _ => true
  end.

(** The rows of [crop_definitions] fit their columns. *)
Definition definitions_fit (a : Album) : Prop :=
  Forall (fun d => row_fits d = true) (definitions a).

(** A world in which [/home/user] is a directory and [video/clip.mp4] leads
    to the stored video [clip.mp4]. *)
Definition world_album_paths : World :=
  mkWorld (fun p => if String.eqb p "/home/user" then Directory
                    else if String.eqb p "video/clip.mp4"
                         then StoredVideo "clip.mp4"
                         else OutsideFile)
    (fun _ => capture_10 (fun _ => Written)).

(** * Properties *)

(** ** Strings *)

Lemma length_append (s t : string) :
  String.length (s ++ t) = (String.length s + String.length t)%nat.
Proof. induction s as [|c s IH]; simpl; [reflexivity | now rewrite IH]. Qed.

Lemma append_inv_head (p s t : string) : p ++ s = p ++ t -> s = t.
Proof.
  induction p as [|c p IH]; simpl; intros H; [exact H|].
  injection H as H. now apply IH.
Qed.

Lemma append_inv_tail (s t q : string) : s ++ q = t ++ q -> s = t.
Proof.
  revert t. induction s as [|c s IH]; intros [|d t] H; simpl in H.
  - reflexivity.
  - apply (f_equal String.length) in H. simpl in H.
    rewrite length_append in H. lia.
  - apply (f_equal String.length) in H. simpl in H.
    rewrite length_append in H. lia.
  - injection H as Hc H. subst d. f_equal. now apply IH.
Qed.

Lemma str_nat_inj (n m : nat) : str_nat n = str_nat m -> n = m.
Proof.
  unfold str_nat. intros H.
  apply Unsigned.to_uint_inj.
  assert (E : Some (Nat.to_uint n) = Some (Nat.to_uint m))
    by (rewrite <- !NilEmpty.usu; now rewrite H).
  now injection E.
Qed.

Lemma candidate_inj (name : string) (i j : nat) :
  candidate name i = candidate name j -> i = j.
Proof.
  unfold candidate. intros H.
  apply append_inv_head in H. apply append_inv_head in H.
  apply append_inv_tail in H. now apply str_nat_inj.
Qed.

Lemma name_taken_In (names : list string) (n : string) :
  name_taken names n = true <-> In n names.
Proof.
  unfold name_taken. rewrite existsb_exists. split.
  - intros (x & Hx & E). apply String.eqb_eq in E. now subst.
  - intros H. exists n. split; [exact H | apply String.eqb_refl].
Qed.

Lemma name_taken_not_In (names : list string) (n : string) :
  name_taken names n = false <-> ~ In n names.
Proof.
  rewrite <- name_taken_In. destruct (name_taken names n); split; congruence.
Qed.

(** ** The resolution loop *)

Section ResolverFacts.

Variable taken : string -> bool.

Lemma resolve_loop_free (fuel : nat) (name _name : string) (_idx : nat)
    (r : string) :
  resolve_loop taken fuel name _name _idx = Some r -> taken r = false.
Proof.
  revert _name _idx. induction fuel as [|fuel IH]; simpl; intros _name _idx.
  - discriminate.
  - destruct (taken _name) eqn:E.
    + apply IH.
    + intros H. injection H as <-. exact E.
Qed.

(** When the fuel runs out, every name the loop tried was taken. *)
Lemma resolve_loop_None (fuel : nat) (name _name : string) (_idx : nat) :
  resolve_loop taken (S fuel) name _name _idx = None ->
  forall k, (k < fuel)%nat -> taken (candidate name (_idx + k)) = true.
Proof.
  revert _name _idx. induction fuel as [|fuel IH]; intros _name _idx H k Hk.
  - lia.
  - cbn [resolve_loop] in H. destruct (taken _name); [|discriminate].
    destruct k as [|k].
    + rewrite Nat.add_0_r.
      destruct (taken (candidate name _idx)); [reflexivity|discriminate].
    + replace (_idx + S k)%nat with (S _idx + k)%nat by lia.
      apply (IH (candidate name _idx) (S _idx)); [exact H | lia].
Qed.

(** More fuel does not change a result. *)
Lemma resolve_loop_more_fuel (fuel fuel' : nat) (name _name : string)
    (_idx : nat) (r : string) :
  (fuel <= fuel')%nat ->
  resolve_loop taken fuel name _name _idx = Some r ->
  resolve_loop taken fuel' name _name _idx = Some r.
Proof.
  revert fuel' _name _idx.
  induction fuel as [|fuel IH]; intros fuel' _name _idx Hle; simpl.
  - discriminate.
  - destruct fuel' as [|fuel']; [lia|]. simpl.
    destruct (taken _name); [|trivial]. apply IH. lia.
Qed.

End ResolverFacts.

Lemma NoDup_candidates (name : string) (start len : nat) :
  NoDup (map (candidate name) (seq start len)).
Proof.
  revert start. induction len as [|len IH]; intros start; simpl.
  - constructor.
  - constructor; [|apply IH].
    rewrite in_map_iff. intros (j & E & Hj).
    apply candidate_inj in E. apply in_seq in Hj. lia.
Qed.

(** Against a table, [resolve_fuel] evaluations of the condition are enough
    for the loop to end. *)
Lemma resolve_loop_enough (names : list string) (name : string) :
  exists r,
    resolve_loop (name_taken names) (resolve_fuel names) name name 1 = Some r.
Proof.
  destruct (resolve_loop (name_taken names) (resolve_fuel names) name name 1)
    as [r|] eqn:E; [now exists r|].
  exfalso. unfold resolve_fuel in E.
  pose proof (resolve_loop_None _ _ _ _ _ E) as H.
  set (cs := map (candidate name) (seq 1 (S (List.length names)))).
  assert (Hincl : incl cs names).
  { intros c Hc. unfold cs in Hc. apply in_map_iff in Hc.
    destruct Hc as (j & <- & Hj). apply in_seq in Hj.
    apply name_taken_In.
    replace j with (1 + (j - 1))%nat by lia. apply H. lia. }
  pose proof (NoDup_incl_length (NoDup_candidates name 1 _) Hincl) as Hlen.
  fold cs in Hlen. unfold cs in Hlen.
  rewrite length_map, length_seq in Hlen. lia.
Qed.

Lemma resolve_name_loop (names : list string) (name : string) :
  resolve_loop (name_taken names) (resolve_fuel names) name name 1
  = Some (resolve_name names name).
Proof.
  unfold resolve_name.
  destruct (resolve_loop_enough names name) as (r & E). now rewrite E.
Qed.

Lemma resolve_name_free (names : list string) (name : string) :
  ~ In (resolve_name names name) names.
Proof.
  apply name_taken_not_In.
  apply (resolve_loop_free _ _ _ _ _ _ (resolve_name_loop names name)).
Qed.

(** C6: the resolution loop never returns a name that its existence check
    reports as taken, whatever the check and however long the loop is run;
    against a table of names the loop ends, with a name that is not in the
    table; and with [a.jpg] and [a(1).jpg] taken, [a.jpg] resolves to
    [a(2).jpg]. *)
Theorem resolver_returns_free_name :
  (forall (taken : string -> bool) (fuel : nat) (name : string),
      match resolve_loop taken fuel name name 1 with
      | Some r => taken r = false
      | None => True
      end)
  /\ (forall (names : list string) (name : string),
         resolve_loop (name_taken names) (resolve_fuel names) name name 1
         = Some (resolve_name names name)
         /\ name_taken names (resolve_name names name) = false)
  /\ resolve_name ["a.jpg"; "a(1).jpg"] "a.jpg" = "a(2).jpg".
Proof.
  split; [|split].
  - intros taken fuel name.
    destruct (resolve_loop taken fuel name name 1) as [r|] eqn:E; [|trivial].
    now apply resolve_loop_free in E.
  - intros names name. split; [apply resolve_name_loop|].
    apply name_taken_not_In, resolve_name_free.
  - reflexivity.
Qed.

(** C7: a name without a dot. [rfind] returns [-1], which the two slices
    take as "one before the end": with [clip] taken, [clip] resolves to
    [cli(1)p], not to [clip(1)]; a second video added from a file named
    [clip] is stored as [cli(1)p]. *)
Theorem resolve_without_extension :
  rfind "." "clip" = -1
  /\ candidate "clip" 1 = "cli(1)p"
  /\ resolve_name ["clip"] "clip" = "cli(1)p"
  /\ resolve_name ["clip"] "clip" <> "clip(1)"
  /\ map name_video
       (videos (session [AddVideo world_fine "/home/user/clip" false;
                         AddVideo world_fine "/mnt/clip" false]
                  new_album))
     = ["clip"; "cli(1)p"].
Proof.
  repeat split. discriminate.
Qed.

(** ** The frame range *)

Lemma range_loop_spec (fuel : nat) (i stop step x : Z) :
  1 <= step -> stop - i <= Z.of_nat fuel ->
  In x (range_loop fuel i stop step)
  <-> i <= x < stop /\ exists k, 0 <= k /\ x = i + k * step.
Proof.
  intros Hstep. revert i.
  induction fuel as [|fuel IH]; intros i Hfuel; simpl.
  - split; [tauto | lia].
  - destruct (i <? stop) eqn:E.
    + apply Z.ltb_lt in E. simpl. rewrite IH by lia. split.
      * intros [<- | (Hx & k & Hk & ->)].
        -- split; [lia|]. exists 0. lia.
        -- split; [nia|]. exists (k + 1). split; [lia | ring].
      * intros (Hx & k & Hk & ->).
        destruct (Z.eq_dec k 0) as [-> | Hk0]; [left; ring | right].
        split; [nia|]. exists (k - 1). split; [lia | ring].
    + apply Z.ltb_ge in E. simpl. split; [tauto | lia].
Qed.

Lemma py_range_spec (start stop step x : Z) :
  1 <= step ->
  In x (py_range start stop step)
  <-> start <= x < stop /\ exists k, 0 <= k /\ x = start + k * step.
Proof.
  intros Hstep. unfold py_range. apply range_loop_spec; lia.
Qed.

(** ** The extraction loop *)

Lemma crop_body_thrown cap d rect it idx a a' :
  crop_body cap d rect it idx a = Thrown a' ->
  unrecoverable (frame_event_at cap idx) = true /\ a' = a.
Proof.
  unfold crop_body. destruct (frame_event_at cap idx); intros H;
    try discriminate; injection H as <-; now split.
Qed.

Lemma crop_body_next cap d rect it idx a a' :
  crop_body cap d rect it idx a = NextFrame a' ->
  unrecoverable (frame_event_at cap idx) = false.
Proof.
  unfold crop_body. destruct (frame_event_at cap idx); intros H;
    try discriminate; reflexivity.
Qed.

(** The loop runs to its end exactly when no frame it visits meets an
    exception. *)
Lemma crop_loop_completed cap d rect idxs : forall it a,
  fst (fst (crop_loop cap d rect it idxs a))
  = forallb (fun i => negb (unrecoverable (frame_event_at cap i))) idxs.
Proof.
  induction idxs as [|idx idxs IH]; intros it a; simpl; [reflexivity|].
  destruct (crop_body cap d rect it idx a) as [a'|a'] eqn:E.
  - rewrite (crop_body_next _ _ _ _ _ _ _ E). simpl.
    rewrite <- (IH (it + 1) a').
    now destruct (crop_loop cap d rect (it + 1) idxs a') as [[c a''] rs].
  - apply crop_body_thrown in E. destruct E as [-> _]. reflexivity.
Qed.

(** A loop that runs to its end has attempted a read at each index. *)
Lemma crop_loop_reads cap d rect idxs : forall it a,
  fst (fst (crop_loop cap d rect it idxs a)) = true ->
  snd (crop_loop cap d rect it idxs a) = idxs.
Proof.
  induction idxs as [|idx idxs IH]; intros it a; simpl; [reflexivity|].
  destruct (crop_body cap d rect it idx a) as [a'|a'] eqn:E.
  - specialize (IH (it + 1) a').
    destruct (crop_loop cap d rect (it + 1) idxs a') as [[c a''] rs].
    simpl in *. intros H. now rewrite IH.
  - discriminate.
Qed.

(** The loop touches neither [videos] nor [definitions], nor the counters
    of these, nor [dir_video]. *)
Lemma crop_loop_frame cap d rect idxs : forall it a,
  let a' := snd (fst (crop_loop cap d rect it idxs a)) in
  videos a' = videos a /\ definitions a' = definitions a
  /\ max_id_video a' = max_id_video a
  /\ max_id_definition a' = max_id_definition a
  /\ dir_video a' = dir_video a.
Proof.
  induction idxs as [|idx idxs IH]; intros it a; simpl; [tauto|].
  destruct (crop_body cap d rect it idx a) as [a1|a1] eqn:E.
  - specialize (IH (it + 1) a1).
    destruct (crop_loop cap d rect (it + 1) idxs a1) as [[c a''] rs].
    simpl in *.
    assert (H1 : videos a1 = videos a /\ definitions a1 = definitions a
                 /\ max_id_video a1 = max_id_video a
                 /\ max_id_definition a1 = max_id_definition a
                 /\ dir_video a1 = dir_video a).
    { unfold crop_body in E. destruct (frame_event_at cap idx);
        try discriminate; injection E as <-; simpl; tauto. }
    destruct IH as (-> & -> & -> & -> & ->). exact H1.
  - apply crop_body_thrown in E. destruct E as [_ ->]. simpl. tauto.
Qed.

Lemma reaches_loop_prelude w id a d v rect :
  reaches_loop w id a d v rect ->
  crop_prelude w id a
  = Ready (mkPlan d (capture w (name_video v)) rect (index_start d)
             (Z.min (index_end d)
                (CAP_PROP_FRAME_COUNT (capture w (name_video v))))
             (step_index d)).
Proof.
  intros (Hd & Hdone & Hv & Hfile & Hdec & Hrect & Hne & Hs & Hstep).
  unfold crop_prelude. rewrite Hd, Hdone, Hv, Hfile, Hdec. simpl.
  rewrite Hrect, Hne.
  assert (E1 : (index_start d <? 0) = false) by (apply Z.ltb_ge; lia).
  assert (E2 : (step_index d <? 1) = false) by (apply Z.ltb_ge; lia).
  now rewrite E1, E2.
Qed.

Lemma find_id_definition id ds d :
  find (fun d => id_definition d =? id) ds = Some d -> id_definition d = id.
Proof.
  intros H. apply find_some in H. destruct H as [_ H]. now apply Z.eqb_eq.
Qed.

Lemma exists_unrecoverable cap idxs :
  (exists i, In i idxs /\ unrecoverable (frame_event_at cap i) = true) ->
  forallb (fun i => negb (unrecoverable (frame_event_at cap i))) idxs = false.
Proof.
  intros (i & Hi & Hu).
  destruct (forallb _ idxs) eqn:E; [|reflexivity].
  rewrite forallb_forall in E. specialize (E i Hi). now rewrite Hu in E.
Qed.

Lemma no_unrecoverable cap idxs :
  (forall i, In i idxs -> unrecoverable (frame_event_at cap i) = false) ->
  forallb (fun i => negb (unrecoverable (frame_event_at cap i))) idxs = true.
Proof.
  intros H. apply forallb_forall. intros i Hi. now rewrite (H i Hi).
Qed.

(** ** [do_crop] *)

Lemma do_crop_ready w id a p :
  crop_prelude w id a = Ready p ->
  do_crop w id a
  = let '(completed, a', reads) :=
      crop_loop (plan_capture p) (plan_definition p) (plan_rect p) 0
        (py_range (plan_start p) (plan_end p) (plan_step p)) a in
    if completed
    then mkRun (Returned true)
           (mkAlbum (videos a')
              (mark_done (id_definition (plan_definition p)) (definitions a'))
              (images a') (max_id_video a') (max_id_definition a')
              (max_id_image a') (dir_video a') (dir_image a'))
           reads
    else mkRun (Returned true)
           (mkAlbum (videos a) (definitions a) (images a) (max_id_video a)
              (max_id_definition a) (max_id_image a) (dir_video a)
              (dir_image a'))
           reads.
Proof. intros H. unfold do_crop. now rewrite H. Qed.

(** [do_crop] raises only before its loop. *)
Lemma do_crop_raises w id a e :
  outcome (do_crop w id a) = Raised e <-> crop_prelude w id a = Fails e.
Proof.
  unfold do_crop. destruct (crop_prelude w id a) as [|e'|p]; simpl.
  - split; discriminate.
  - split; intros H; injection H as ->; reflexivity.
  - destruct (crop_loop _ _ _ _ _ _) as [[c a'] rs]. destruct c; simpl;
      split; discriminate.
Qed.

(** An exception before the loop leaves the album as it was and reads no
    frame. *)
Lemma do_crop_fails w id a e :
  crop_prelude w id a = Fails e -> do_crop w id a = mkRun (Raised e) a [].
Proof. intros H. unfold do_crop. now rewrite H. Qed.

(** C1: when the loop of [do_crop] meets an exception at one of the frames
    it is to visit, the call returns [True] all the same, and the album it
    leaves has the [images] rows, the counter [max_id_image] and the
    definitions it had before the call: the rows added during the run are
    gone, the counter is back, and the definition is still not done. The
    other tables and counters are as before too. *)
Theorem do_crop_rolls_back w id a d v rect :
  reaches_loop w id a d v rect ->
  (exists i, In i (sampled d (capture w (name_video v)))
             /\ unrecoverable (frame_event_at (capture w (name_video v)) i)
                = true) ->
  let r := do_crop w id a in
  outcome r = Returned true
  /\ images (album_after r) = images a
  /\ max_id_image (album_after r) = max_id_image a
  /\ definitions (album_after r) = definitions a
  /\ find (fun d => id_definition d =? id) (definitions (album_after r))
     = Some d
  /\ done d = false
  /\ videos (album_after r) = videos a
  /\ max_id_video (album_after r) = max_id_video a
  /\ max_id_definition (album_after r) = max_id_definition a.
Proof.
  intros Hreach Hexn. pose proof Hreach as (Hd & Hdone & _).
  cbv zeta. rewrite (do_crop_ready _ _ _ _ (reaches_loop_prelude _ _ _ _ _ _ Hreach)).
  cbn [plan_capture plan_definition plan_rect plan_start plan_end plan_step].
  pose proof (crop_loop_completed (capture w (name_video v)) d rect
                (sampled d (capture w (name_video v))) 0 a) as Hc.
  rewrite (exists_unrecoverable _ _ Hexn) in Hc. unfold sampled in Hc.
  destruct (crop_loop _ _ _ _ _ _) as [[c a'] rs]. simpl in Hc. subst c.
  simpl. repeat split; assumption.
Qed.

(** The witness of C1: the store raises at frame 4, the second of the
    frames 1, 4, 7. *)
Lemma do_crop_rolls_back_witness :
  let r := do_crop world_store_raises 0 album_clamped in
  outcome r = Returned true
  /\ images (album_after r) = []
  /\ max_id_image (album_after r) = -1
  /\ dir_image (album_after r) = ["000000_00000001_0000,0050,0800,0550.jpg"].
Proof.
  pose proof
    (do_crop_rolls_back world_store_raises 0 album_clamped
       (mkDefinition 0 0 "" false 1 20 3
          (Some (-10)) (Some 50) (Some 900) (Some 550))
       (mkVideo 0 "clip.mp4") (0, 50, 800, 550)) as H.
  assert (H1 : reaches_loop world_store_raises 0 album_clamped
                 (mkDefinition 0 0 "" false 1 20 3
                    (Some (-10)) (Some 50) (Some 900) (Some 550))
                 (mkVideo 0 "clip.mp4") (0, 50, 800, 550)).
  { unfold reaches_loop. repeat split; try reflexivity; simpl; lia. }
  specialize (H H1).
  assert (H2 : exists i,
             In i (sampled
                     (mkDefinition 0 0 "" false 1 20 3
                        (Some (-10)) (Some 50) (Some 900) (Some 550))
                     (capture world_store_raises "clip.mp4"))
             /\ unrecoverable
                  (frame_event_at (capture world_store_raises "clip.mp4") i)
                = true).
  { exists 4. split; [vm_compute; tauto | reflexivity]. }
  specialize (H H2). cbv zeta in *.
  destruct H as (Ho & Hi & Hm & _).
  split; [exact Ho|]. split; [rewrite Hi; reflexivity|].
  split; [rewrite Hm; reflexivity | reflexivity].
Defined.

(** C2, amended: when [do_crop] gets as far as its loop, which it does only
    with [index_start >= 0] and [step_index >= 1], and no frame meets an
    exception, the frames at which a read is attempted are those of
    [range(start, min(end, frame count), step)], in this order: the indices
    [start + k * step], [k >= 0], that lie in [0, min(end, frame count))]. *)
Theorem do_crop_reads_sampled_frames w id a d v rect :
  reaches_loop w id a d v rect ->
  (forall i, In i (sampled d (capture w (name_video v))) ->
             unrecoverable (frame_event_at (capture w (name_video v)) i)
             = false) ->
  frames_read (do_crop w id a) = sampled d (capture w (name_video v))
  /\ forall i,
       In i (frames_read (do_crop w id a))
       <-> (exists k, 0 <= k /\ i = index_start d + k * step_index d)
           /\ 0 <= i
              < Z.min (index_end d)
                  (CAP_PROP_FRAME_COUNT (capture w (name_video v))).
Proof.
  intros Hreach Hok.
  assert (E : frames_read (do_crop w id a)
              = sampled d (capture w (name_video v))).
  { rewrite (do_crop_ready _ _ _ _ (reaches_loop_prelude _ _ _ _ _ _ Hreach)).
    cbn [plan_capture plan_definition plan_rect plan_start plan_end plan_step].
    pose proof (crop_loop_completed (capture w (name_video v)) d rect
                  (sampled d (capture w (name_video v))) 0 a) as Hc.
    rewrite (no_unrecoverable _ _ Hok) in Hc.
    pose proof (crop_loop_reads _ _ _ _ _ _ Hc) as Hr.
    unfold sampled in Hc, Hr |- *.
    destruct (crop_loop _ _ _ _ _ _) as [[c a'] rs]. simpl in Hc, Hr.
    subst c. simpl. exact Hr. }
  split; [exact E|]. intros i. rewrite E. unfold sampled.
  destruct Hreach as (_ & _ & _ & _ & _ & _ & _ & Hs & Hstep).
  rewrite (py_range_spec _ _ _ _ Hstep). split.
  - intros (Hi & k & Hk & ->). split; [exists k; split; [lia|reflexivity] | nia].
  - intros ((k & Hk & ->) & Hi). split; [nia|]. exists k. split; [lia|reflexivity].
Qed.

(** The witness of C2: frames 1, 4 and 7 of a video of ten frames, for the
    range [(1, 20, 3)]. *)
Lemma do_crop_reads_sampled_frames_witness :
  frames_read (do_crop world_fine 0 album_clamped) = [1; 4; 7].
Proof.
  refine (proj1
    (do_crop_reads_sampled_frames world_fine 0 album_clamped
       (mkDefinition 0 0 "" false 1 20 3
          (Some (-10)) (Some 50) (Some 900) (Some 550))
       (mkVideo 0 "clip.mp4") (0, 50, 800, 550) _ _)).
  - unfold reaches_loop. repeat split; try reflexivity; simpl; lia.
  - intros i _. reflexivity.
Defined.

(** The counterexample to C2: the definition has start 1 and step 3, and
    the frames to sample from a video of ten frames are 1, 4 and 7. The
    store raises while frame 4 is handled: the run is rolled back, the call
    returns [True], and frame 7, which is in the set the claim gives, is
    never read. *)
Lemma do_crop_reads_cut_short :
  outcome (do_crop world_store_raises 0 album_clamped) = Returned true
  /\ frames_read (do_crop world_store_raises 0 album_clamped) = [1; 4]
  /\ ~ (forall i,
          In i (frames_read (do_crop world_store_raises 0 album_clamped))
          <-> (exists k, 0 <= k /\ i = 1 + k * 3)
              /\ 0 <= i < Z.min 20 10).
Proof.
  split; [reflexivity|]. split; [reflexivity|].
  intros H.
  assert (H7 : In 7 (frames_read (do_crop world_store_raises 0 album_clamped))).
  { apply H. split; [exists 2; lia | lia]. }
  replace (frames_read (do_crop world_store_raises 0 album_clamped))
    with [1; 4] in H7 by reflexivity.
  destruct H7 as [E | [E | []]]; discriminate E.
Qed.

Lemma do_crop_done w id a d :
  find (fun d => id_definition d =? id) (definitions a) = Some d ->
  done d = true ->
  do_crop w id a = mkRun (Returned true) a [].
Proof.
  intros Hd Hdone. unfold do_crop, crop_prelude. now rewrite Hd, Hdone.
Qed.

Lemma find_mark_done id ds d :
  find (fun d => id_definition d =? id) ds = Some d ->
  exists d',
    find (fun d => id_definition d =? id) (mark_done id ds) = Some d'
    /\ done d' = true.
Proof.
  induction ds as [|d0 ds IH]; simpl; [discriminate|].
  destruct (id_definition d0 =? id) eqn:E.
  - intros _. simpl. rewrite E. eexists. split; reflexivity.
  - rewrite E. exact IH.
Qed.

Lemma crop_prelude_ready_find w id a p :
  crop_prelude w id a = Ready p ->
  find (fun d => id_definition d =? id) (definitions a)
  = Some (plan_definition p).
Proof.
  unfold crop_prelude.
  destruct (find _ (definitions a)) as [d|]; [|discriminate].
  destruct (done d); [discriminate|].
  destruct (filter _ (videos a)) as [|v [|v' vs]]; try discriminate.
  destruct (negb _); [discriminate|].
  destruct (effective_rect _ _ d) as [rect|]; [|discriminate].
  destruct (rect_empty rect); [discriminate|].
  destruct (_ || _); [discriminate|].
  intros H. injection H as <-. reflexivity.
Qed.

(** The part of the album the lines before the loop look at. *)
Lemma crop_prelude_ext w id a a' :
  definitions a' = definitions a -> videos a' = videos a ->
  dir_video a' = dir_video a ->
  crop_prelude w id a' = crop_prelude w id a.
Proof. intros E1 E2 E3. unfold crop_prelude. now rewrite E1, E2, E3. Qed.

(** A run that completes leaves its definition done. *)
Lemma do_crop_completed_done w id a p :
  crop_prelude w id a = Ready p ->
  forallb (fun i => negb (unrecoverable (frame_event_at (plan_capture p) i)))
    (py_range (plan_start p) (plan_end p) (plan_step p)) = true ->
  exists d',
    find (fun d => id_definition d =? id)
      (definitions (album_after (do_crop w id a))) = Some d'
    /\ done d' = true.
Proof.
  intros Hp Hok. rewrite (do_crop_ready _ _ _ _ Hp).
  pose proof (crop_prelude_ready_find _ _ _ _ Hp) as Hd.
  pose proof (crop_loop_completed (plan_capture p) (plan_definition p)
                (plan_rect p)
                (py_range (plan_start p) (plan_end p) (plan_step p)) 0 a)
    as Hc.
  pose proof (crop_loop_frame (plan_capture p) (plan_definition p)
                (plan_rect p)
                (py_range (plan_start p) (plan_end p) (plan_step p)) 0 a)
    as Hf.
  rewrite Hok in Hc.
  destruct (crop_loop _ _ _ _ _ _) as [[c a'] rs]. simpl in Hc, Hf. subst c.
  simpl. destruct Hf as (_ & -> & _).
  rewrite (find_id_definition _ _ _ Hd). now apply find_mark_done with (d := plan_definition p).
Qed.

(** Running a definition twice in one world leaves the images of running
    it once. *)
Lemma do_crop_twice_images w id a :
  images (album_after (do_crop w id (album_after (do_crop w id a))))
  = images (album_after (do_crop w id a)).
Proof.
  destruct (crop_prelude w id a) as [|e|p] eqn:Hp.
  - assert (E : do_crop w id a = mkRun (Returned true) a [])
      by (unfold do_crop; now rewrite Hp).
    rewrite E. simpl. now rewrite E.
  - rewrite (do_crop_fails _ _ _ _ Hp). simpl.
    now rewrite (do_crop_fails _ _ _ _ Hp).
  - set (ok := forallb
                 (fun i => negb (unrecoverable
                                   (frame_event_at (plan_capture p) i)))
                 (py_range (plan_start p) (plan_end p) (plan_step p))).
    destruct ok eqn:Hok; unfold ok in Hok.
    + destruct (do_crop_completed_done _ _ _ _ Hp Hok) as (d' & Hd' & Hdone).
      now rewrite (do_crop_done w id _ d' Hd' Hdone).
    + pose proof (do_crop_ready _ _ _ _ Hp) as E.
      pose proof (crop_loop_completed (plan_capture p) (plan_definition p)
                    (plan_rect p)
                    (py_range (plan_start p) (plan_end p) (plan_step p)) 0 a)
        as Hc.
      rewrite Hok in Hc.
      destruct (crop_loop _ _ _ _ _ a) as [[c a'] rs]. simpl in Hc. subst c.
      rewrite E. cbn [album_after images].
      set (a2 := mkAlbum _ _ _ _ _ _ _ _).
      assert (Hp2 : crop_prelude w id a2 = Ready p)
        by (rewrite <- Hp; now apply crop_prelude_ext).
      rewrite (do_crop_ready _ _ _ _ Hp2).
      pose proof (crop_loop_completed (plan_capture p) (plan_definition p)
                    (plan_rect p)
                    (py_range (plan_start p) (plan_end p) (plan_step p)) 0 a2)
        as Hc2.
      rewrite Hok in Hc2.
      destruct (crop_loop _ _ _ _ _ a2) as [[c2 a2'] rs2]. simpl in Hc2.
      subst c2. reflexivity.
Qed.

(** C3: [do_crop] on a definition that is done returns [True], reads no
    frame and leaves the album, its tables, counters and image files, as it
    was, in any world. Hence a second run of a definition, after a run that
    completed, changes nothing, whatever the world has become; and in one
    world, running a definition twice leaves the images of running it
    once. *)
Theorem do_crop_done_is_noop :
  (forall w id a d,
      find (fun d => id_definition d =? id) (definitions a) = Some d ->
      done d = true ->
      do_crop w id a = mkRun (Returned true) a [])
  /\ (forall w w' id a d v rect,
         reaches_loop w id a d v rect ->
         (forall i, In i (sampled d (capture w (name_video v))) ->
                    unrecoverable
                      (frame_event_at (capture w (name_video v)) i) = false) ->
         do_crop w' id (album_after (do_crop w id a))
         = mkRun (Returned true) (album_after (do_crop w id a)) [])
  /\ (forall w id a,
         images (album_after (do_crop w id (album_after (do_crop w id a))))
         = images (album_after (do_crop w id a))).
Proof.
  split; [|split].
  - exact do_crop_done.
  - intros w w' id a d v rect Hreach Hok.
    pose proof (reaches_loop_prelude _ _ _ _ _ _ Hreach) as Hp.
    destruct (do_crop_completed_done _ _ _ _ Hp) as (d' & Hd' & Hdone).
    + apply no_unrecoverable. exact Hok.
    + exact (do_crop_done w' id _ d' Hd' Hdone).
  - exact do_crop_twice_images.
Qed.

(** The witness of C3: a second run after the extraction of frames 1, 4
    and 7, in a world where the store would raise. *)
Lemma do_crop_done_is_noop_witness :
  do_crop world_store_raises 0 album_cropped
  = mkRun (Returned true) album_cropped []
  /\ List.length (images album_cropped) = 3%nat.
Proof.
  split; [|reflexivity].
  refine (proj1 (proj2 do_crop_done_is_noop) world_fine world_store_raises 0
            album_clamped
            (mkDefinition 0 0 "" false 1 20 3
               (Some (-10)) (Some 50) (Some 900) (Some 550))
            (mkVideo 0 "clip.mp4") (0, 50, 800, 550) _ _).
  - unfold reaches_loop. repeat split; try reflexivity; simpl; lia.
  - intros i _. reflexivity.
Defined.

(** ** The effective rectangle *)

Lemma do_crop_empty_region w id a d v rect :
  find (fun d => id_definition d =? id) (definitions a) = Some d ->
  done d = false ->
  filter (fun v => id_video v =? def_id_video d) (videos a) = [v] ->
  name_taken (dir_video a) (name_video v) = true ->
  decodable (capture w (name_video v)) = true ->
  effective_rect (CAP_PROP_FRAME_WIDTH (capture w (name_video v)))
    (CAP_PROP_FRAME_HEIGHT (capture w (name_video v))) d = Some rect ->
  rect_empty rect = true ->
  do_crop w id a = mkRun (Raised (RuntimeError EmptyCropRegion)) a [].
Proof.
  intros Hd Hdone Hv Hfile Hdec Hrect Hempty.
  apply do_crop_fails. unfold crop_prelude.
  rewrite Hd, Hdone, Hv, Hfile, Hdec. simpl. now rewrite Hrect, Hempty.
Qed.

(** C8: the effective rectangle is the full frame [(0, 0, width, height)]
    when the definition has no rectangle, and otherwise the rectangle of the
    definition with left and top raised to 0 by [max] and right and bottom
    lowered to the width and the height by [min]; for a frame of 800 by 600
    and the rectangle [(-10, 50, 900, 550)] it is [(0, 50, 800, 550)]; and
    when it has a width or a height that is not positive, [do_crop] raises
    the [RuntimeError] of the empty region, having read no frame and changed
    nothing. *)
Theorem effective_rect_clamped :
  (forall width height d,
      pixel_left d = None ->
      effective_rect width height d = Some (0, 0, width, height))
  /\ (forall width height d l t r b,
         pixel_left d = Some l -> pixel_top d = Some t ->
         pixel_right d = Some r -> pixel_bottom d = Some b ->
         effective_rect width height d
         = Some (Z.max 0 l, Z.max 0 t, Z.min width r, Z.min height b))
  /\ effective_rect 800 600
       (mkDefinition 0 0 "" false 0 1 1
          (Some (-10)) (Some 50) (Some 900) (Some 550))
     = Some (0, 50, 800, 550)
  /\ (forall w id a d v r0 r1 r2 r3,
         find (fun d => id_definition d =? id) (definitions a) = Some d ->
         done d = false ->
         filter (fun v => id_video v =? def_id_video d) (videos a) = [v] ->
         name_taken (dir_video a) (name_video v) = true ->
         decodable (capture w (name_video v)) = true ->
         effective_rect (CAP_PROP_FRAME_WIDTH (capture w (name_video v)))
           (CAP_PROP_FRAME_HEIGHT (capture w (name_video v))) d
         = Some (r0, r1, r2, r3) ->
         r2 - r0 <= 0 \/ r3 - r1 <= 0 ->
         do_crop w id a = mkRun (Raised (RuntimeError EmptyCropRegion)) a []).
Proof.
  split; [|split; [|split]].
  - intros width height d H. unfold effective_rect. now rewrite H.
  - intros width height d l t r b Hl Ht Hr Hb. unfold effective_rect.
    now rewrite Hl, Ht, Hr, Hb.
  - reflexivity.
  - intros w id a d v r0 r1 r2 r3 Hd Hdone Hv Hfile Hdec Hrect Hempty.
    apply (do_crop_empty_region w id a d v (r0, r1, r2, r3)); try assumption.
    unfold rect_empty. apply orb_true_iff.
    destruct Hempty; [left | right]; apply Z.leb_le; lia.
Qed.

(** The witness of C8: a rectangle of width zero, [(100, 100, 100, 200)],
    on a frame of 800 by 600. *)
Lemma effective_rect_clamped_witness :
  do_crop world_fine 0 album_two_pending
  = mkRun (Raised (RuntimeError EmptyCropRegion)) album_two_pending [].
Proof.
  refine (proj2 (proj2 (proj2 effective_rect_clamped)) world_fine 0
            album_two_pending
            (mkDefinition 0 0 "" false 0 10 1
               (Some 100) (Some 100) (Some 100) (Some 200))
            (mkVideo 0 "clip.mp4") 100 100 100 200 _ _ _ _ _ _ _);
    try reflexivity.
  left. lia.
Defined.

(** ** [do_crop_all] *)

Lemma do_crop_each_calls w ids : forall a,
  match do_crop_each w ids a with
  | (Returned b, _, calls) => b = true /\ map fst calls = ids
  | (Raised e, a', calls) =>
      exists pre id post,
        ids = (pre ++ id :: post)%list
        /\ map fst calls = (pre ++ [id])%list
        /\ crop_prelude w id a' = Fails e
  end.
Proof.
  induction ids as [|id ids IH]; intros a; simpl; [now split|].
  destruct (outcome (do_crop w id a)) as [b|e] eqn:E.
  - specialize (IH (album_after (do_crop w id a))).
    destruct (do_crop_each w ids (album_after (do_crop w id a)))
      as [[[b'|e'] a'] calls]; simpl.
    + destruct IH as [-> ->]. now split.
    + destruct IH as (pre & id' & post & -> & Hc & Hp).
      exists (id :: pre), id', post. simpl. rewrite Hc. now repeat split.
  - apply do_crop_raises in E. rewrite (do_crop_fails _ _ _ _ E). simpl.
    exists [], id, ids. now repeat split.
Qed.

(** The counterexample to C4: of two definitions that are not done, the
    first has a rectangle of width zero. [do_crop] raises on it, nothing in
    [do_crop_all] catches the exception: the second definition is not run
    and [True] is not returned. *)
Lemma do_crop_all_not_fire_and_continue :
  pending_definitions album_two_pending = [0; 1]
  /\ do_crop_all world_fine album_two_pending
     = (Raised (RuntimeError EmptyCropRegion), album_two_pending, [(0, [])])
  /\ ~ fire_and_continue world_fine album_two_pending.
Proof.
  split; [reflexivity|]. split; [reflexivity|].
  unfold fire_and_continue.
  replace (do_crop_all world_fine album_two_pending)
    with (@Raised bool (RuntimeError EmptyCropRegion), album_two_pending,
          [(0, @nil Z)]) by reflexivity.
  intros [H _]. discriminate H.
Qed.

(** C4, amended: [do_crop_all] calls [do_crop] on the definitions that are
    not done, in the order of the table. When it returns, it returns [True]
    and has called [do_crop] once on each of them; a run whose loop met an
    exception was rolled back inside [do_crop] and did not stop the others
    (in the example, the first run is rolled back at frame 4 and the second
    still extracts frames 0 and 5). When a call of [do_crop] raises, which it
    does only before its loop, [do_crop_all] raises the same exception at
    once: the calls made are those up to and including the one that raised,
    and the definitions after it are not run. *)
Theorem do_crop_all_calls :
  (forall w a,
      match do_crop_all w a with
      | (Returned b, _, calls) =>
          b = true /\ map fst calls = pending_definitions a
      | (Raised e, a', calls) =>
          exists pre id post,
            pending_definitions a = (pre ++ id :: post)%list
            /\ map fst calls = (pre ++ [id])%list
            /\ crop_prelude w id a' = Fails e
      end)
  /\ (let '(res, a', calls) :=
        do_crop_all world_store_raises album_two_in_order in
      res = Returned true
      /\ calls = [(0, [1; 4]); (1, [0; 5])]
      /\ pending_definitions a' = [0]
      /\ map index_in_definition (images a') = [0; 1]).
Proof.
  split.
  - intros w a. apply do_crop_each_calls.
  - vm_compute. repeat split.
Qed.

(** ** [add_crop_definition] *)

Lemma filter_id_video_nonempty vid vs :
  In vid (map id_video vs) ->
  filter (fun v => id_video v =? vid) vs <> [].
Proof.
  intros H. apply in_map_iff in H. destruct H as (v & <- & Hv).
  intros E.
  assert (Hin : In v (filter (fun v0 => id_video v0 =? id_video v) vs))
    by (apply filter_In; split; [exact Hv | apply Z.eqb_refl]).
  rewrite E in Hin. exact Hin.
Qed.

Lemma add_crop_definition_accepts vid slice rect desc a :
  In vid (map id_video (videos a)) ->
  row_fits (definition_row (max_id_definition a + 1) vid slice rect desc)
  = true ->
  add_crop_definition vid slice rect desc a
  = (Returned (max_id_definition a + 1),
     mkAlbum (videos a)
       (definitions a
          ++ [definition_row (max_id_definition a + 1) vid slice rect desc])
       (images a) (max_id_video a) (max_id_definition a + 1)
       (max_id_image a) (dir_video a) (dir_image a)).
Proof.
  intros H Hfits. apply filter_id_video_nonempty in H.
  unfold add_crop_definition.
  destruct (filter _ (videos a)); [congruence | now rewrite Hfits].
Qed.

Lemma add_crop_definition_overflows vid slice rect desc a :
  In vid (map id_video (videos a)) ->
  row_fits (definition_row (max_id_definition a + 1) vid slice rect desc)
  = false ->
  add_crop_definition vid slice rect desc a
  = (Raised OverflowError,
     mkAlbum (videos a) (definitions a) (images a) (max_id_video a)
       (max_id_definition a + 1) (max_id_image a) (dir_video a)
       (dir_image a)).
Proof.
  intros H Hfits. apply filter_id_video_nonempty in H.
  unfold add_crop_definition.
  destruct (filter _ (videos a)); [congruence | now rewrite Hfits].
Qed.

Lemma effective_rect_inverted width height d l t r b rect :
  pixel_left d = Some l -> pixel_top d = Some t ->
  pixel_right d = Some r -> pixel_bottom d = Some b ->
  r <= l \/ b <= t ->
  effective_rect width height d = Some rect ->
  rect_empty rect = true.
Proof.
  intros Hl Ht Hr Hb Hinv. unfold effective_rect.
  rewrite Hl, Ht, Hr, Hb. intros E. injection E as <-.
  unfold rect_empty. apply orb_true_iff.
  destruct Hinv; [left | right]; apply Z.leb_le; lia.
Qed.

Lemma do_crop_rejects_invalid w id a d :
  find (fun d => id_definition d =? id) (definitions a) = Some d ->
  done d = false ->
  index_start d < 0 \/ step_index d < 1
  \/ (exists l t r b,
         pixel_left d = Some l /\ pixel_top d = Some t
         /\ pixel_right d = Some r /\ pixel_bottom d = Some b
         /\ (r <= l \/ b <= t)) ->
  exists e, do_crop w id a = mkRun (Raised e) a [].
Proof.
  intros Hd Hdone Hbad.
  assert (H : exists e, crop_prelude w id a = Fails e).
  { unfold crop_prelude. rewrite Hd, Hdone.
    destruct (filter _ (videos a)) as [|v [|v' vs]]; try (eexists; reflexivity).
    destruct (negb _); [eexists; reflexivity|].
    destruct (effective_rect _ _ d) as [rect|] eqn:Hrect;
      [|eexists; reflexivity].
    destruct (rect_empty rect) eqn:Hne; [eexists; reflexivity|].
    destruct Hbad as [Hs | [Hs | (l & t & r & b & Hl & Ht & Hr & Hb & Hinv)]].
    - assert (E : (index_start d <? 0) = true) by (apply Z.ltb_lt; lia).
      rewrite E. eexists; reflexivity.
    - assert (E : (step_index d <? 1) = true) by (apply Z.ltb_lt; lia).
      rewrite E, orb_true_r. eexists; reflexivity.
    - rewrite (effective_rect_inverted _ _ _ _ _ _ _ _ Hl Ht Hr Hb Hinv Hrect)
        in Hne. discriminate. }
  destruct H as (e & He). exists e. now apply do_crop_fails.
Qed.

Lemma py_range_backwards start stop step :
  stop <= start -> py_range start stop step = [].
Proof.
  intros H. unfold py_range.
  replace (Z.to_nat (stop - start)) with 0%nat by lia. reflexivity.
Qed.

(** The counterexample to C10: the range [(5, 2, 1)], which ends before it
    starts, is accepted by [add_crop_definition] and is not rejected by
    [do_crop] either: the call returns [True], reads no frame and marks the
    definition done. *)
Lemma backwards_range_not_rejected :
  map (fun d => (index_start d, index_end d, done d))
    (definitions album_backwards) = [(5, 2, false)]
  /\ do_crop world_fine 0 album_backwards
     = mkRun (Returned true)
         (mkAlbum (videos album_backwards)
            (mark_done 0 (definitions album_backwards)) []
            0 0 (-1) ["clip.mp4"] [])
         []
  /\ ~ rejects world_fine 0 album_backwards.
Proof.
  split; [reflexivity|]. split; [reflexivity|].
  intros (e & He). vm_compute in He. discriminate He.
Qed.

(** C10, amended: for a video that exists, [add_crop_definition] accepts
    every range and every rectangle whose integers fit the 64-bit columns of
    the table: it returns the next identifier and adds the row with the
    values as given and [done = False]. Values that do not fit are refused
    by the database, whatever they mean: the call raises [OverflowError],
    no row is added and the counter stays incremented. Of the values that
    make no sense, a negative start, a step below 1 and a rectangle whose
    right is not beyond its left or whose bottom is not beyond its top are
    rejected only when [do_crop] runs the definition: it raises, reads no
    frame and changes nothing (with [InvalidFrameRange] when the video opens
    and the effective rectangle is not empty, for the first two). A range
    whose end is not beyond its start is never rejected: [do_crop] returns
    [True], reads no frame, adds no image and marks the definition done. *)
Theorem add_crop_definition_validates_nothing :
  (forall vid slice rect desc a,
      In vid (map id_video (videos a)) ->
      row_fits (definition_row (max_id_definition a + 1) vid slice rect desc)
      = true ->
      add_crop_definition vid slice rect desc a
      = (Returned (max_id_definition a + 1),
         mkAlbum (videos a)
           (definitions a
              ++ [definition_row (max_id_definition a + 1) vid slice rect
                    desc])
           (images a) (max_id_video a) (max_id_definition a + 1)
           (max_id_image a) (dir_video a) (dir_image a))
        /\ done (definition_row (max_id_definition a + 1) vid slice rect desc)
           = false)
  /\ (forall vid slice rect desc a,
         In vid (map id_video (videos a)) ->
         row_fits
           (definition_row (max_id_definition a + 1) vid slice rect desc)
         = false ->
         add_crop_definition vid slice rect desc a
         = (Raised OverflowError,
            mkAlbum (videos a) (definitions a) (images a) (max_id_video a)
              (max_id_definition a + 1) (max_id_image a) (dir_video a)
              (dir_image a)))
  /\ (forall w id a d,
         find (fun d => id_definition d =? id) (definitions a) = Some d ->
         done d = false ->
         index_start d < 0 \/ step_index d < 1
         \/ (exists l t r b,
                pixel_left d = Some l /\ pixel_top d = Some t
                /\ pixel_right d = Some r /\ pixel_bottom d = Some b
                /\ (r <= l \/ b <= t)) ->
         exists e, do_crop w id a = mkRun (Raised e) a [])
  /\ (forall w id a d v rect,
         find (fun d => id_definition d =? id) (definitions a) = Some d ->
         done d = false ->
         filter (fun v => id_video v =? def_id_video d) (videos a) = [v] ->
         name_taken (dir_video a) (name_video v) = true ->
         decodable (capture w (name_video v)) = true ->
         effective_rect (CAP_PROP_FRAME_WIDTH (capture w (name_video v)))
           (CAP_PROP_FRAME_HEIGHT (capture w (name_video v))) d = Some rect ->
         rect_empty rect = false ->
         index_start d < 0 \/ step_index d < 1 ->
         do_crop w id a = mkRun (Raised (RuntimeError InvalidFrameRange)) a [])
  /\ (forall w id a d v rect,
         reaches_loop w id a d v rect ->
         index_end d <= index_start d ->
         do_crop w id a
         = mkRun (Returned true)
             (mkAlbum (videos a) (mark_done id (definitions a)) (images a)
                (max_id_video a) (max_id_definition a) (max_id_image a)
                (dir_video a) (dir_image a))
             []).
Proof.
  split; [|split; [|split; [|split]]].
  - intros vid [[s0 s1] s2] rect desc a H Hfits.
    split; [now apply add_crop_definition_accepts|].
    destruct rect as [[[[r0 r1] r2] r3]|]; reflexivity.
  - intros vid slice rect desc a H Hfits.
    now apply add_crop_definition_overflows.
  - exact do_crop_rejects_invalid.
  - intros w id a d v rect Hd Hdone Hv Hfile Hdec Hrect Hne Hbad.
    apply do_crop_fails. unfold crop_prelude.
    rewrite Hd, Hdone, Hv, Hfile, Hdec. simpl. rewrite Hrect, Hne.
    assert (E : (index_start d <? 0) || (step_index d <? 1) = true).
    { apply orb_true_iff. destruct Hbad; [left | right]; apply Z.ltb_lt; lia. }
    now rewrite E.
  - intros w id a d v rect Hreach Hback.
    rewrite (do_crop_ready _ _ _ _ (reaches_loop_prelude _ _ _ _ _ _ Hreach)).
    cbn [plan_capture plan_definition plan_rect plan_start plan_end plan_step].
    rewrite py_range_backwards by lia. simpl.
    destruct Hreach as (Hd & _). now rewrite (find_id_definition _ _ _ Hd).
Qed.

(** The witness of C10: the start [-3] is accepted when the definition is
    added, and rejected when it is run; the end [2 ^ 63] is refused by the
    database. *)
Lemma add_crop_definition_validates_nothing_witness :
  fst (add_crop_definition 0 (-3, 8, 1) None "" album_clip) = Returned 0
  /\ do_crop world_fine 0 album_negative_start
     = mkRun (Raised (RuntimeError InvalidFrameRange)) album_negative_start []
  /\ fst (add_crop_definition 0 (0, 2 ^ 63, 1) None "" album_clip)
     = Raised OverflowError.
Proof.
  split; [|split].
  - rewrite (proj1 (proj1 add_crop_definition_validates_nothing
                      0 (-3, 8, 1) None "" album_clip
                      (or_introl eq_refl) eq_refl)).
    reflexivity.
  - refine (proj1 (proj2 (proj2 (proj2 add_crop_definition_validates_nothing)))
              world_fine 0 album_negative_start
              (mkDefinition 0 0 "" false (-3) 8 1 None None None None)
              (mkVideo 0 "clip.mp4") (0, 0, 800, 600) _ _ _ _ _ _ _ _);
      try reflexivity.
    left. simpl. lia.
  - rewrite (proj1 (proj2 add_crop_definition_validates_nothing)
               0 (0, 2 ^ 63, 1) None "" album_clip
               (or_introl eq_refl) eq_refl).
    reflexivity.
Defined.

(** ** Lists *)

Lemma NoDup_snoc {A : Type} (l : list A) (x : A) :
  NoDup l -> ~ In x l -> NoDup (l ++ [x]).
Proof.
  intros Hl Hx. induction Hl as [|y l Hy Hl IH]; simpl.
  - constructor; [tauto | constructor].
  - constructor.
    + rewrite in_app_iff. simpl. intros [H | [H | []]]; [tauto|].
      subst. apply Hx. now left.
    + apply IH. intros H. apply Hx. now right.
Qed.

Section Filtered.

(** Rows of a table, the column [key] of a row, and the rows a deletion
    keeps. *)
Context {A B : Type} (key : A -> B) (keep : A -> bool).

Lemma In_map_filter (rows : list A) (x : B) :
  In x (map key (filter keep rows)) -> In x (map key rows).
Proof.
  rewrite !in_map_iff. intros (y & E & Hy). exists y. split; [exact E|].
  apply filter_In in Hy. tauto.
Qed.

Lemma NoDup_map_filter (rows : list A) :
  NoDup (map key rows) -> NoDup (map key (filter keep rows)).
Proof.
  induction rows as [|row rows IH]; simpl; intros H; [constructor|].
  inversion H as [|? ? Hrow Hrows]; subst.
  destruct (keep row); simpl; [|now apply IH].
  constructor; [|now apply IH].
  intros Hin. apply Hrow. now apply In_map_filter.
Qed.

End Filtered.

(** ** What the extraction loop does to [images] *)

Lemma appends_images_refl a : appends_images a a.
Proof.
  split; [lia|]. split; [|trivial].
  exists []. split; [now rewrite app_nil_r | constructor].
Qed.

Lemma appends_images_trans a b c :
  appends_images a b -> appends_images b c -> appends_images a c.
Proof.
  intros (H1 & (l1 & E1 & F1) & N1) (H2 & (l2 & E2 & F2) & N2).
  split; [lia|]. split; [|tauto].
  exists (l1 ++ l2)%list. split; [rewrite E2, E1; now rewrite app_assoc|].
  apply Forall_app. split.
  - eapply Forall_impl; [|exact F1]. simpl. intros im. lia.
  - eapply Forall_impl; [|exact F2]. simpl. intros im. lia.
Qed.

Lemma crop_body_appends cap d rect it idx a a' :
  crop_body cap d rect it idx a = NextFrame a' -> appends_images a a'.
Proof.
  unfold crop_body.
  destruct (frame_event_at cap idx); try discriminate;
    intros H; injection H as <-; try apply appends_images_refl.
  split; [simpl; lia|]. split.
  - eexists. split; [reflexivity|]. constructor; [simpl; lia | constructor].
  - simpl. intros Hn. rewrite map_app. simpl.
    apply NoDup_snoc; [exact Hn | apply resolve_name_free].
Qed.

Lemma crop_loop_appends cap d rect idxs : forall it a,
  appends_images a (snd (fst (crop_loop cap d rect it idxs a))).
Proof.
  induction idxs as [|idx idxs IH]; intros it a; simpl;
    [apply appends_images_refl|].
  destruct (crop_body cap d rect it idx a) as [a1|a1] eqn:E.
  - specialize (IH (it + 1) a1).
    destruct (crop_loop cap d rect (it + 1) idxs a1) as [[c a''] rs].
    simpl in *. eapply appends_images_trans; [|exact IH].
    now apply crop_body_appends in E.
  - apply crop_body_thrown in E. destruct E as [_ ->]. simpl.
    apply appends_images_refl.
Qed.

(** ** What the operations do to identifiers and file names *)

Lemma comes_after_refl a : comes_after a a.
Proof. unfold comes_after. repeat split; try lia; intros x Hx; now left. Qed.

Lemma comes_after_trans a b c :
  comes_after a b -> comes_after b c -> comes_after a c.
Proof.
  intros ((V1 & D1 & I1) & Hv1 & Hd1 & Hi1) ((V2 & D2 & I2) & Hv2 & Hd2 & Hi2).
  split; [lia|]. repeat split; intros x Hx.
  - destruct (Hv2 x Hx) as [H | H]; [|right; lia].
    destruct (Hv1 x H); [now left | now right].
  - destruct (Hd2 x Hx) as [H | H]; [|right; lia].
    destruct (Hd1 x H); [now left | now right].
  - destruct (Hi2 x Hx) as [H | H]; [|right; lia].
    destruct (Hi1 x H); [now left | now right].
Qed.

Lemma keeps_order_refl a : keeps_order a a.
Proof. split; [apply comes_after_refl | tauto]. Qed.

Lemma keeps_order_trans a b c :
  keeps_order a b -> keeps_order b c -> keeps_order a c.
Proof.
  intros (H1 & B1 & N1) (H2 & B2 & N2).
  split; [eapply comes_after_trans; eassumption | tauto].
Qed.

Lemma Forall_le_weaken (c c' : Z) (l : list Z) :
  c <= c' -> Forall (fun x => x <= c) l -> Forall (fun x => x <= c') l.
Proof.
  intros Hc H. eapply Forall_impl; [|exact H]. simpl. intros x. lia.
Qed.

Lemma Forall_le_snoc (c : Z) (l : list Z) :
  Forall (fun x => x <= c) l -> Forall (fun x => x <= c + 1) (l ++ [c + 1]).
Proof.
  intros H. apply Forall_app. split.
  - apply (Forall_le_weaken c); [lia | exact H].
  - constructor; [lia | constructor].
Qed.

Lemma In_snoc_fresh (c x : Z) (l : list Z) :
  In x (l ++ [c + 1]) -> In x l \/ c < x.
Proof.
  rewrite in_app_iff. simpl. intros [H | [<- | []]]; [now left | right; lia].
Qed.

Lemma id_definition_row id vid slice rect desc :
  id_definition (definition_row id vid slice rect desc) = id.
Proof.
  destruct slice as [[s0 s1] s2].
  destruct rect as [[[[r0 r1] r2] r3]|]; reflexivity.
Qed.

(** The counter of a kind is raised by one and nothing else changes in the
    tables: what a commit that raises [OverflowError] leaves. *)
Lemma counter_only_keeps_order a a' :
  videos a' = videos a -> definitions a' = definitions a ->
  images a' = images a ->
  max_id_video a <= max_id_video a' ->
  max_id_definition a <= max_id_definition a' ->
  max_id_image a <= max_id_image a' ->
  keeps_order a a'.
Proof.
  intros Ev Ed Ei Hv Hd Hi. split; [|split].
  - unfold comes_after. rewrite Ev, Ed, Ei. split; [lia|].
    repeat split; intros x Hx; now left.
  - intros (Bv & Bd & Bi). unfold ids_below. rewrite Ev, Ed, Ei.
    repeat split; eapply Forall_le_weaken; eassumption.
  - unfold names_unique. now rewrite Ev, Ei.
Qed.

Lemma add_video_keeps_order w p m a :
  keeps_order a (snd (add_video w p m a)).
Proof.
  unfold add_video. destruct (negb (source_exists _ _));
    [apply keeps_order_refl|].
  destruct (transfer _ _ _ _) as [dir|e]; [|apply keeps_order_refl].
  destruct (int64 _); simpl;
    [|apply counter_only_keeps_order; simpl; try reflexivity; lia].
  split; [|split].
  - unfold comes_after. simpl. split; [lia|].
    repeat split; intros x Hx; try (now left).
    rewrite map_app in Hx. simpl in Hx. now apply In_snoc_fresh.
  - intros (Hv & Hd & Hi). unfold ids_below. simpl.
    repeat split; try assumption.
    rewrite map_app. simpl. now apply Forall_le_snoc.
  - intros (Hv & Hi). unfold names_unique. simpl. split; [|exact Hi].
    rewrite map_app. simpl.
    apply NoDup_snoc; [exact Hv | apply resolve_name_free].
Qed.

Lemma add_crop_definition_keeps_order vid slice rect desc a :
  keeps_order a (snd (add_crop_definition vid slice rect desc a)).
Proof.
  unfold add_crop_definition. destruct (filter _ (videos a));
    [apply keeps_order_refl|].
  destruct (row_fits _); simpl;
    [|apply counter_only_keeps_order; simpl; try reflexivity; lia].
  split; [|split].
  - unfold comes_after. simpl. split; [lia|].
    repeat split; intros x Hx; try (now left).
    rewrite map_app in Hx. simpl in Hx. rewrite id_definition_row in Hx.
    now apply In_snoc_fresh.
  - intros (Hv & Hd & Hi). unfold ids_below. simpl.
    repeat split; try assumption.
    rewrite map_app. simpl. rewrite id_definition_row.
    now apply Forall_le_snoc.
  - intros H. exact H.
Qed.

Lemma remove_crop_definition_keeps_order id a :
  keeps_order a (snd (remove_crop_definition id a)).
Proof.
  unfold remove_crop_definition.
  destruct (find _ (definitions a)) as [d|]; [|apply keeps_order_refl].
  destruct (negb (done d) && _); [apply keeps_order_refl|].
  simpl. split; [|split].
  - unfold comes_after. simpl. split; [lia|].
    repeat split; intros x Hx; try (now left).
    + left. now apply In_map_filter in Hx.
    + left. destruct (done d); [now apply In_map_filter in Hx | exact Hx].
  - intros (Hv & Hd & Hi). unfold ids_below. simpl.
    repeat split; try assumption.
    + apply Forall_forall. intros x Hx. apply In_map_filter in Hx.
      revert x Hx. now apply Forall_forall.
    + destruct (done d); [|exact Hi].
      apply Forall_forall. intros x Hx. apply In_map_filter in Hx.
      revert x Hx. now apply Forall_forall.
  - intros (Hv & Hi). unfold names_unique. simpl. split; [exact Hv|].
    destruct (done d); [now apply NoDup_map_filter | exact Hi].
Qed.

Lemma remove_crop_definitions_keeps_order ids : forall a,
  keeps_order a (snd (remove_crop_definitions ids a)).
Proof.
  induction ids as [|id ids IH]; intros a; simpl; [apply keeps_order_refl|].
  pose proof (remove_crop_definition_keeps_order id a) as H.
  destruct (remove_crop_definition id a) as [[b|e] a']; simpl in *.
  - eapply keeps_order_trans; [exact H | apply IH].
  - exact H.
Qed.

Lemma remove_video_keeps_order id a :
  keeps_order a (snd (remove_video id a)).
Proof.
  unfold remove_video.
  destruct (find _ (videos a)) as [v|]; [|apply keeps_order_refl].
  pose proof (remove_crop_definitions_keeps_order
                (map id_definition
                   (filter (fun d => def_id_video d =? id) (definitions a)))
                a) as H.
  destruct (remove_crop_definitions _ a) as [[b|e] a']; simpl in *;
    [|exact H].
  destruct (negb _); simpl; [exact H|].
  eapply keeps_order_trans; [exact H|].
  split; [|split].
  - unfold comes_after. simpl. split; [lia|].
    repeat split; intros x Hx; try (now left).
    left. now apply In_map_filter in Hx.
  - intros (Hv & Hd & Hi). unfold ids_below. simpl.
    repeat split; try assumption.
    apply Forall_forall. intros x Hx. apply In_map_filter in Hx.
    revert x Hx. now apply Forall_forall.
  - intros (Hv & Hi). unfold names_unique. simpl. split; [|exact Hi].
    now apply NoDup_map_filter.
Qed.

Lemma map_id_mark_done id ds :
  map id_definition (mark_done id ds) = map id_definition ds.
Proof.
  induction ds as [|d ds IH]; simpl; [reflexivity|].
  rewrite IH. now destruct (id_definition d =? id).
Qed.

(** An album that differs in [images], [max_id_image], [dir_image] and the
    [done] flags only, its images having been appended. *)
Lemma appends_keeps_order a a' :
  videos a' = videos a ->
  map id_definition (definitions a') = map id_definition (definitions a) ->
  max_id_video a' = max_id_video a ->
  max_id_definition a' = max_id_definition a ->
  appends_images a a' ->
  keeps_order a a'.
Proof.
  intros Ev Ed Ecv Ecd (Hc & (added & Ei & Hadded) & Hn).
  split; [|split].
  - unfold comes_after. rewrite Ev, Ed, Ecv, Ecd. split; [lia|].
    repeat split; intros x Hx; try (now left).
    rewrite Ei, map_app, in_app_iff in Hx. destruct Hx as [Hx | Hx];
      [now left | right].
    apply in_map_iff in Hx. destruct Hx as (im & <- & Him).
    rewrite Forall_forall in Hadded. specialize (Hadded im Him). lia.
  - intros (Hv & Hd & Hi). unfold ids_below. rewrite Ev, Ed, Ecv, Ecd.
    repeat split; try assumption.
    rewrite Ei, map_app. apply Forall_app. split.
    + apply (Forall_le_weaken (max_id_image a)); assumption.
    + apply Forall_forall. intros x Hx.
      apply in_map_iff in Hx. destruct Hx as (im & <- & Him).
      rewrite Forall_forall in Hadded. specialize (Hadded im Him). lia.
  - intros (Hv & Hi). unfold names_unique. rewrite Ev. split; [exact Hv|].
    now apply Hn.
Qed.

Lemma do_crop_keeps_order w id a :
  keeps_order a (album_after (do_crop w id a)).
Proof.
  unfold do_crop. destruct (crop_prelude w id a) as [|e|p];
    try apply keeps_order_refl.
  pose proof (crop_loop_frame (plan_capture p) (plan_definition p)
                (plan_rect p)
                (py_range (plan_start p) (plan_end p) (plan_step p)) 0 a)
    as Hf.
  pose proof (crop_loop_appends (plan_capture p) (plan_definition p)
                (plan_rect p)
                (py_range (plan_start p) (plan_end p) (plan_step p)) 0 a)
    as Ha.
  destruct (crop_loop _ _ _ _ _ _) as [[c a'] rs]. simpl in Hf, Ha.
  destruct Hf as (Ev & Ed & Ecv & Ecd & _).
  destruct c; simpl.
  - apply appends_keeps_order; simpl; try assumption.
    now rewrite map_id_mark_done, Ed.
  - apply appends_keeps_order; simpl; try reflexivity.
    split; [simpl; lia|]. split; [|trivial].
    exists []. simpl. split; [now rewrite app_nil_r | constructor].
Qed.

Lemma do_crop_each_keeps_order w ids : forall a,
  keeps_order a (snd (fst (do_crop_each w ids a))).
Proof.
  induction ids as [|id ids IH]; intros a; simpl; [apply keeps_order_refl|].
  pose proof (do_crop_keeps_order w id a) as H.
  destruct (outcome (do_crop w id a)); simpl; [|exact H].
  specialize (IH (album_after (do_crop w id a))).
  destruct (do_crop_each w ids (album_after (do_crop w id a)))
    as [[res a'] calls]. simpl in *.
  eapply keeps_order_trans; eassumption.
Qed.

Lemma perform_keeps_order r a : keeps_order a (perform r a).
Proof.
  destruct r; simpl.
  - apply add_video_keeps_order.
  - apply remove_video_keeps_order.
  - apply add_crop_definition_keeps_order.
  - apply remove_crop_definition_keeps_order.
  - apply do_crop_keeps_order.
  - apply do_crop_each_keeps_order.
Qed.

Lemma session_keeps_order rs : forall a, keeps_order a (session rs a).
Proof.
  induction rs as [|r rs IH]; intros a; simpl; [apply keeps_order_refl|].
  eapply keeps_order_trans; [apply perform_keeps_order | apply IH].
Qed.

Lemma history_keeps_order rs : forall a a',
  In a' (history rs a) -> keeps_order a a'.
Proof.
  induction rs as [|r rs IH]; intros a a'; simpl.
  - intros [<- | []]. apply keeps_order_refl.
  - intros [<- | H]; [apply keeps_order_refl|].
    apply (keeps_order_trans a (perform r a) a');
      [apply perform_keeps_order | apply IH; exact H].
Qed.

(** The counterexample to C5: a video is added as [clip.mp4] under the
    identifier 0 and removed; a file of the same name, added afterwards,
    is stored as [clip.mp4] again, under the identifier 1. The table is
    asked for the rows it has, not for the rows it had. *)
Lemma removed_video_name_is_reused :
  map (fun a => map (fun v => (id_video v, name_video v)) (videos a))
    (history session_add_remove_add new_album)
  = [[]; [(0, "clip.mp4")]; []; [(1, "clip.mp4")]]
  /\ ~ video_names_never_reused session_add_remove_add new_album.
Proof.
  split; [reflexivity|].
  intros H.
  apply (H (session [AddVideo world_fine "/home/user/clip.mp4" false]
              new_album)
           (session session_add_remove_add new_album)
           (mkVideo 0 "clip.mp4") (mkVideo 1 "clip.mp4")).
  - right. left. reflexivity.
  - right. right. right. left. reflexivity.
  - left. reflexivity.
  - left. reflexivity.
  - discriminate.
  - reflexivity.
Qed.

(** C5, amended: at every moment of a session that starts from an album
    whose rows carry distinct file names, no two rows of [videos] carry the
    same file name and no two rows of [images] do. (The names of rows that
    were deleted are not kept: see [removed_video_name_is_reused].) *)
Theorem file_names_unique_among_rows rs a a' :
  names_unique a -> In a' (history rs a) -> names_unique a'.
Proof.
  intros Hn Hin. destruct (history_keeps_order rs a a' Hin) as (_ & _ & H).
  now apply H.
Qed.

(** The witness of C5: after two videos of the same name were added and a
    definition was run, the names are distinct. *)
Lemma file_names_unique_among_rows_witness :
  names_unique
    (session [AddVideo world_fine "/home/user/clip.mp4" false;
              AddVideo world_fine "/mnt/clip.mp4" false;
              AddCropDefinition 1 (0, 10, 5) None "";
              DoCrop world_fine 0]
       new_album).
Proof.
  apply (file_names_unique_among_rows
           [AddVideo world_fine "/home/user/clip.mp4" false;
            AddVideo world_fine "/mnt/clip.mp4" false;
            AddCropDefinition 1 (0, 10, 5) None "";
            DoCrop world_fine 0]
           new_album).
  - split; constructor.
  - do 4 right. left. reflexivity.
Defined.

(** ** Identifiers *)

Lemma do_crop_appends w id a :
  appends_images a (album_after (do_crop w id a)).
Proof.
  unfold do_crop. destruct (crop_prelude w id a) as [|e|p];
    try apply appends_images_refl.
  pose proof (crop_loop_appends (plan_capture p) (plan_definition p)
                (plan_rect p)
                (py_range (plan_start p) (plan_end p) (plan_step p)) 0 a)
    as Ha.
  destruct (crop_loop _ _ _ _ _ _) as [[c a'] rs]. simpl in Ha.
  destruct c; simpl; [exact Ha|].
  split; [simpl; lia|]. split; [|trivial].
  exists []. simpl. split; [now rewrite app_nil_r | constructor].
Qed.

Lemma add_crop_definition_returns vid slice rect desc a id a' :
  add_crop_definition vid slice rect desc a = (Returned id, a') ->
  id = max_id_definition a + 1 /\ max_id_definition a' = id.
Proof.
  unfold add_crop_definition. destruct (filter _ (videos a));
    [discriminate|].
  destruct (row_fits _); [|discriminate].
  intros H. injection H as <- <-. now split.
Qed.

Lemma add_video_returns w p m a id a' :
  add_video w p m a = (Returned id, a') ->
  id = max_id_video a + 1 /\ max_id_video a' = id.
Proof.
  unfold add_video. destruct (negb (source_exists _ _)); [discriminate|].
  destruct (transfer _ _ _ _) as [dir|e]; [|discriminate].
  destruct (int64 _); [|discriminate].
  intros H. injection H as <- <-. now split.
Qed.

(** C9: in a session, no counter goes down and every identifier found in a
    table was there before or lies above the counter as it was; starting
    from an album whose identifiers are not above their counters, as every
    album is when it is opened, this stays so. Hence an identifier that
    [add_crop_definition] returns is greater than every identifier it
    returned earlier in the session, whatever was removed in between; the
    same holds of [add_video]; and an image row that [do_crop] adds has an
    identifier greater than that of every image row there was before. *)
Theorem identifiers_increase :
  (forall rs a,
      comes_after a (session rs a)
      /\ (ids_below a -> ids_below (session rs a)))
  /\ (forall vs ds ims dv di, ids_below (open_album vs ds ims dv di))
  /\ (forall a vid slice rect desc id a1 rs vid' slice' rect' desc' id' a2,
         add_crop_definition vid slice rect desc a = (Returned id, a1) ->
         add_crop_definition vid' slice' rect' desc' (session rs a1)
         = (Returned id', a2) ->
         id < id')
  /\ (forall a w p m id a1 rs w' p' m' id' a2,
         add_video w p m a = (Returned id, a1) ->
         add_video w' p' m' (session rs a1) = (Returned id', a2) ->
         id < id')
  /\ (forall a rs w id im im',
         ids_below a ->
         In im (images a) ->
         In im' (images (album_after (do_crop w id (session rs a)))) ->
         ~ In im' (images (session rs a)) ->
         id_image im < id_image im').
Proof.
  split; [|split; [|split; [|split]]].
  - intros rs a. destruct (session_keeps_order rs a) as (H1 & H2 & _).
    now split.
  - intros vs ds ims dv di. unfold ids_below, open_album. simpl.
    assert (Hmax : forall l,
               Forall (fun x => x <= max_or_minus_one (sql_max l)) l).
    { intros [|x l]; [constructor|]. simpl.
      assert (G : forall l m, m <= fold_left Z.max l m
                              /\ Forall (fun y => y <= fold_left Z.max l m) l).
      { clear. induction l as [|y l IH]; intros m; simpl.
        - split; [lia | constructor].
        - destruct (IH (Z.max m y)) as [H1 H2]. split; [lia|].
          constructor; [lia | exact H2]. }
      destruct (G l x). now constructor. }
    repeat split; apply Hmax.
  - intros a vid slice rect desc id a1 rs vid' slice' rect' desc' id' a2 H1 H2.
    apply add_crop_definition_returns in H1, H2.
    destruct (session_keeps_order rs a1) as (((_ & Hd & _) & _) & _).
    lia.
  - intros a w p m id a1 rs w' p' m' id' a2 H1 H2.
    apply add_video_returns in H1, H2.
    destruct (session_keeps_order rs a1) as (((Hv & _) & _) & _).
    lia.
  - intros a rs w id im im' Hb Him Him' Hnew.
    destruct (session_keeps_order rs a) as (((_ & _ & Hc) & _) & _ & _).
    destruct (do_crop_appends w id (session rs a))
      as (_ & (added & E & Hadded) & _).
    rewrite E, in_app_iff in Him'. destruct Him' as [H | H]; [tauto|].
    rewrite Forall_forall in Hadded. specialize (Hadded im' H).
    destruct Hb as (_ & _ & Hb). rewrite Forall_forall in Hb.
    specialize (Hb (id_image im) (in_map id_image _ _ Him)). lia.
Qed.

(** The witness of C9: the sixth definition receives the identifier 5; it
    is removed; the next definition receives the identifier 6. *)
Lemma identifiers_increase_witness :
  fst (add_crop_definition 0 (0, 10, 6) None "f" album_five_definitions)
  = Returned 5
  /\ fst (add_crop_definition 0 (0, 10, 7) None "g"
            (session [RemoveCropDefinition 5]
               (snd (add_crop_definition 0 (0, 10, 6) None "f"
                       album_five_definitions))))
     = Returned 6
  /\ 5 < 6.
Proof.
  split; [reflexivity|]. split; [reflexivity|].
  refine (proj1 (proj2 (proj2 identifiers_increase))
            album_five_definitions 0 (0, 10, 6) None "f" 5 _
            [RemoveCropDefinition 5] 0 (0, 10, 7) None "g" 6 _ _ _);
    reflexivity.
Defined.

(** * Further properties *)

(** ** The rows the extraction loop adds *)

Lemma seq_shift_ids (c : Z) (n : nat) :
  map (fun k => c + 1 + 1 + Z.of_nat k) (seq 0 n)
  = map (fun k => c + 1 + Z.of_nat k) (seq 1 n).
Proof.
  rewrite <- seq_shift, map_map. apply map_ext. intros k. lia.
Qed.

Lemma crop_loop_added cap d rect idxs : forall it a,
  let a' := snd (fst (crop_loop cap d rect it idxs a)) in
  exists added,
    images a' = (images a ++ added)%list
    /\ map index_in_definition added = written_slots cap it idxs
    /\ map id_image added
       = map (fun k => max_id_image a + 1 + Z.of_nat k)
           (seq 0 (List.length added))
    /\ Forall (fun im => img_id_definition im = id_definition d) added
    /\ max_id_image a' = max_id_image a + Z.of_nat (List.length added).
Proof.
  induction idxs as [|idx idxs IH]; intros it a; simpl.
  - exists []. simpl. rewrite app_nil_r. repeat split; [constructor | lia].
  - unfold crop_body.
    destruct (frame_event_at cap idx) eqn:Ev;
      try (exists []; simpl; rewrite app_nil_r;
           repeat split; [constructor | lia]).
    + specialize (IH (it + 1) a).
      destruct (crop_loop cap d rect (it + 1) idxs a) as [[c a''] rs].
      exact IH.
    + specialize (IH (it + 1) a).
      destruct (crop_loop cap d rect (it + 1) idxs a) as [[c a''] rs].
      exact IH.
    + match goal with
      | |- context [crop_loop cap d rect (it + 1) idxs ?a1] =>
          specialize (IH (it + 1) a1);
          destruct (crop_loop cap d rect (it + 1) idxs a1) as [[c a''] rs]
      end.
      simpl in IH |- *.
      destruct IH as (added & Ei & Hslots & Hids & Hown & Hmax).
      eexists (_ :: added). split; [|split; [|split; [|split]]].
      * rewrite Ei, <- app_assoc. reflexivity.
      * simpl. now rewrite Hslots.
      * simpl. rewrite Hids, seq_shift_ids. f_equal. lia.
      * constructor; [reflexivity | exact Hown].
      * rewrite Hmax. simpl List.length. lia.
Qed.

Lemma range_loop_lower (fuel : nat) (stop step : Z) : forall i x,
  1 <= step -> In x (range_loop fuel i stop step) -> i <= x.
Proof.
  induction fuel as [|fuel IH]; intros i x Hstep; simpl; [intros []|].
  destruct (i <? stop); [|intros []]. intros [<- | H]; [lia|].
  apply IH in H; lia.
Qed.

(** Which slots are written, for a frame range in which no frame meets an
    exception: slot [j] belongs to the frame [i + j * step]. *)
Lemma written_slots_range cap step stop fuel : forall it i k,
  1 <= step ->
  (forall x, In x (range_loop fuel i stop step) ->
             unrecoverable (frame_event_at cap x) = false) ->
  In k (written_slots cap it (range_loop fuel i stop step))
  <-> exists j, 0 <= j /\ k = it + j
                /\ In (i + j * step) (range_loop fuel i stop step)
                /\ frame_event_at cap (i + j * step) = Written.
Proof.
  induction fuel as [|fuel IH]; intros it i k Hstep Hok; simpl.
  - split; [tauto | intros (j & _ & _ & [] & _)].
  - simpl in Hok. destruct (i <? stop) eqn:Elt; simpl;
      [|split; [tauto | intros (j & _ & _ & [] & _)]].
    assert (Hrest : forall x, In x (range_loop fuel (i + step) stop step) ->
                              unrecoverable (frame_event_at cap x) = false)
      by (intros x Hx; apply Hok; now right).
    pose proof (Hok i (or_introl eq_refl)) as Hi.
    assert (Hlow : forall x, In x (range_loop fuel (i + step) stop step) ->
                             i < x).
    { intros x Hx. apply range_loop_lower in Hx; lia. }
    assert (Hstepj : forall j, 0 <= j -> j <> 0 ->
                i + j * step = (i + step) + (j - 1) * step) by (intros; ring).
    specialize (IH (it + 1) (i + step) k Hstep Hrest).
    destruct (frame_event_at cap i) eqn:Ev; try discriminate Hi.
    + rewrite IH. split.
      * intros (j & Hj & -> & Hin & Hw). exists (j + 1).
        replace (i + (j + 1) * step) with (i + step + j * step) by ring.
        split; [lia|]. split; [lia|]. split; [now right | exact Hw].
      * intros (j & Hj & -> & Hin & Hw).
        destruct (Z.eq_dec j 0) as [-> | Hj0].
        -- replace (i + 0 * step) with i in Hw by ring. congruence.
        -- exists (j - 1). rewrite <- (Hstepj j Hj Hj0).
           split; [lia|]. split; [lia|]. split; [|exact Hw].
           destruct Hin as [E | Hin]; [nia | exact Hin].
    + rewrite IH. split.
      * intros (j & Hj & -> & Hin & Hw). exists (j + 1).
        replace (i + (j + 1) * step) with (i + step + j * step) by ring.
        split; [lia|]. split; [lia|]. split; [now right | exact Hw].
      * intros (j & Hj & -> & Hin & Hw).
        destruct (Z.eq_dec j 0) as [-> | Hj0].
        -- replace (i + 0 * step) with i in Hw by ring. congruence.
        -- exists (j - 1). rewrite <- (Hstepj j Hj Hj0).
           split; [lia|]. split; [lia|]. split; [|exact Hw].
           destruct Hin as [E | Hin]; [nia | exact Hin].
    + simpl. rewrite IH. split.
      * intros [<- | (j & Hj & -> & Hin & Hw)].
        -- exists 0. replace (i + 0 * step) with i by ring.
           split; [lia|]. split; [lia|]. split; [now left | exact Ev].
        -- exists (j + 1).
           replace (i + (j + 1) * step) with (i + step + j * step) by ring.
           split; [lia|]. split; [lia|]. split; [now right | exact Hw].
      * intros (j & Hj & -> & Hin & Hw).
        destruct (Z.eq_dec j 0) as [-> | Hj0]; [left; lia | right].
        exists (j - 1). rewrite <- (Hstepj j Hj Hj0).
        split; [lia|]. split; [lia|]. split; [|exact Hw].
        destruct Hin as [E | Hin]; [nia | exact Hin].
Qed.

(** X2: a run of [do_crop] that gets to its loop and meets no exception
    adds its rows at the end of [images], with consecutive identifiers from
    [max_id_image + 1] on, and leaves the counter at the last of them; each
    row belongs to the definition; and the rows carry as
    [index_in_definition] the positions [k] of the frames
    [start + k * step] that were written: a frame that could not be read or
    written uses up its position. *)
Theorem do_crop_adds_written_frames w id a d v rect :
  reaches_loop w id a d v rect ->
  (forall i, In i (sampled d (capture w (name_video v))) ->
             unrecoverable (frame_event_at (capture w (name_video v)) i)
             = false) ->
  exists added,
    images (album_after (do_crop w id a)) = (images a ++ added)%list
    /\ map id_image added
       = map (fun k => max_id_image a + 1 + Z.of_nat k)
           (seq 0 (List.length added))
    /\ max_id_image (album_after (do_crop w id a))
       = max_id_image a + Z.of_nat (List.length added)
    /\ Forall (fun im => img_id_definition im = id) added
    /\ map index_in_definition added
       = written_slots (capture w (name_video v)) 0
           (sampled d (capture w (name_video v)))
    /\ forall k,
         In k (map index_in_definition added)
         <-> 0 <= k
             /\ index_start d + k * step_index d
                < Z.min (index_end d)
                    (CAP_PROP_FRAME_COUNT (capture w (name_video v)))
             /\ frame_event_at (capture w (name_video v))
                  (index_start d + k * step_index d) = Written.
Proof.
  intros Hreach Hok. pose proof Hreach as (Hd & _ & _ & _ & _ & _ & _ & Hs & Hstep).
  rewrite (do_crop_ready _ _ _ _ (reaches_loop_prelude _ _ _ _ _ _ Hreach)).
  cbn [plan_capture plan_definition plan_rect plan_start plan_end plan_step].
  set (cap := capture w (name_video v)) in *.
  pose proof (crop_loop_completed cap d rect (sampled d cap) 0 a) as Hc.
  rewrite (no_unrecoverable _ _ Hok) in Hc.
  pose proof (crop_loop_added cap d rect (sampled d cap) 0 a) as Ha.
  unfold sampled in Hc, Ha.
  destruct (crop_loop _ _ _ _ _ _) as [[c a'] rs]. simpl in Hc, Ha. subst c.
  destruct Ha as (added & Ei & Hslots & Hids & Hown & Hmax).
  exists added. simpl. split; [exact Ei|]. split; [exact Hids|].
  split; [exact Hmax|]. split.
  { rewrite <- (find_id_definition _ _ _ Hd). exact Hown. }
  split; [exact Hslots|].
  intros k. rewrite Hslots. unfold py_range.
  rewrite (written_slots_range cap (step_index d) _ _ 0 (index_start d) k Hstep Hok).
  fold (py_range (index_start d)
          (Z.min (index_end d) (CAP_PROP_FRAME_COUNT cap)) (step_index d)).
  split.
  - intros (j & Hj & -> & Hin & Hw). rewrite Z.add_0_l.
    apply py_range_spec in Hin; [|exact Hstep].
    split; [lia|]. split; [lia | exact Hw].
  - intros (Hk & Hlt & Hw). exists k. split; [lia|]. split; [lia|].
    split; [|exact Hw]. apply py_range_spec; [exact Hstep|].
    split; [nia|]. exists k. split; [lia | reflexivity].
Qed.

(** The witness of X2: of the frames 1, 4, 7, frame 4 cannot be read; the
    images of frames 1 and 7 carry the positions 0 and 2. *)
Lemma do_crop_adds_written_frames_witness :
  map (fun im => (id_image im, index_in_definition im))
    (images (album_after (do_crop world_frame_4_unreadable 0 album_clamped)))
  = [(0, 0); (1, 2)]
  /\ exists added,
       images (album_after (do_crop world_frame_4_unreadable 0 album_clamped))
       = (images album_clamped ++ added)%list
       /\ map index_in_definition added = [0; 2].
Proof.
  split; [reflexivity|].
  destruct
    (do_crop_adds_written_frames world_frame_4_unreadable 0 album_clamped
       (mkDefinition 0 0 "" false 1 20 3
          (Some (-10)) (Some 50) (Some 900) (Some 550))
       (mkVideo 0 "clip.mp4") (0, 50, 800, 550))
    as (added & Ei & _ & _ & _ & Hslots & _).
  - unfold reaches_loop. repeat split; try reflexivity; simpl; lia.
  - intros i _. simpl. destruct (i =? 4); reflexivity.
  - exists added. split; [exact Ei | exact Hslots].
Defined.


Lemma find_definition_None id ds :
  find (fun d => id_definition d =? id) ds = None
  <-> ~ In id (map id_definition ds).
Proof.
  split.
  - intros H Hin. apply in_map_iff in Hin. destruct Hin as (d & E & Hd).
    pose proof (find_none _ _ H d Hd) as Hne. simpl in Hne.
    apply Z.eqb_neq in Hne. congruence.
  - intros H. destruct (find _ ds) as [d|] eqn:E; [|reflexivity].
    exfalso. apply H. apply in_map_iff. exists d.
    split; [now apply find_id_definition in E | now apply find_some in E].
Qed.

Lemma find_video_None id vs :
  find (fun v => id_video v =? id) vs = None <-> ~ In id (map id_video vs).
Proof.
  split.
  - intros H Hin. apply in_map_iff in Hin. destruct Hin as (v & E & Hv).
    pose proof (find_none _ _ H v Hv) as Hne. simpl in Hne.
    apply Z.eqb_neq in Hne. congruence.
  - intros H. destruct (find _ vs) as [v|] eqn:E; [|reflexivity].
    exfalso. apply H. apply in_map_iff. exists v.
    apply find_some in E. destruct E as [Hv E]. apply Z.eqb_eq in E.
    now split.
Qed.

Lemma lookup_failure_FileNotFoundError id :
  lookup_failure id = FileNotFoundError <-> int64 id = true.
Proof.
  unfold lookup_failure. destruct (int64 id); split; congruence.
Qed.

Lemma crop_prelude_absent w id a :
  ~ In id (map id_definition (definitions a)) ->
  crop_prelude w id a = Fails (lookup_failure id).
Proof.
  intros H. apply find_definition_None in H. unfold crop_prelude.
  now rewrite H.
Qed.

Lemma crop_prelude_FileNotFoundError w id a :
  crop_prelude w id a = Fails FileNotFoundError ->
  int64 id = true /\ ~ In id (map id_definition (definitions a)).
Proof.
  rewrite <- find_definition_None. unfold crop_prelude.
  destruct (find _ (definitions a)) as [d|].
  - destruct (done d); [discriminate|].
    destruct (filter _ (videos a)) as [|v [|v' vs]]; try discriminate.
    destruct (negb _); [discriminate|].
    destruct (effective_rect _ _ d) as [rect|]; [|discriminate].
    destruct (rect_empty rect); [discriminate|].
    destruct (_ || _); discriminate.
  - intros H. split; [|reflexivity].
    apply lookup_failure_FileNotFoundError. congruence.
Qed.

(** X1: in an album whose identifiers are not above their counters, a call
    of [do_crop] whose image identifiers fit their column either returns
    [True], or raises having read no frame and with the album exactly as it
    was: every [raise] of [do_crop] comes before its loop, and what the loop
    raises is caught. For an identifier that no definition
    has, it raises before anything else: [OverflowError] when the
    identifier does not fit 64 bits, [FileNotFoundError] when it does; and
    it raises [FileNotFoundError] in no other case. *)
Theorem do_crop_returns_or_changes_nothing :
  (forall w id a,
      ids_below a ->
      image_ids_fit w id a ->
      outcome (do_crop w id a) = Returned true
      \/ exists e, do_crop w id a = mkRun (Raised e) a [])
  /\ (forall w id a,
         ~ In id (map id_definition (definitions a)) ->
         do_crop w id a = mkRun (Raised (lookup_failure id)) a [])
  /\ (forall w id a,
         outcome (do_crop w id a) = Raised FileNotFoundError
         <-> int64 id = true
             /\ ~ In id (map id_definition (definitions a))).
Proof.
  split; [|split].
  - intros w id a _ _. destruct (crop_prelude w id a) as [|e|p] eqn:E.
    + left. unfold do_crop. now rewrite E.
    + right. exists e. now apply do_crop_fails.
    + left. rewrite (do_crop_ready _ _ _ _ E).
      destruct (crop_loop _ _ _ _ _ _) as [[c a'] rs]. now destruct c.
  - intros w id a H. now apply do_crop_fails, crop_prelude_absent.
  - intros w id a. rewrite do_crop_raises. split.
    + apply crop_prelude_FileNotFoundError.
    + intros [Hid H]. rewrite (crop_prelude_absent w id a H).
      apply lookup_failure_FileNotFoundError in Hid. now rewrite Hid.
Qed.

(** The witness of X1: a run that returns, and the identifiers 7 and
    [2 ^ 63], which no definition of [album_clamped] has. *)
Lemma do_crop_returns_or_changes_nothing_witness :
  outcome (do_crop world_fine 0 album_clamped) = Returned true
  /\ do_crop world_fine 7 album_clamped
     = mkRun (Raised FileNotFoundError) album_clamped []
  /\ do_crop world_fine (2 ^ 63) album_clamped
     = mkRun (Raised OverflowError) album_clamped [].
Proof.
  split; [|split].
  - destruct (proj1 do_crop_returns_or_changes_nothing world_fine 0
                album_clamped) as [H | (e & H)].
    + repeat split; simpl; repeat constructor; discriminate.
    + split; [simpl; lia | vm_compute; reflexivity].
    + exact H.
    + rewrite H. vm_compute in H. discriminate H.
  - apply (proj1 (proj2 do_crop_returns_or_changes_nothing)).
    simpl. intros [H | []]. discriminate H.
  - apply (proj1 (proj2 do_crop_returns_or_changes_nothing)
             world_fine (2 ^ 63) album_clamped).
    simpl. intros [H | []]. discriminate H.
Defined.

(** ** Rows that are not there *)

(** X3: a source path that does not exist makes [add_video] raise
    [FileNotFoundError]; an identifier that fits 64 bits and is in no row
    makes [remove_video], [add_crop_definition], [remove_crop_definition]
    and [do_crop] raise it. The album is left as it was. *)
Theorem missing_rows_raise_FileNotFoundError :
  (forall w p m a,
      source_exists (source_at w p) (dir_video a) = false ->
      add_video w p m a = (Raised FileNotFoundError, a))
  /\ (forall id a,
         int64 id = true ->
         ~ In id (map id_video (videos a)) ->
         remove_video id a = (Raised FileNotFoundError, a))
  /\ (forall vid slice rect desc a,
         int64 vid = true ->
         ~ In vid (map id_video (videos a)) ->
         add_crop_definition vid slice rect desc a
         = (Raised FileNotFoundError, a))
  /\ (forall id a,
         int64 id = true ->
         ~ In id (map id_definition (definitions a)) ->
         remove_crop_definition id a = (Raised FileNotFoundError, a))
  /\ (forall w id a,
         int64 id = true ->
         ~ In id (map id_definition (definitions a)) ->
         do_crop w id a = mkRun (Raised FileNotFoundError) a []).
Proof.
  split; [|split; [|split; [|split]]].
  - intros w p m a H. unfold add_video. now rewrite H.
  - intros id a Hid H. apply find_video_None in H. unfold remove_video.
    apply lookup_failure_FileNotFoundError in Hid. now rewrite H, Hid.
  - intros vid slice rect desc a Hid H. unfold add_crop_definition.
    apply lookup_failure_FileNotFoundError in Hid.
    destruct (filter _ (videos a)) as [|v vs] eqn:E; [now rewrite Hid|].
    exfalso. apply H.
    assert (Hv : In v (filter (fun v => id_video v =? vid) (videos a)))
      by (rewrite E; now left).
    apply filter_In in Hv. destruct Hv as [Hv Hv']. apply Z.eqb_eq in Hv'.
    apply in_map_iff. now exists v.
  - intros id a Hid H. apply find_definition_None in H.
    apply lookup_failure_FileNotFoundError in Hid.
    unfold remove_crop_definition. now rewrite H, Hid.
  - intros w id a Hid H. apply do_crop_fails.
    apply lookup_failure_FileNotFoundError in Hid. rewrite <- Hid.
    now apply crop_prelude_absent.
Qed.

(** The witness of X3: in [world_empty] no path exists, and the albums have
    no video 7 and no definition 7. *)
Lemma missing_rows_raise_FileNotFoundError_witness :
  add_video world_empty "/home/user/clip.mp4" false new_album
  = (Raised FileNotFoundError, new_album)
  /\ remove_video 7 album_clip = (Raised FileNotFoundError, album_clip)
  /\ do_crop world_fine 7 album_clamped
     = mkRun (Raised FileNotFoundError) album_clamped [].
Proof.
  split; [|split].
  - apply (proj1 missing_rows_raise_FileNotFoundError). reflexivity.
  - apply (proj1 (proj2 missing_rows_raise_FileNotFoundError));
      [reflexivity|].
    simpl. intros [H | []]. discriminate H.
  - apply (proj2 (proj2 (proj2 (proj2 missing_rows_raise_FileNotFoundError))));
      [reflexivity|].
    simpl. intros [H | []]. discriminate H.
Defined.
(** ** Removing *)

Section Filters.

Context {A : Type} (p q : A -> bool).

Lemma filter_filter_keep (l : list A) :
  (forall x, In x l -> p x = true -> q x = true) ->
  filter p (filter q l) = filter p l.
Proof.
  induction l as [|x l IH]; intros H; simpl; [reflexivity|].
  assert (IH' : filter p (filter q l) = filter p l)
    by (apply IH; intros y Hy; apply H; now right).
  destruct (q x) eqn:Eq; simpl.
  - now rewrite IH'.
  - destruct (p x) eqn:Ep; [|exact IH'].
    rewrite (H x (or_introl eq_refl) Ep) in Eq. discriminate.
Qed.

Lemma filter_filter_none (l : list A) :
  (forall x, In x l -> p x = true -> q x = false) ->
  filter p (filter q l) = [].
Proof.
  induction l as [|x l IH]; intros H; simpl; [reflexivity|].
  assert (IH' : filter p (filter q l) = [])
    by (apply IH; intros y Hy; apply H; now right).
  destruct (q x) eqn:Eq; simpl; [|exact IH'].
  destruct (p x) eqn:Ep; [|exact IH'].
  rewrite (H x (or_introl eq_refl) Ep) in Eq. discriminate.
Qed.

Lemma filter_filter_and (l : list A) :
  filter p (filter q l) = filter (fun x => q x && p x) l.
Proof.
  induction l as [|x l IH]; simpl; [reflexivity|].
  destruct (q x); simpl; [|exact IH]. destruct (p x); now rewrite IH.
Qed.

End Filters.

Section Keys.

(** Rows of a table and a column of them in which no value occurs twice. *)
Context {A B : Type} (key : A -> B).

Lemma NoDup_key_eq (rows : list A) (x y : A) :
  NoDup (map key rows) -> In x rows -> In y rows -> key x = key y -> x = y.
Proof.
  induction rows as [|row rows IH]; simpl; intros Hn Hx Hy E; [tauto|].
  inversion Hn as [|? ? Hrow Hrows]; subst.
  destruct Hx as [<- | Hx]; destruct Hy as [<- | Hy].
  - reflexivity.
  - exfalso. apply Hrow. rewrite E. now apply in_map.
  - exfalso. apply Hrow. rewrite <- E. now apply in_map.
  - now apply IH.
Qed.

End Keys.

Lemma In_remove_file x name dir :
  In x (remove_file name dir) <-> In x dir /\ x <> name.
Proof.
  unfold remove_file. rewrite filter_In. split.
  - intros [H E]. split; [exact H|]. intros ->.
    rewrite String.eqb_refl in E. discriminate.
  - intros [H E]. split; [exact H|].
    apply negb_true_iff. now apply String.eqb_neq.
Qed.

Lemma In_remove_image_files x ims : forall dir,
  In x (remove_image_files ims dir)
  <-> In x dir /\ ~ In x (map name_image ims).
Proof.
  unfold remove_image_files.
  induction ims as [|im ims IH]; intros dir; simpl; [tauto|].
  rewrite IH, In_remove_file. split.
  - intros [[H E] Hn]. split; [exact H|]. intros [E' | H']; [congruence | tauto].
  - intros [H Hn]. split; [split; [exact H|] |]; intros E; apply Hn;
      [left; congruence | now right].
Qed.

Lemma In_write_file x name dir :
  In x (write_file name dir) <-> In x dir \/ x = name.
Proof.
  unfold write_file. destruct (name_taken dir name) eqn:E.
  - apply name_taken_In in E. split; [tauto|]. intros [H | ->]; assumption.
  - rewrite in_app_iff. simpl. split; [intros [H | [<- | []]]; tauto|].
    intros [H | ->]; [now left | right; now left].
Qed.

Lemma images_owned_done id a d im :
  well_formed a ->
  find (fun d => id_definition d =? id) (definitions a) = Some d ->
  In im (images a) -> img_id_definition im = id -> done d = true.
Proof.
  intros ((_ & Hk & _) & _ & _ & Hrefs) Hd Him Hown.
  destruct (Hrefs im Him) as (d' & Hd' & Eid & Hdone).
  pose proof (find_id_definition _ _ _ Hd) as Hid.
  apply find_some in Hd. destruct Hd as [Hd _].
  assert (E : d' = d)
    by (apply (NoDup_key_eq id_definition (definitions a)); congruence).
  now subst.
Qed.

(** In a well-formed album the images of a definition that is not done are
    none, so that its removal violates no constraint. *)
Lemma remove_crop_definition_allowed id a d :
  well_formed a ->
  find (fun d => id_definition d =? id) (definitions a) = Some d ->
  negb (done d)
  && negb (match filter (fun im => img_id_definition im =? id) (images a)
           with [] => true | _ :: _ => false end) = false.
Proof.
  intros Hwf Hd. destruct (done d) eqn:Hdone; [reflexivity|].
  destruct (filter _ (images a)) as [|im ims] eqn:E; [reflexivity|].
  assert (Him : In im (filter (fun im => img_id_definition im =? id)
                         (images a))) by (rewrite E; now left).
  apply filter_In in Him. destruct Him as [Him Hown].
  apply Z.eqb_eq in Hown.
  rewrite (images_owned_done id a d im Hwf Hd Him Hown) in Hdone.
  discriminate.
Qed.


(** ** Well-formed albums *)

Lemma NoDup_snoc_above (c : Z) (l : list Z) :
  NoDup l -> Forall (fun x => x <= c) l -> NoDup (l ++ [c + 1]).
Proof.
  intros Hn Hb. apply NoDup_snoc; [exact Hn|]. intros Hin.
  rewrite Forall_forall in Hb. specialize (Hb _ Hin). lia.
Qed.

Lemma NoDup_app_consecutive (c : Z) (l : list Z) (n : nat) :
  NoDup l -> Forall (fun x => x <= c) l ->
  NoDup (l ++ map (fun k => c + 1 + Z.of_nat k) (seq 0 n)).
Proof.
  intros Hn Hb.
  assert (H : NoDup (l ++ map (fun k => c + 1 + Z.of_nat k) (seq 0 n))
              /\ Forall (fun x => x <= c + Z.of_nat n)
                   (l ++ map (fun k => c + 1 + Z.of_nat k) (seq 0 n))).
  { induction n as [|n [IH1 IH2]].
    - simpl. rewrite app_nil_r. split; [exact Hn|].
      apply (Forall_le_weaken c); [lia | exact Hb].
    - replace (c + Z.of_nat (S n)) with (c + Z.of_nat n + 1) by lia.
      rewrite seq_S, map_app, app_assoc. cbn [map Nat.add].
      replace (c + 1 + Z.of_nat n) with (c + Z.of_nat n + 1) by lia.
      split; [now apply NoDup_snoc_above | now apply Forall_le_snoc]. }
  exact (proj1 H).
Qed.

Lemma In_mark_done id ds d' :
  In d' (mark_done id ds) ->
  exists d, In d ds /\ id_definition d' = id_definition d
            /\ def_id_video d' = def_id_video d
            /\ (done d = true -> done d' = true).
Proof.
  unfold mark_done. rewrite in_map_iff. intros (d & E & Hd). exists d.
  split; [exact Hd|]. destruct (id_definition d =? id); subst d'; simpl; tauto.
Qed.

Lemma mark_done_In id ds d :
  In d ds ->
  exists d', In d' (mark_done id ds) /\ id_definition d' = id_definition d
             /\ (done d = true \/ id_definition d = id -> done d' = true).
Proof.
  intros Hd. eexists. split; [unfold mark_done; apply in_map, Hd|].
  simpl. destruct (id_definition d =? id) eqn:E; simpl.
  - tauto.
  - apply Z.eqb_neq in E. split; [reflexivity|]. tauto.
Qed.

Lemma add_video_well_formed w p m a :
  well_formed a -> well_formed (snd (add_video w p m a)).
Proof.
  intros Hwf. destruct (add_video_keeps_order w p m a) as (_ & Hb' & _).
  unfold add_video in *.
  destruct (negb (source_exists _ _)); [exact Hwf|].
  destruct (transfer _ _ _ _) as [dir|e]; [|exact Hwf].
  destruct Hwf as ((Kv & Kd & Ki) & Hb & Rd & Ri).
  destruct (int64 (max_id_video a + 1)); simpl in *.
  - split; [|split; [now apply Hb'|]].
    + split; [|now split]. simpl. rewrite map_app. simpl.
      apply NoDup_snoc_above; [exact Kv | apply Hb].
    + split; [|exact Ri]. simpl. intros d Hd. rewrite map_app, in_app_iff.
      left. now apply Rd.
  - split; [now split|]. split; [now apply Hb' | now split].
Qed.

Lemma def_id_video_row id vid slice rect desc :
  def_id_video (definition_row id vid slice rect desc) = vid.
Proof.
  destruct slice as [[s0 s1] s2].
  destruct rect as [[[[r0 r1] r2] r3]|]; reflexivity.
Qed.


Lemma add_crop_definition_well_formed vid slice rect desc a :
  well_formed a -> well_formed (snd (add_crop_definition vid slice rect desc a)).
Proof.
  intros Hwf.
  destruct (add_crop_definition_keeps_order vid slice rect desc a)
    as (_ & Hb' & _).
  unfold add_crop_definition in *.
  destruct (filter (fun v => id_video v =? vid) (videos a)) as [|v vs] eqn:E;
    [exact Hwf|].
  destruct Hwf as ((Kv & Kd & Ki) & Hb & Rd & Ri).
  destruct (row_fits _); simpl in *.
  - split; [|split; [now apply Hb'|]].
    + split; [exact Kv|]. split; [|exact Ki]. simpl. rewrite map_app. simpl.
      rewrite id_definition_row. apply NoDup_snoc_above; [exact Kd | apply Hb].
    + split; simpl.
      * intros d Hd. apply in_app_iff in Hd. destruct Hd as [Hd | [<- | []]];
          [now apply Rd|].
        assert (Hv : In v (filter (fun v => id_video v =? vid) (videos a)))
          by (rewrite E; now left).
        apply filter_In in Hv. destruct Hv as [Hv Hid].
        apply Z.eqb_eq in Hid. rewrite def_id_video_row.
        apply in_map_iff. now exists v.
      * intros im Him. destruct (Ri im Him) as (d & Hd & Hid & Hdone).
        exists d. split; [apply in_app_iff; now left | now split].
  - split; [now split|]. split; [now apply Hb' | now split].
Qed.

Lemma remove_crop_definition_well_formed id a :
  well_formed a -> well_formed (snd (remove_crop_definition id a)).
Proof.
  intros Hwf.
  destruct (remove_crop_definition_keeps_order id a) as (_ & Hb' & _).
  pose proof (images_owned_done id a) as Howned.
  unfold remove_crop_definition in *.
  destruct (find (fun d => id_definition d =? id) (definitions a))
    as [d|] eqn:Hd; [|exact Hwf].
  destruct (negb (done d) && _); [exact Hwf|].
  specialize (Howned d).
  pose proof (find_id_definition _ _ _ Hd) as E.
  pose proof Hwf as ((Kv & Kd & Ki) & Hb & Rd & Ri). simpl in Hb' |- *.
  split; [|split; [now apply Hb'|]].
  - split; [exact Kv|]. simpl. split; [now apply NoDup_map_filter|].
    destruct (done d); [now apply NoDup_map_filter | exact Ki].
  - rewrite E. split; simpl.
    + intros d' Hd'. apply filter_In in Hd'. now apply Rd.
    + intros im Him.
      assert (Him' : In im (images a) /\ (done d = true ->
                                          img_id_definition im <> id)).
      { destruct (done d); [|now split].
        apply filter_In in Him. destruct Him as [Him Hne].
        apply negb_true_iff, Z.eqb_neq in Hne. now split. }
      destruct Him' as [Him0 Hne].
      destruct (Ri im Him0) as (d' & Hd' & Hid & Hdone).
      exists d'. split; [|now split]. apply filter_In. split; [exact Hd'|].
      apply negb_true_iff, Z.eqb_neq. intros Heq.
      assert (Hown : img_id_definition im = id) by congruence.
      apply (Hne (Howned im Hwf eq_refl Him0 Hown)). exact Hown.
Qed.

Lemma remove_crop_definitions_well_formed ids : forall a,
  well_formed a -> well_formed (snd (remove_crop_definitions ids a)).
Proof.
  induction ids as [|id ids IH]; intros a Hwf; simpl; [exact Hwf|].
  pose proof (remove_crop_definition_well_formed id a Hwf) as H.
  destruct (remove_crop_definition id a) as [[b|e] a']; simpl in *.
  - now apply IH.
  - exact H.
Qed.

Lemma do_crop_well_formed w id a :
  well_formed a -> well_formed (album_after (do_crop w id a)).
Proof.
  intros Hwf. pose proof Hwf as ((Kv & Kd & Ki) & Hb & Rd & Ri).
  destruct (do_crop_keeps_order w id a) as (_ & Hb' & _).
  split; [|split; [now apply Hb'|]].
  - unfold do_crop. destruct (crop_prelude w id a) as [|e|p];
      [now split | now split |].
    pose proof (crop_loop_frame (plan_capture p) (plan_definition p)
                  (plan_rect p)
                  (py_range (plan_start p) (plan_end p) (plan_step p)) 0 a)
      as Hf.
    pose proof (crop_loop_added (plan_capture p) (plan_definition p)
                  (plan_rect p)
                  (py_range (plan_start p) (plan_end p) (plan_step p)) 0 a)
      as Ha.
    destruct (crop_loop _ _ _ _ _ _) as [[c a'] rs]. simpl in Hf, Ha.
    destruct Hf as (Ev & Ed & _).
    destruct Ha as (added & Ei & _ & Hids & _).
    destruct c; [|now split]. unfold keys_unique. simpl.
    rewrite Ev, Ed, map_id_mark_done. split; [exact Kv|]. split; [exact Kd|].
    rewrite Ei, map_app, Hids.
    apply NoDup_app_consecutive; [exact Ki | apply Hb].
  - unfold do_crop. destruct (crop_prelude w id a) as [|e|p] eqn:Hp;
      [now split | now split |].
    pose proof (crop_prelude_ready_find _ _ _ _ Hp) as Hd.
    pose proof (crop_loop_frame (plan_capture p) (plan_definition p)
                  (plan_rect p)
                  (py_range (plan_start p) (plan_end p) (plan_step p)) 0 a)
      as Hf.
    pose proof (crop_loop_added (plan_capture p) (plan_definition p)
                  (plan_rect p)
                  (py_range (plan_start p) (plan_end p) (plan_step p)) 0 a)
      as Ha.
    destruct (crop_loop _ _ _ _ _ _) as [[c a'] rs]. simpl in Hf, Ha.
    destruct Hf as (Ev & Ed & _).
    destruct Ha as (added & Ei & _ & _ & Hown & _).
    destruct c; [|now split]. unfold references_hold. simpl.
    rewrite Ev, Ed. split.
    + intros d' Hd'. apply In_mark_done in Hd'.
      destruct Hd' as (d & Hd0 & _ & -> & _). now apply Rd.
    + intros im Him. rewrite Ei in Him. apply in_app_iff in Him.
      destruct Him as [Him | Him].
      * destruct (Ri im Him) as (d & Hd0 & Hid & Hdone).
        destruct (mark_done_In (id_definition (plan_definition p)) _ d Hd0)
          as (d' & Hd' & Hid' & Hdone').
        exists d'. split; [exact Hd'|]. split; [congruence|].
        apply Hdone'. now left.
      * rewrite Forall_forall in Hown. specialize (Hown im Him).
        apply find_some in Hd. destruct Hd as [Hd0 _].
        destruct (mark_done_In (id_definition (plan_definition p)) _
                    (plan_definition p) Hd0) as (d' & Hd' & Hid' & Hdone').
        exists d'. split; [exact Hd'|]. split; [congruence|].
        apply Hdone'. now right.
Qed.

Lemma do_crop_each_well_formed w ids : forall a,
  well_formed a -> well_formed (snd (fst (do_crop_each w ids a))).
Proof.
  induction ids as [|id ids IH]; intros a Hwf; simpl; [exact Hwf|].
  pose proof (do_crop_well_formed w id a Hwf) as H.
  destruct (outcome (do_crop w id a)); simpl; [|exact H].
  specialize (IH (album_after (do_crop w id a)) H).
  destruct (do_crop_each w ids (album_after (do_crop w id a)))
    as [[res a'] calls]. exact IH.
Qed.

Lemma new_album_well_formed : well_formed new_album.
Proof.
  split; [|split].
  - repeat split; constructor.
  - repeat split; constructor.
  - split; intros x [].
Qed.


Lemma album_cropped_well_formed : well_formed album_cropped.
Proof.
  unfold album_cropped, album_clamped, album_clip.
  apply do_crop_well_formed, add_crop_definition_well_formed,
    add_video_well_formed, new_album_well_formed.
Qed.

(** X4: in a well-formed album, [remove_crop_definition] on a definition
    that is there returns [True]; afterwards the definition cannot be
    looked up and has no image, the files of its images are gone from the
    image directory, and the other definitions and their images are as
    before, as are the videos and the three counters. *)
Theorem remove_crop_definition_removes id a :
  well_formed a ->
  In id (map id_definition (definitions a)) ->
  let a' := snd (remove_crop_definition id a) in
  fst (remove_crop_definition id a) = Returned true
  /\ get_crop_definition id a' = []
  /\ (forall id', id' <> id ->
        get_crop_definition id' a' = get_crop_definition id' a
        /\ get_definition_images id' a' = get_definition_images id' a)
  /\ get_definition_images id a' = []
  /\ (forall im, In im (get_definition_images id a) ->
                 ~ In (name_image im) (dir_image a'))
  /\ videos a' = videos a
  /\ max_id_video a' = max_id_video a
  /\ max_id_definition a' = max_id_definition a
  /\ max_id_image a' = max_id_image a.
Proof.
  intros Hwf Hin. cbv zeta. unfold remove_crop_definition.
  destruct (find _ (definitions a)) as [d|] eqn:Hd;
    [|apply find_definition_None in Hd; tauto].
  rewrite (remove_crop_definition_allowed id a d Hwf Hd).
  pose proof (find_id_definition _ _ _ Hd) as Hid. rewrite Hid. simpl.
  unfold get_crop_definition, get_definition_images. simpl.
  split; [reflexivity|]. split; [|split; [|split; [|split]]].
  - apply filter_filter_none. intros x _ E. now rewrite E.
  - intros id' Hne. split.
    + apply filter_filter_keep. intros x _ E. apply Z.eqb_eq in E.
      apply negb_true_iff, Z.eqb_neq. congruence.
    + destruct (done d); [|reflexivity].
      apply filter_filter_keep. intros x _ E. apply Z.eqb_eq in E.
      apply negb_true_iff, Z.eqb_neq. congruence.
  - destruct (done d) eqn:Hdone.
    + apply filter_filter_none. intros x _ E. now rewrite E.
    + pose proof (remove_crop_definition_allowed id a d Hwf Hd) as H.
      rewrite Hdone in H. simpl in H.
      destruct (filter _ (images a)); [reflexivity | discriminate].
  - destruct (done d) eqn:Hdone.
    + intros im Him Hfile. apply In_remove_image_files in Hfile.
      destruct Hfile as [_ Hfile]. apply Hfile. now apply in_map.
    + pose proof (remove_crop_definition_allowed id a d Hwf Hd) as H.
      rewrite Hdone in H. simpl in H.
      destruct (filter _ (images a)); [intros im [] | discriminate].
  - repeat split.
Qed.

(** The witness of X4: the definition of [album_cropped], with its three
    images and their files, is removed. *)
Lemma remove_crop_definition_removes_witness :
  List.length (images album_cropped) = 3%nat
  /\ fst (remove_crop_definition 0 album_cropped) = Returned true
  /\ get_crop_definition 0 (snd (remove_crop_definition 0 album_cropped)) = []
  /\ images (snd (remove_crop_definition 0 album_cropped)) = []
  /\ dir_image (snd (remove_crop_definition 0 album_cropped)) = [].
Proof.
  split; [reflexivity|].
  destruct (remove_crop_definition_removes 0 album_cropped) as (H1 & H2 & _).
  - apply album_cropped_well_formed.
  - simpl. now left.
  - split; [exact H1|]. split; [exact H2|]. split; reflexivity.
Defined.

(** The definitions that a pass over [ids] leaves. *)
Lemma remove_crop_definitions_returns ids : forall a,
  well_formed a ->
  NoDup ids ->
  (forall id, In id ids -> In id (map id_definition (definitions a))) ->
  let a' := snd (remove_crop_definitions ids a) in
  fst (remove_crop_definitions ids a) = Returned true
  /\ definitions a'
     = filter (fun d => negb (existsb (Z.eqb (id_definition d)) ids))
         (definitions a)
  /\ videos a' = videos a /\ dir_video a' = dir_video a
  /\ max_id_video a' = max_id_video a
  /\ max_id_definition a' = max_id_definition a
  /\ max_id_image a' = max_id_image a.
Proof.
  induction ids as [|id ids IH]; intros a Hwf Hn Hin; cbv zeta.
  - simpl. split; [reflexivity|]. split; [|repeat split].
    induction (definitions a) as [|d ds IHd]; simpl; [reflexivity|].
    now rewrite <- IHd.
  - inversion Hn as [|? ? Hid Hids]; subst.
    cbn [remove_crop_definitions].
    destruct (find (fun d => id_definition d =? id) (definitions a))
      as [d|] eqn:Hd;
      [|apply find_definition_None in Hd; exfalso; apply Hd, Hin; now left].
    pose proof (find_id_definition _ _ _ Hd) as E.
    pose proof (remove_crop_definition_allowed id a d Hwf Hd) as Hok.
    pose proof (remove_crop_definition_well_formed id a Hwf) as Hwf1.
    assert (Erm : remove_crop_definition id a
                  = (Returned true, snd (remove_crop_definition id a)))
      by (unfold remove_crop_definition; now rewrite Hd, Hok).
    assert (Hframe :
              definitions (snd (remove_crop_definition id a))
              = filter (fun d => negb (id_definition d =? id)) (definitions a)
              /\ videos (snd (remove_crop_definition id a)) = videos a
              /\ dir_video (snd (remove_crop_definition id a)) = dir_video a
              /\ max_id_video (snd (remove_crop_definition id a))
                 = max_id_video a
              /\ max_id_definition (snd (remove_crop_definition id a))
                 = max_id_definition a
              /\ max_id_image (snd (remove_crop_definition id a))
                 = max_id_image a)
      by (unfold remove_crop_definition; rewrite Hd, Hok, E; simpl; tauto).
    destruct Hframe as (F1 & F2 & F3 & F4 & F5 & F6).
    rewrite Erm.
    specialize (IH (snd (remove_crop_definition id a)) Hwf1 Hids).
    cbv zeta in IH.
    destruct IH as (H1 & H2 & H3 & H4 & H5 & H6 & H7).
    + intros id' Hid'. pose proof (Hin id' (or_intror Hid')) as H.
      apply in_map_iff in H. destruct H as (d' & Ed' & Hd').
      apply in_map_iff. exists d'. split; [exact Ed'|].
      rewrite F1. apply filter_In. split; [exact Hd'|].
      apply negb_true_iff, Z.eqb_neq. congruence.
    + split; [exact H1|]. split; [|repeat split; congruence].
      rewrite H2, F1, filter_filter_and. apply filter_ext. intros x. simpl.
      rewrite (Z.eqb_sym (id_definition x) id).
      now destruct (id =? id_definition x).
Qed.

Lemma flat_map_nil {A B : Type} (f : A -> list B) (l : list A) :
  (forall x, In x l -> f x = []) -> flat_map f l = [].
Proof.
  induction l as [|x l IH]; intros H; simpl; [reflexivity|].
  rewrite (H x (or_introl eq_refl)). apply IH. intros y Hy. apply H.
  now right.
Qed.

Lemma existsb_id_In (x : Z) (ids : list Z) :
  existsb (Z.eqb x) ids = true <-> In x ids.
Proof.
  rewrite existsb_exists. split.
  - intros (y & Hy & E). apply Z.eqb_eq in E. now subst.
  - intros H. exists x. split; [exact H | apply Z.eqb_refl].
Qed.

(** What [remove_video] has done to the definitions of a well-formed album
    by the time it comes to the file. *)
Lemma remove_video_cascade id a :
  well_formed a ->
  let ids := map id_definition
               (filter (fun d => def_id_video d =? id) (definitions a)) in
  let a' := snd (remove_crop_definitions ids a) in
  fst (remove_crop_definitions ids a) = Returned true
  /\ get_crop_definitions id a' = []
  /\ (forall vid, vid <> id ->
        get_crop_definitions vid a' = get_crop_definitions vid a)
  /\ videos a' = videos a /\ dir_video a' = dir_video a
  /\ max_id_video a' = max_id_video a
  /\ max_id_definition a' = max_id_definition a
  /\ max_id_image a' = max_id_image a.
Proof.
  intros Hwf. pose proof Hwf as ((_ & Hn & _) & _). cbv zeta.
  destruct (remove_crop_definitions_returns
              (map id_definition
                 (filter (fun d => def_id_video d =? id) (definitions a))) a)
    as (H1 & H2 & H3 & H4 & H5 & H6 & H7).
  - exact Hwf.
  - now apply NoDup_map_filter.
  - intros x Hx. now apply In_map_filter in Hx.
  - split; [exact H1|]. unfold get_crop_definitions. rewrite H2.
    split; [|split; [|now repeat split]].
    + apply filter_filter_none. intros d Hd E.
      apply negb_false_iff, existsb_id_In, in_map, filter_In. now split.
    + intros vid Hne. apply filter_filter_keep. intros d Hd E.
      apply Z.eqb_eq in E.
      apply negb_true_iff. apply not_true_is_false. intros Hex.
      apply existsb_id_In, in_map_iff in Hex.
      destruct Hex as (d0 & E0 & Hd0). apply filter_In in Hd0.
      destruct Hd0 as [Hd0 Ev]. apply Z.eqb_eq in Ev.
      assert (d0 = d)
        by (apply (NoDup_key_eq id_definition (definitions a)); assumption).
      subst. congruence.
Qed.

(** The join of [get_video_images] is empty for a video without
    definitions. *)
Lemma video_images_join_nil id a :
  get_crop_definitions id a = [] -> video_images_join id a = [].
Proof.
  intros H2. apply flat_map_nil. intros im _.
  assert (E : filter (fun d => (id_definition d =? img_id_definition im)
                               && (def_id_video d =? id)) (definitions a)
              = []).
  { destruct (filter _ (definitions a)) as [|d ds] eqn:E; [reflexivity|].
    assert (Hd : In d (filter
                         (fun d => (id_definition d =? img_id_definition im)
                                   && (def_id_video d =? id))
                         (definitions a))) by (rewrite E; now left).
    apply filter_In in Hd. destruct Hd as [Hd Hb].
    apply andb_true_iff in Hb. destruct Hb as [_ Hb].
    assert (Hd' : In d (get_crop_definitions id a))
      by (apply filter_In; now split).
    rewrite H2 in Hd'. destruct Hd'. }
  now rewrite E.
Qed.

Lemma get_video_images_none id a rows :
  get_crop_definitions id a = [] -> get_video_images id a rows -> rows = [].
Proof.
  intros H Hrows. unfold get_video_images in Hrows.
  rewrite (video_images_join_nil id a H) in Hrows.
  now apply Permutation_nil.
Qed.

(** X5: in a well-formed album, [remove_video] on a video that is there and
    whose file is there returns [True]. Afterwards no query finds a trace of
    the video: it is not among the videos, it has no definitions and no
    images, and its file is gone from the video directory. The definitions
    of the other videos and the three counters are as before. *)
Theorem remove_video_leaves_no_trace id a v :
  well_formed a ->
  find (fun v => id_video v =? id) (videos a) = Some v ->
  In (name_video v) (dir_video a) ->
  let a' := snd (remove_video id a) in
  fst (remove_video id a) = Returned true
  /\ ~ In id (map id_video (get_all_video a'))
  /\ get_crop_definitions id a' = []
  /\ (forall rows, get_video_images id a' rows -> rows = [])
  /\ ~ In (name_video v) (dir_video a')
  /\ (forall vid, vid <> id ->
        get_crop_definitions vid a' = get_crop_definitions vid a)
  /\ max_id_video a' = max_id_video a
  /\ max_id_definition a' = max_id_definition a
  /\ max_id_image a' = max_id_image a.
Proof.
  intros Hwf Hv Hfile. cbv zeta. unfold remove_video. rewrite Hv.
  destruct (remove_video_cascade id a Hwf)
    as (H1 & H2 & H3 & H4 & H5 & H6 & H7 & H8).
  destruct (remove_crop_definitions _ a) as [res a1]. simpl in *. subst res.
  apply name_taken_In in Hfile. rewrite H5, Hfile. simpl.
  split; [reflexivity|]. unfold get_all_video. simpl.
  split; [|split; [exact H2 | split; [|split; [|split; [exact H3|]]]]].
  - intros Hin. apply in_map_iff in Hin. destruct Hin as (x & E & Hx).
    apply filter_In in Hx. destruct Hx as [_ Hx].
    apply negb_true_iff, Z.eqb_neq in Hx. apply Hx. rewrite E.
    apply find_some in Hv. destruct Hv as [_ Hv]. apply Z.eqb_eq in Hv.
    congruence.
  - intros rows. apply get_video_images_none. exact H2.
  - intros Hin. apply In_remove_file in Hin. tauto.
  - now repeat split.
Qed.

(** The witness of X5: the video of [album_cropped], with its definition
    and the three images of it. *)
Lemma remove_video_leaves_no_trace_witness :
  fst (remove_video 0 album_cropped) = Returned true
  /\ get_all_video (snd (remove_video 0 album_cropped)) = []
  /\ get_all_crop_definitions (snd (remove_video 0 album_cropped)) = []
  /\ get_all_images (snd (remove_video 0 album_cropped)) = []
  /\ dir_video (snd (remove_video 0 album_cropped)) = [].
Proof.
  destruct (remove_video_leaves_no_trace 0 album_cropped
              (mkVideo 0 "clip.mp4")) as (H1 & _).
  - apply album_cropped_well_formed.
  - reflexivity.
  - simpl. now left.
  - split; [exact H1|]. repeat split.
Defined.




Lemma remove_video_well_formed id a :
  well_formed a -> well_formed (snd (remove_video id a)).
Proof.
  intros Hwf. unfold remove_video.
  destruct (find (fun v => id_video v =? id) (videos a)) as [v|] eqn:Hv;
    [|exact Hwf].
  pose proof (remove_crop_definitions_well_formed
                (map id_definition
                   (filter (fun d => def_id_video d =? id) (definitions a)))
                a Hwf) as Hwf1.
  destruct (remove_video_cascade id a Hwf) as (H1 & H2 & _).
  destruct (remove_crop_definitions _ a) as [res a1]. simpl in *. subst res.
  destruct (negb _); simpl; [exact Hwf1|].
  destruct Hwf1 as ((Kv1 & Kd1 & Ki1) & (Bv & Bd & Bi) & Rd1 & Ri1).
  pose proof (find_some _ _ Hv) as [_ Eid]. apply Z.eqb_eq in Eid.
  rewrite Eid.
  split; [|split].
  - split; [now apply NoDup_map_filter | now split].
  - unfold ids_below. simpl. split; [|now split].
    apply Forall_forall. intros x Hx. apply In_map_filter in Hx.
    revert x Hx. now apply Forall_forall.
  - split; [|exact Ri1]. simpl. intros d Hd.
    pose proof (Rd1 d Hd) as Hin. apply in_map_iff in Hin.
    destruct Hin as (v' & Ev' & Hv'). apply in_map_iff. exists v'.
    split; [exact Ev'|]. apply filter_In. split; [exact Hv'|].
    apply negb_true_iff, Z.eqb_neq. intros Heq.
    assert (Hd' : In d (get_crop_definitions id a1)).
    { apply filter_In. split; [exact Hd|]. apply Z.eqb_eq. congruence. }
    rewrite H2 in Hd'. destruct Hd'.
Qed.

Lemma perform_well_formed r a : well_formed a -> well_formed (perform r a).
Proof.
  destruct r; simpl.
  - apply add_video_well_formed.
  - apply remove_video_well_formed.
  - apply add_crop_definition_well_formed.
  - apply remove_crop_definition_well_formed.
  - apply do_crop_well_formed.
  - apply do_crop_each_well_formed.
Qed.

Lemma session_keeps_well_formed rs : forall a,
  well_formed a -> well_formed (session rs a).
Proof.
  induction rs as [|r rs IH]; intros a Hwf; simpl; [exact Hwf|].
  now apply IH, perform_well_formed.
Qed.

(** X7: a new album is well formed, and every call of a method of [Album]
    leaves a well-formed album well formed, whether it returns or raises: no
    identifier occurs twice in a table or lies above its counter, the video
    of every definition is there, and the definition of every image is there
    and done. So it is at every moment of a session. *)
Theorem session_well_formed rs a a' :
  well_formed a -> In a' (history rs a) -> well_formed a'.
Proof.
  revert a. induction rs as [|r rs IH]; intros a Hwf; simpl.
  - intros [<- | []]. exact Hwf.
  - intros [<- | H]; [exact Hwf|].
    apply (IH (perform r a)); [now apply perform_well_formed | exact H].
Qed.

(** The witness of X7: a session on a new album that adds, crops with a
    rollback, crops again and removes. *)
Lemma session_well_formed_witness :
  well_formed
    (session [AddVideo world_fine "/home/user/clip.mp4" false;
              AddCropDefinition 0 (1, 20, 3) None "";
              DoCrop world_store_raises 0;
              DoCropAll world_fine;
              AddCropDefinition 0 (0, 4, 1) (Some (5, 5, 2, 2)) "";
              RemoveCropDefinition 0]
       new_album).
Proof.
  apply (session_well_formed
           [AddVideo world_fine "/home/user/clip.mp4" false;
            AddCropDefinition 0 (1, 20, 3) None "";
            DoCrop world_store_raises 0;
            DoCropAll world_fine;
            AddCropDefinition 0 (0, 4, 1) (Some (5, 5, 2, 2)) "";
            RemoveCropDefinition 0]
           new_album).
  - exact new_album_well_formed.
  - do 6 right. left. vm_compute. reflexivity.
Defined.


(** ** Files *)

Lemma crop_loop_files cap d rect idxs : forall it a,
  let a' := snd (fst (crop_loop cap d rect it idxs a)) in
  (forall x, In x (dir_image a) -> In x (dir_image a'))
  /\ ((forall im, In im (images a) -> In (name_image im) (dir_image a)) ->
      forall im, In im (images a') -> In (name_image im) (dir_image a')).
Proof.
  induction idxs as [|idx idxs IH]; intros it a; simpl; [tauto|].
  destruct (crop_body cap d rect it idx a) as [a1|a1] eqn:E.
  - specialize (IH (it + 1) a1).
    destruct (crop_loop cap d rect (it + 1) idxs a1) as [[c a''] rs].
    simpl in *. destruct IH as [IH1 IH2].
    assert (H1 : (forall x, In x (dir_image a) -> In x (dir_image a1))
                 /\ ((forall im, In im (images a) ->
                                 In (name_image im) (dir_image a)) ->
                     forall im, In im (images a1) ->
                                In (name_image im) (dir_image a1))).
    { unfold crop_body in E. destruct (frame_event_at cap idx);
        try discriminate; injection E as <-; simpl; try tauto.
      split.
      - intros x Hx. apply In_write_file. now left.
      - intros H im Him. apply In_write_file. apply in_app_iff in Him.
        destruct Him as [Him | [<- | []]]; [left; now apply H | now right]. }
    destruct H1 as [H1 H2]. split; [intros x Hx; now apply IH1, H1|].
    intros H. apply IH2. now apply H2.
  - apply crop_body_thrown in E. destruct E as [_ ->]. simpl. tauto.
Qed.

Lemma add_video_files w p m a :
  moves_from_outside (AddVideo w p m) = true ->
  files_present a -> files_present (snd (add_video w p m a)).
Proof.
  intros Hm [Hv Hi]. unfold add_video.
  destruct (negb (source_exists _ _)); [now split|].
  set (name := resolve_name (map name_video (videos a)) (basename p)).
  assert (Hw : forall dir,
             transfer (source_at w p) m name (dir_video a) = Returned dir ->
             dir = write_file name (dir_video a)).
  { intros dir. simpl in Hm. unfold transfer.
    destruct (source_at w p) as [| |n|]; destruct m; try discriminate;
      try (intros H; now injection H as <-).
    destruct (String.eqb n name); [discriminate|].
    intros H. now injection H as <-. }
  destruct (transfer _ _ _ _) as [dir|e]; [|now split].
  rewrite (Hw dir eq_refl).
  assert (Hold : forall v, In v (videos a) ->
                           In (name_video v) (write_file name (dir_video a)))
    by (intros v Hin; apply In_write_file; left; now apply Hv).
  destruct (int64 _); split; simpl; try assumption.
  intros v Hin. apply in_app_iff in Hin.
  destruct Hin as [Hin | [<- | []]]; [now apply Hold|].
  apply In_write_file. now right.
Qed.

Lemma add_crop_definition_files vid slice rect desc a :
  files_present a ->
  files_present (snd (add_crop_definition vid slice rect desc a)).
Proof.
  intros H. unfold add_crop_definition.
  destruct (filter _ (videos a)); [exact H|]. now destruct (row_fits _).
Qed.

Lemma remove_crop_definition_files id a :
  names_unique a -> files_present a ->
  files_present (snd (remove_crop_definition id a)).
Proof.
  intros [_ Ni] [Hv Hi]. unfold remove_crop_definition.
  destruct (find _ (definitions a)) as [d|]; [|now split].
  destruct (negb (done d) && _); [now split|].
  split; simpl; [exact Hv|]. destruct (done d); [|exact Hi].
  intros im Him. apply filter_In in Him. destruct Him as [Him Hne].
  apply negb_true_iff, Z.eqb_neq in Hne.
  apply In_remove_image_files. split; [now apply Hi|].
  intros Hin. apply in_map_iff in Hin. destruct Hin as (im' & E & Him').
  apply filter_In in Him'. destruct Him' as [Him' Hown].
  apply Z.eqb_eq in Hown.
  assert (im' = im)
    by (apply (NoDup_key_eq name_image (images a)); assumption).
  subst. contradiction.
Qed.

Lemma remove_crop_definitions_files ids : forall a,
  names_unique a -> files_present a ->
  files_present (snd (remove_crop_definitions ids a)).
Proof.
  induction ids as [|id ids IH]; intros a Hn Hf; simpl; [exact Hf|].
  pose proof (remove_crop_definition_files id a Hn Hf) as H.
  destruct (remove_crop_definition_keeps_order id a) as (_ & _ & Hn').
  destruct (remove_crop_definition id a) as [[b|e] a']; simpl in *.
  - apply IH; [now apply Hn' | exact H].
  - exact H.
Qed.

Lemma remove_video_files id a :
  names_unique a -> files_present a ->
  files_present (snd (remove_video id a)).
Proof.
  intros Hn Hf. unfold remove_video.
  destruct (find (fun v => id_video v =? id) (videos a)) as [v|] eqn:Hv;
    [|exact Hf].
  pose proof (remove_crop_definitions_files
                (map id_definition
                   (filter (fun d => def_id_video d =? id) (definitions a)))
                a Hn Hf) as Hf1.
  destruct (remove_crop_definitions_keeps_order
              (map id_definition
                 (filter (fun d => def_id_video d =? id) (definitions a)))
              a) as (_ & _ & Hn1).
  specialize (Hn1 Hn).
  assert (Hvs : In v (videos a) ->
                In v (videos (snd (remove_crop_definitions
                                     (map id_definition
                                        (filter
                                           (fun d => def_id_video d =? id)
                                           (definitions a))) a)))).
  { clear. generalize (map id_definition
                         (filter (fun d => def_id_video d =? id)
                                 (definitions a))).
    intros ids. revert a. induction ids as [|i ids IH]; intros a H; simpl;
      [exact H|].
    unfold remove_crop_definition at 1.
    destruct (find _ (definitions a)) as [d|]; simpl; [|exact H].
    destruct (negb (done d) && _); simpl; [exact H|].
    apply IH. exact H. }
  destruct (remove_crop_definitions _ a) as [[b|e] a1]; simpl in *;
    [|exact Hf1].
  destruct (negb _); simpl; [exact Hf1|].
  destruct Hf1 as [Hv1 Hi1]. split; simpl; [|exact Hi1].
  intros v' Hv'. apply filter_In in Hv'. destruct Hv' as [Hv' Hne].
  apply negb_true_iff, Z.eqb_neq in Hne.
  apply In_remove_file. split; [now apply Hv1|].
  intros E. apply Hne. f_equal.
  apply (NoDup_key_eq name_video (videos a1)); try assumption.
  - apply Hn1.
  - apply Hvs. now apply find_some in Hv.
Qed.

Lemma do_crop_files w id a :
  files_present a -> files_present (album_after (do_crop w id a)).
Proof.
  intros [Hv Hi]. unfold do_crop.
  destruct (crop_prelude w id a) as [|e|p]; [now split | now split |].
  pose proof (crop_loop_frame (plan_capture p) (plan_definition p)
                (plan_rect p)
                (py_range (plan_start p) (plan_end p) (plan_step p)) 0 a)
    as Hf.
  pose proof (crop_loop_files (plan_capture p) (plan_definition p)
                (plan_rect p)
                (py_range (plan_start p) (plan_end p) (plan_step p)) 0 a)
    as Hd.
  destruct (crop_loop _ _ _ _ _ _) as [[c a'] rs]. simpl in Hf, Hd.
  destruct Hf as (Ev & _ & _ & _ & Edv). destruct Hd as [Hd1 Hd2].
  destruct c; split; simpl.
  - rewrite Ev, Edv. exact Hv.
  - now apply Hd2.
  - exact Hv.
  - intros im Him. now apply Hd1, Hi.
Qed.

Lemma do_crop_each_files w ids : forall a,
  files_present a -> files_present (snd (fst (do_crop_each w ids a))).
Proof.
  induction ids as [|id ids IH]; intros a Hf; simpl; [exact Hf|].
  pose proof (do_crop_files w id a Hf) as H.
  destruct (outcome (do_crop w id a)); simpl; [|exact H].
  specialize (IH (album_after (do_crop w id a)) H).
  destruct (do_crop_each w ids (album_after (do_crop w id a)))
    as [[res a'] calls]. exact IH.
Qed.

Lemma perform_files r a :
  moves_from_outside r = true ->
  names_unique a -> files_present a -> files_present (perform r a).
Proof.
  intros Hm Hn Hf. destruct r; simpl.
  - now apply add_video_files.
  - now apply remove_video_files.
  - now apply add_crop_definition_files.
  - now apply remove_crop_definition_files.
  - now apply do_crop_files.
  - now apply do_crop_each_files.
Qed.

(** X8: when the rows of an album carry distinct file names and each has
    its file, the file of a video in the video directory and the file of an
    image in the image directory, this is still so after every call of a
    method of [Album], whether it returns or raises, and so at every moment
    of a session, as long as [add_video] is not asked to move anything but
    a file outside the album: no other call removes the file of a row that
    stays, or adds a row without its file. *)
Theorem session_files_present rs a a' :
  forallb moves_from_outside rs = true ->
  names_unique a -> files_present a -> In a' (history rs a) ->
  files_present a'.
Proof.
  revert a. induction rs as [|r rs IH]; intros a Hm Hn Hf; simpl.
  - intros [<- | []]. exact Hf.
  - simpl in Hm. apply andb_true_iff in Hm. destruct Hm as [Hr Hm].
    intros [<- | H]; [exact Hf|].
    apply (IH (perform r a)); [exact Hm | | now apply perform_files | exact H].
    destruct (perform_keeps_order r a) as (_ & _ & Hn'). now apply Hn'.
Qed.

(** The witness of X8: two videos of the same name, the second one moved
    into the album, a run that is rolled back, a run that completes, and
    the removal of the first video. *)
Lemma session_files_present_witness :
  files_present
    (session [AddVideo world_fine "/home/user/clip.mp4" false;
              AddVideo world_fine "/mnt/clip.mp4" true;
              AddCropDefinition 0 (1, 20, 3) None "";
              DoCrop world_store_raises 0;
              DoCrop world_fine 0;
              AddCropDefinition 1 (0, 10, 5) None "";
              DoCropAll world_fine;
              RemoveVideo 0]
       new_album).
Proof.
  apply (session_files_present
           [AddVideo world_fine "/home/user/clip.mp4" false;
            AddVideo world_fine "/mnt/clip.mp4" true;
            AddCropDefinition 0 (1, 20, 3) None "";
            DoCrop world_store_raises 0;
            DoCrop world_fine 0;
            AddCropDefinition 1 (0, 10, 5) None "";
            DoCropAll world_fine;
            RemoveVideo 0]
           new_album).
  - reflexivity.
  - split; constructor.
  - split; intros x [].
  - do 8 right. left. vm_compute. reflexivity.
Defined.

(** ** The first free name *)

Lemma resolve_loop_first taken fuel name : forall _name _idx r,
  resolve_loop taken fuel name _name _idx = Some r ->
  (taken _name = false /\ r = _name)
  \/ (taken _name = true
      /\ exists k, (_idx <= k)%nat /\ r = candidate name k
                   /\ taken (candidate name k) = false
                   /\ forall j, (_idx <= j < k)%nat ->
                                taken (candidate name j) = true).
Proof.
  induction fuel as [|fuel IH]; intros _name _idx r; simpl; [discriminate|].
  destruct (taken _name) eqn:E.
  - intros H. right. split; [reflexivity|].
    destruct (IH _ _ _ H) as [[Hfree ->] | (Htaken & k & Hk & -> & Hfree & Hall)].
    + exists _idx. split; [lia|]. split; [reflexivity|]. split; [exact Hfree|].
      intros j Hj. lia.
    + exists k. split; [lia|]. split; [reflexivity|]. split; [exact Hfree|].
      intros j Hj. destruct (Nat.eq_dec j _idx) as [-> | Hne];
        [exact Htaken | apply Hall; lia].
  - intros H. injection H as <-. left. now split.
Qed.

Lemma resolve_name_unchanged names name :
  ~ In name names -> resolve_name names name = name.
Proof.
  intros Hfree.
  destruct (resolve_loop_first _ _ _ _ _ _ (resolve_name_loop names name))
    as [[_ E] | (Htaken & _)]; [exact E|].
  apply name_taken_In in Htaken. contradiction.
Qed.

(** X9: the resolution loop returns the first free name of the sequence
    [name], [candidate name 1], [candidate name 2], ...: a name that is not
    in the table is returned as it is, and a name that is in the table is
    replaced by the candidate with the least number, from 1 on, that is not
    in the table. *)
Theorem resolve_name_first_free names name :
  (~ In name names -> resolve_name names name = name)
  /\ (In name names ->
      exists k, (1 <= k)%nat
                /\ resolve_name names name = candidate name k
                /\ ~ In (candidate name k) names
                /\ forall j, (1 <= j < k)%nat -> In (candidate name j) names).
Proof.
  pose proof (resolve_loop_first _ _ _ _ _ _ (resolve_name_loop names name))
    as [[Hfree E] | (Htaken & k & Hk & E & Hfree & Hall)].
  - apply name_taken_not_In in Hfree. split; [now intros _ | tauto].
  - apply name_taken_In in Htaken. split; [tauto|]. intros _.
    exists k. split; [exact Hk|]. split; [exact E|].
    split; [now apply name_taken_not_In|].
    intros j Hj. apply name_taken_In. now apply Hall.
Qed.

(** The witness of X9: with [a.jpg], [a(1).jpg] and [a(3).jpg] taken,
    [a.jpg] becomes [a(2).jpg], and [b.jpg] stays. *)
Lemma resolve_name_first_free_witness :
  resolve_name ["a.jpg"; "a(1).jpg"; "a(3).jpg"] "b.jpg" = "b.jpg"
  /\ exists k, (1 <= k)%nat
               /\ resolve_name ["a.jpg"; "a(1).jpg"; "a(3).jpg"] "a.jpg"
                  = candidate "a.jpg" k
               /\ candidate "a.jpg" k = "a(2).jpg".
Proof.
  split.
  - apply (proj1 (resolve_name_first_free
                    ["a.jpg"; "a(1).jpg"; "a(3).jpg"] "b.jpg")).
    simpl. intros [H | [H | [H | []]]]; discriminate H.
  - destruct (proj2 (resolve_name_first_free
                       ["a.jpg"; "a(1).jpg"; "a(3).jpg"] "a.jpg"))
      as (k & Hk & E & _).
    + simpl. now left.
    + exists k. split; [exact Hk|]. split; [exact E|].
      rewrite <- E. reflexivity.
Defined.

(** ** Adding and looking up *)

Lemma filter_fresh_definition (c : Z) (ds : list CropDefinitionTable) :
  Forall (fun x => x <= c) (map id_definition ds) ->
  filter (fun d => id_definition d =? c + 1) ds = [].
Proof.
  intros H. destruct (filter _ ds) as [|d ds'] eqn:E; [reflexivity|].
  assert (Hd : In d (filter (fun d => id_definition d =? c + 1) ds))
    by (rewrite E; now left).
  apply filter_In in Hd. destruct Hd as [Hd Hid]. apply Z.eqb_eq in Hid.
  rewrite Forall_forall in H. specialize (H _ (in_map id_definition _ _ Hd)).
  lia.
Qed.

(** X10: in an album whose identifiers are not above their counters, a
    definition that [add_crop_definition] has added is what
    [get_crop_definition] returns for the identifier that was returned: one
    row, with the values as given and [done = False]. It comes last among
    the definitions of its video, and the lookup of every other identifier
    gives what it gave before. *)
Theorem add_crop_definition_then_get vid slice rect desc a id a' :
  ids_below a ->
  add_crop_definition vid slice rect desc a = (Returned id, a') ->
  get_crop_definition id a' = [definition_row id vid slice rect desc]
  /\ get_crop_definitions vid a'
     = (get_crop_definitions vid a
          ++ [definition_row id vid slice rect desc])%list
  /\ (forall id', id' <> id ->
        get_crop_definition id' a' = get_crop_definition id' a)
  /\ (forall vid', vid' <> vid ->
        get_crop_definitions vid' a' = get_crop_definitions vid' a)
  /\ get_all_video a' = get_all_video a
  /\ get_all_images a' = get_all_images a.
Proof.
  intros (_ & Hb & _). unfold add_crop_definition.
  destruct (filter (fun v => id_video v =? vid) (videos a)); [discriminate|].
  destruct (row_fits _); [|discriminate].
  intros H. injection H as <- <-.
  unfold get_crop_definition, get_crop_definitions, get_all_video,
    get_all_images. simpl.
  rewrite !filter_app. simpl.
  rewrite id_definition_row, def_id_video_row, !Z.eqb_refl.
  rewrite (filter_fresh_definition _ _ Hb). simpl.
  split; [reflexivity|]. split; [reflexivity|]. split; [|split].
  - intros id' Hne. rewrite filter_app. simpl. rewrite id_definition_row.
    apply Z.eqb_neq in Hne. rewrite Z.eqb_sym, Hne. apply app_nil_r.
  - intros vid' Hne. rewrite filter_app. simpl. rewrite def_id_video_row.
    apply Z.eqb_neq in Hne. rewrite Z.eqb_sym, Hne. apply app_nil_r.
  - now split.
Qed.

(** The witness of X10: the definition added to [album_clip]. *)
Lemma add_crop_definition_then_get_witness :
  get_crop_definition 0 album_clamped
  = [mkDefinition 0 0 "" false 1 20 3
       (Some (-10)) (Some 50) (Some 900) (Some 550)].
Proof.
  refine (proj1 (add_crop_definition_then_get 0 (1, 20, 3)
                   (Some (-10, 50, 900, 550)) "" album_clip 0 album_clamped
                   _ _)).
  - repeat split; simpl; repeat constructor. discriminate.
  - reflexivity.
Defined.

(** X11: [add_video] on a path that leads to a file outside the album, with
    an identifier to give that fits its column, returns the next identifier
    and adds one row at the end of [videos], with that identifier and a
    name that no other row has; the name is the base name of the path when
    no row has it yet. The file is in the video directory afterwards;
    definitions, images and their counters are untouched. *)
Theorem add_video_stores w p m a :
  source_at w p = OutsideFile ->
  int64 (max_id_video a + 1) = true ->
  let name := resolve_name (map name_video (videos a)) (basename p) in
  fst (add_video w p m a) = Returned (max_id_video a + 1)
  /\ get_all_video (snd (add_video w p m a))
     = (get_all_video a ++ [mkVideo (max_id_video a + 1) name])%list
  /\ ~ In name (map name_video (videos a))
  /\ (~ In (basename p) (map name_video (videos a)) -> name = basename p)
  /\ In name (dir_video (snd (add_video w p m a)))
  /\ definitions (snd (add_video w p m a)) = definitions a
  /\ images (snd (add_video w p m a)) = images a
  /\ max_id_definition (snd (add_video w p m a)) = max_id_definition a
  /\ max_id_image (snd (add_video w p m a)) = max_id_image a.
Proof.
  intros Hp Hid. cbv zeta. unfold add_video. rewrite Hp.
  cbn [source_exists negb].
  assert (Ht : forall name dir,
             transfer OutsideFile m name dir = Returned (write_file name dir))
    by (intros name dir; now destruct m).
  rewrite Ht, Hid. simpl.
  split; [reflexivity|]. split; [reflexivity|].
  split; [apply resolve_name_free|].
  split; [apply resolve_name_unchanged|].
  split; [apply In_write_file; now right | now repeat split].
Qed.

(** The witness of X11: a second file named [clip.mp4]. *)
Lemma add_video_stores_witness :
  get_all_video (snd (add_video world_fine "/mnt/clip.mp4" true album_clip))
  = [mkVideo 0 "clip.mp4"; mkVideo 1 "clip(1).mp4"].
Proof.
  rewrite (proj1 (proj2 (add_video_stores world_fine "/mnt/clip.mp4" true
                           album_clip eq_refl eq_refl))).
  reflexivity.
Defined.

(** ** The join *)

Lemma join_at_most_one (q : CropDefinitionTable -> bool) (k : Z)
    (im : ImageTable) (ds : list CropDefinitionTable) :
  NoDup (map id_definition ds) ->
  map (fun _ => im) (filter (fun d => (id_definition d =? k) && q d) ds)
  = if existsb (fun d => (id_definition d =? k) && q d) ds then [im] else [].
Proof.
  induction ds as [|d ds IH]; simpl; intros Hn; [reflexivity|].
  inversion Hn as [|? ? Hd Hds]; subst. specialize (IH Hds).
  destruct ((id_definition d =? k) && q d) eqn:E; simpl; [|exact IH].
  apply andb_true_iff in E. destruct E as [E _]. apply Z.eqb_eq in E.
  assert (Hnone : filter (fun d => (id_definition d =? k) && q d) ds = []).
  { destruct (filter _ ds) as [|d' ds'] eqn:Ef; [reflexivity|].
    assert (Hd' : In d' (filter (fun d => (id_definition d =? k) && q d) ds))
      by (rewrite Ef; now left).
    apply filter_In in Hd'. destruct Hd' as [Hd' E'].
    apply andb_true_iff in E'. destruct E' as [E' _]. apply Z.eqb_eq in E'.
    exfalso. apply Hd. rewrite E, <- E'. now apply in_map. }
  now rewrite Hnone.
Qed.

Lemma video_images_join_In vid a im :
  In im (video_images_join vid a)
  <-> exists d, In d (get_crop_definitions vid a)
                /\ In im (get_definition_images (id_definition d) a).
Proof.
  unfold video_images_join, get_crop_definitions, get_definition_images.
  rewrite in_flat_map. split.
  - intros (im' & Him' & Hin). apply in_map_iff in Hin.
    destruct Hin as (d & <- & Hd). apply filter_In in Hd.
    destruct Hd as [Hd E]. apply andb_true_iff in E. destruct E as [E1 E2].
    exists d. split; apply filter_In; split; try assumption.
    now rewrite Z.eqb_sym.
  - intros (d & Hd & Him). apply filter_In in Hd, Him.
    destruct Hd as [Hd E2]. destruct Him as [Him E1].
    exists im. split; [exact Him|]. apply in_map_iff. exists d.
    split; [reflexivity|]. apply filter_In. split; [exact Hd|].
    apply andb_true_iff. split; [now rewrite Z.eqb_sym | exact E2].
Qed.

Lemma video_images_join_once vid a :
  NoDup (map id_definition (definitions a)) ->
  video_images_join vid a = filter (owned_by_video vid a) (images a).
Proof.
  intros Hn. unfold video_images_join, owned_by_video.
  induction (images a) as [|im ims IH]; simpl; [reflexivity|].
  rewrite IH.
  rewrite (join_at_most_one (fun d => def_id_video d =? vid)
             (img_id_definition im) im (definitions a) Hn).
  now destruct (existsb _ (definitions a)).
Qed.

(** X12: whatever the order in which [get_video_images] returns its rows,
    the images of a video are the images that [get_definition_images]
    returns for the definitions that [get_crop_definitions] returns for the
    video. When the definitions have distinct identifiers, the rows are the
    rows of [images] that a definition of the video owns, each one once, in
    some order. *)
Theorem get_video_images_joins vid a rows :
  get_video_images vid a rows ->
  (forall im,
      In im rows
      <-> exists d, In d (get_crop_definitions vid a)
                    /\ In im (get_definition_images (id_definition d) a))
  /\ (NoDup (map id_definition (definitions a)) ->
      Permutation (filter (owned_by_video vid a) (images a)) rows).
Proof.
  unfold get_video_images. intros Hrows. split.
  - intros im. rewrite <- video_images_join_In. split; intros H.
    + apply (Permutation_in im (Permutation_sym Hrows) H).
    + apply (Permutation_in im Hrows H).
  - intros Hn. now rewrite <- (video_images_join_once vid a Hn).
Qed.

(** The witness of X12: the three images of the video of [album_cropped],
    returned last row first. *)
Lemma get_video_images_joins_witness :
  Permutation (filter (owned_by_video 0 album_cropped) (images album_cropped))
    (rev (images album_cropped))
  /\ List.length (rev (images album_cropped)) = 3%nat.
Proof.
  split; [|reflexivity].
  apply (proj2 (get_video_images_joins 0 album_cropped
                  (rev (images album_cropped))
                  (Permutation_rev (images album_cropped)))).
  simpl. constructor; [intros [] | constructor].
Defined.

(** ** Opening an album again *)

Lemma fold_left_max_spec (l : list Z) : forall m,
  (fold_left Z.max l m = m \/ In (fold_left Z.max l m) l)
  /\ m <= fold_left Z.max l m
  /\ Forall (fun y => y <= fold_left Z.max l m) l.
Proof.
  induction l as [|y l IH]; intros m; simpl.
  - split; [now left|]. split; [lia | constructor].
  - destruct (IH (Z.max m y)) as (H1 & H2 & H3).
    split; [|split; [lia | constructor; [lia | exact H3]]].
    destruct H1 as [H1 | H1]; [|right; now right].
    rewrite H1. destruct (Z.max_spec m y) as [[_ ->] | [_ ->]];
      [right; now left | now left].
Qed.

Lemma sql_max_spec (l : list Z) :
  match sql_max l with
  | None => l = []
  | Some m => In m l /\ Forall (fun y => y <= m) l
  end.
Proof.
  destruct l as [|x l]; simpl; [reflexivity|].
  destruct (fold_left_max_spec l x) as (H1 & H2 & H3).
  split; [|constructor; assumption].
  destruct H1 as [-> | H1]; [now left | now right].
Qed.

Lemma reopened_counter (l : list Z) (c : Z) :
  Forall (fun y => y <= c) l ->
  (l = [] /\ max_or_minus_one (sql_max l) = -1)
  \/ (In (max_or_minus_one (sql_max l)) l
      /\ max_or_minus_one (sql_max l) <= c).
Proof.
  intros Hb. pose proof (sql_max_spec l) as H.
  destruct (sql_max l) as [m|]; simpl.
  - right. destruct H as [H _]. split; [exact H|].
    rewrite Forall_forall in Hb. now apply Hb.
  - left. now split.
Qed.

Lemma open_album_ids_below vs ds ims dv di :
  ids_below (open_album vs ds ims dv di).
Proof.
  assert (H : forall l, Forall (fun x => x <= max_or_minus_one (sql_max l)) l).
  { intros l. pose proof (sql_max_spec l) as H.
    destruct (sql_max l) as [m|]; simpl; [tauto|]. subst. constructor. }
  unfold ids_below, open_album. simpl. repeat split; apply H.
Qed.

Lemma row_fits_id id id' vid slice rect desc :
  row_fits (definition_row id vid slice rect desc) = true ->
  int64 id' = true ->
  row_fits (definition_row id' vid slice rect desc) = true.
Proof.
  destruct slice as [[s0 s1] s2].
  destruct rect as [[[[r0 r1] r2] r3]|]; unfold row_fits; simpl;
    intros H ->; rewrite !andb_true_iff in H; rewrite !andb_true_iff; tauto.
Qed.

Lemma row_fits_int64 d : row_fits d = true -> int64 (id_definition d) = true.
Proof.
  unfold row_fits. rewrite !andb_true_iff. tauto.
Qed.

Lemma int64_between x y z :
  int64 x = true -> int64 z = true -> x <= y <= z -> int64 y = true.
Proof.
  unfold int64. rewrite !andb_true_iff, !Z.leb_le, !Z.ltb_lt. lia.
Qed.

(** X13: opening an album again keeps the tables and sets each counter to
    the greatest identifier in its table, [-1] for an empty table; so the
    identifiers are not above the counters, and a counter that was not below
    [-1] has not gone up. The counters do not remember what was deleted:
    when the definition created last, the one with the identifier
    [max_id_definition], is removed from a well-formed album and the album
    opened again, the next definition receives an identifier that is not
    above the one removed, whereas in the same session it receives the next
    one. Here the rows of the album and the row to add fit their columns. *)
Theorem reopen_forgets_deleted_identifiers :
  (forall a,
      videos (reopen a) = videos a
      /\ definitions (reopen a) = definitions a
      /\ images (reopen a) = images a
      /\ ids_below (reopen a))
  /\ (forall a,
         ids_below a ->
         -1 <= max_id_video a -> -1 <= max_id_definition a ->
         -1 <= max_id_image a ->
         max_id_video (reopen a) <= max_id_video a
         /\ max_id_definition (reopen a) <= max_id_definition a
         /\ max_id_image (reopen a) <= max_id_image a)
  /\ (forall a vid slice rect desc,
         well_formed a ->
         definitions_fit a ->
         0 <= max_id_definition a ->
         In vid (map id_video (videos a)) ->
         row_fits (definition_row (max_id_definition a + 1) vid slice rect
                     desc) = true ->
         let a' := snd (remove_crop_definition (max_id_definition a) a) in
         fst (add_crop_definition vid slice rect desc a')
         = Returned (max_id_definition a + 1)
         /\ exists id,
              fst (add_crop_definition vid slice rect desc (reopen a'))
              = Returned id
              /\ id <= max_id_definition a).
Proof.
  split; [|split].
  - intros a. split; [reflexivity|]. split; [reflexivity|].
    split; [reflexivity|]. apply open_album_ids_below.
  - intros a (Hv & Hd & Hi) Lv Ld Li. unfold reopen, open_album. simpl.
    destruct (reopened_counter _ _ Hv) as [[_ ->] | [_ H1]];
      destruct (reopened_counter _ _ Hd) as [[_ ->] | [_ H2]];
      destruct (reopened_counter _ _ Hi) as [[_ ->] | [_ H3]];
      repeat split; assumption.
  - intros a vid slice rect desc Hwf Hfit Hpos Hvid Hrow. cbv zeta.
    pose proof Hwf as (_ & (_ & Hd & _) & _).
    set (c := max_id_definition a) in *.
    assert (Hframe :
              videos (snd (remove_crop_definition c a)) = videos a
              /\ max_id_definition (snd (remove_crop_definition c a)) = c
              /\ Forall (fun y => y <= c - 1)
                   (map id_definition
                      (definitions (snd (remove_crop_definition c a))))
              /\ Forall (fun y => int64 y = true)
                   (map id_definition
                      (definitions (snd (remove_crop_definition c a))))).
    { assert (Hall : Forall (fun y => int64 y = true)
                       (map id_definition (definitions a))).
      { apply Forall_forall. intros y Hy. apply in_map_iff in Hy.
        destruct Hy as (d & <- & Hd'). apply row_fits_int64.
        unfold definitions_fit in Hfit. rewrite Forall_forall in Hfit.
        now apply Hfit. }
      unfold remove_crop_definition.
      destruct (find _ (definitions a)) as [d|] eqn:E.
      - rewrite (remove_crop_definition_allowed c a d Hwf E). simpl.
        split; [reflexivity|]. split; [reflexivity|].
        rewrite (find_id_definition _ _ _ E).
        split; apply Forall_forall; intros y Hy; apply in_map_iff in Hy;
          destruct Hy as (d' & <- & Hd'); apply filter_In in Hd';
          destruct Hd' as [Hd' Hne].
        + apply negb_true_iff, Z.eqb_neq in Hne.
          rewrite Forall_forall in Hd.
          specialize (Hd _ (in_map id_definition _ _ Hd')). fold c in Hd.
          lia.
        + rewrite Forall_forall in Hall. apply Hall. now apply in_map.
      - simpl. split; [reflexivity|]. split; [reflexivity|].
        split; [|exact Hall].
        apply find_definition_None in E.
        apply Forall_forall. intros y Hy.
        rewrite Forall_forall in Hd. specialize (Hd _ Hy). fold c in Hd.
        assert (y <> c) by congruence. lia. }
    destruct Hframe as (Fv & Fc & Fb & Ff). split.
    + rewrite add_crop_definition_accepts;
        [simpl; now rewrite Fc | now rewrite Fv | now rewrite Fc].
    + assert (Hnext : max_id_definition
                        (reopen (snd (remove_crop_definition c a))) + 1 <= c
                      /\ int64 (max_id_definition
                                  (reopen (snd (remove_crop_definition c a)))
                                + 1) = true).
      { assert (Hc : int64 (c + 1) = true).
        { apply row_fits_int64 in Hrow.
          now rewrite id_definition_row in Hrow. }
        unfold reopen, open_album. simpl.
        destruct (reopened_counter _ _ Fb) as [[_ ->] | [Hin H]].
        - split; [lia|]. apply (int64_between 0 _ (c + 1)); [reflexivity | exact Hc | lia].
        - split; [lia|]. rewrite Forall_forall in Ff.
          pose proof (Ff _ Hin) as Hm. revert Hm Hc. unfold int64.
          rewrite !andb_true_iff, !Z.leb_le, !Z.ltb_lt. lia. }
      destruct Hnext as [Hle Hint].
      rewrite add_crop_definition_accepts.
      * eexists. split; [reflexivity | exact Hle].
      * simpl. now rewrite Fv.
      * apply (row_fits_id (c + 1)); [exact Hrow | exact Hint].
Qed.

Lemma album_five_definitions_well_formed :
  well_formed
    (snd (add_crop_definition 0 (0, 10, 6) None "f" album_five_definitions)).
Proof.
  apply add_crop_definition_well_formed. unfold album_five_definitions.
  apply session_keeps_well_formed. unfold album_clip.
  apply add_video_well_formed, new_album_well_formed.
Qed.

(** The witness of X13: the definition 5 is removed; in the same session
    the next definition is 6, after opening the album again it is 5. *)
Lemma reopen_forgets_deleted_identifiers_witness :
  fst (add_crop_definition 0 (0, 10, 7) None "g" album_last_removed)
  = Returned 6
  /\ fst (add_crop_definition 0 (0, 10, 7) None "g"
            (reopen album_last_removed))
     = Returned 5
  /\ exists id,
       fst (add_crop_definition 0 (0, 10, 7) None "g"
              (reopen
                 (snd (remove_crop_definition 5
                         (snd (add_crop_definition 0 (0, 10, 6) None "f"
                                 album_five_definitions))))))
       = Returned id
       /\ id <= 5.
Proof.
  split; [reflexivity|]. split; [reflexivity|].
  refine (proj2 (proj2 (proj2 reopen_forgets_deleted_identifiers)
                   (snd (add_crop_definition 0 (0, 10, 6) None "f"
                           album_five_definitions))
                   0 (0, 10, 7) None "g" _ _ _ _ _)).
  - apply album_five_definitions_well_formed.
  - unfold definitions_fit.
    match goal with
    | |- Forall ?P ?l =>
        let l' := eval vm_compute in l in change (Forall P l')
    end.
    repeat constructor.
  - vm_compute. discriminate.
  - vm_compute. now left.
  - vm_compute. reflexivity.
Defined.

(** ** The [done] flag *)

Lemma done_kept_refl a : done_kept a a.
Proof. intros d Hd. left. exists d. tauto. Qed.

Lemma done_kept_trans a b c :
  max_id_definition a <= max_id_definition b ->
  done_kept a b -> done_kept b c -> done_kept a c.
Proof.
  intros Hc H1 H2 d'' Hd''.
  destruct (H2 d'' Hd'') as [(d' & Hd' & E' & Hdone') | Hnew]; [|right; lia].
  destruct (H1 d' Hd') as [(d & Hd & E & Hdone) | Hnew]; [|right; lia].
  left. exists d. split; [exact Hd|]. split; [congruence | tauto].
Qed.

Lemma done_kept_sub a a' :
  (forall d, In d (definitions a') -> In d (definitions a)) ->
  done_kept a a'.
Proof. intros H d Hd. left. exists d. split; [now apply H | tauto]. Qed.

Lemma do_crop_definitions w id a :
  definitions (album_after (do_crop w id a)) = definitions a
  \/ definitions (album_after (do_crop w id a)) = mark_done id (definitions a).
Proof.
  destruct (crop_prelude w id a) as [|e|p] eqn:Hp.
  - left. unfold do_crop. now rewrite Hp.
  - left. now rewrite (do_crop_fails _ _ _ _ Hp).
  - rewrite (do_crop_ready _ _ _ _ Hp).
    pose proof (crop_prelude_ready_find _ _ _ _ Hp) as Hd.
    apply find_id_definition in Hd.
    pose proof (crop_loop_frame (plan_capture p) (plan_definition p)
                  (plan_rect p)
                  (py_range (plan_start p) (plan_end p) (plan_step p)) 0 a)
      as Hf.
    destruct (crop_loop _ _ _ _ _ _) as [[c a'] rs]. simpl in Hf.
    destruct Hf as (_ & Ed & _).
    destruct c; simpl; [right | now left]. now rewrite Ed, Hd.
Qed.

Lemma do_crop_done_kept w id a :
  done_kept a (album_after (do_crop w id a)).
Proof.
  destruct (do_crop_definitions w id a) as [E | E]; intros d' Hd';
    rewrite E in Hd'; left.
  - exists d'. tauto.
  - apply In_mark_done in Hd'. destruct Hd' as (d & Hd & Eid & _ & Hdone).
    now exists d.
Qed.

Lemma perform_done_kept r a : done_kept a (perform r a).
Proof.
  destruct r; simpl.
  - apply done_kept_sub. unfold add_video.
    destruct (negb (source_exists _ _)); [tauto|].
    destruct (transfer _ _ _ _); [|tauto].
    destruct (int64 _); simpl; tauto.
  - unfold remove_video.
    destruct (find _ (videos a)); [|apply done_kept_refl].
    assert (H : forall ids a0,
               forall d, In d (definitions (snd (remove_crop_definitions ids a0)))
                         -> In d (definitions a0)).
    { induction ids as [|i ids IH]; intros a0 d; simpl; [tauto|].
      unfold remove_crop_definition at 1.
      destruct (find _ (definitions a0)) as [d0|]; simpl; [|tauto].
      destruct (negb (done d0) && _); simpl; [tauto|].
      intros Hd. apply IH in Hd. simpl in Hd. apply filter_In in Hd. tauto. }
    specialize (H (map id_definition
                     (filter (fun d => def_id_video d =? id_video0)
                             (definitions a))) a).
    destruct (remove_crop_definitions _ a) as [[b|e] a1]; simpl in *;
      [|now apply done_kept_sub].
    destruct (negb _); simpl; now apply done_kept_sub.
  - unfold add_crop_definition.
    destruct (filter _ (videos a)); [apply done_kept_refl|].
    destruct (row_fits _); [|apply done_kept_sub; simpl; tauto]. simpl.
    intros d' Hd'. simpl in Hd'. apply in_app_iff in Hd'.
    destruct Hd' as [Hd' | [<- | []]].
    + left. exists d'. tauto.
    + right. rewrite id_definition_row. lia.
  - apply done_kept_sub. unfold remove_crop_definition.
    destruct (find _ (definitions a)) as [d0|]; simpl; [|tauto].
    destruct (negb (done d0) && _); simpl; [tauto|].
    intros d Hd. apply filter_In in Hd. tauto.
  - apply do_crop_done_kept.
  - unfold do_crop_all. generalize (pending_definitions a). intros ids.
    revert a. induction ids as [|i ids IH]; intros a; simpl;
      [apply done_kept_refl|].
    pose proof (do_crop_done_kept w i a) as H.
    destruct (do_crop_keeps_order w i a) as (((_ & Hc & _) & _) & _).
    destruct (outcome (do_crop w i a)); simpl; [|exact H].
    specialize (IH (album_after (do_crop w i a))).
    destruct (do_crop_each w ids (album_after (do_crop w i a)))
      as [[res a'] calls]. simpl in *.
    now apply (done_kept_trans a (album_after (do_crop w i a)) a').
Qed.

Lemma session_done_kept rs : forall a, done_kept a (session rs a).
Proof.
  induction rs as [|r rs IH]; intros a; simpl; [apply done_kept_refl|].
  destruct (perform_keeps_order r a) as (((_ & Hc & _) & _) & _).
  apply (done_kept_trans a (perform r a)); [exact Hc | | apply IH].
  apply perform_done_kept.
Qed.

(** X14: [done] never goes back to [False]. In a session on a well-formed
    album, a definition that is done is, whatever is called afterwards,
    either gone or still done: every later row with its identifier has
    [done = True]. *)
Theorem done_never_reverts rs a d d' :
  well_formed a ->
  In d (definitions a) -> done d = true ->
  In d' (definitions (session rs a)) ->
  id_definition d' = id_definition d ->
  done d' = true.
Proof.
  intros ((_ & Kd & _) & (_ & Hb & _) & _) Hd Hdone Hd' Eid.
  destruct (session_done_kept rs a d' Hd') as [(d0 & Hd0 & E0 & H) | Hnew].
  - assert (d0 = d)
      by (apply (NoDup_key_eq id_definition (definitions a)); congruence).
    subst. now apply H.
  - rewrite Forall_forall in Hb.
    specialize (Hb _ (in_map id_definition _ _ Hd)). lia.
Qed.

(** The witness of X14: the definition of [album_cropped] stays done
    through more definitions, another [do_crop_all] and a run in a world
    where the store raises. *)
Lemma done_never_reverts_witness :
  In (mkDefinition 0 0 "" true 1 20 3
        (Some (-10)) (Some 50) (Some 900) (Some 550))
     (definitions
        (session [AddCropDefinition 0 (0, 10, 5) None "";
                  DoCrop world_store_raises 0;
                  DoCropAll world_store_raises]
           album_cropped))
  /\ done (mkDefinition 0 0 "" true 1 20 3
             (Some (-10)) (Some 50) (Some 900) (Some 550)) = true.
Proof.
  assert (Hin : In (mkDefinition 0 0 "" true 1 20 3
                      (Some (-10)) (Some 50) (Some 900) (Some 550))
                   (definitions
                      (session [AddCropDefinition 0 (0, 10, 5) None "";
                                DoCrop world_store_raises 0;
                                DoCropAll world_store_raises]
                         album_cropped)))
    by (vm_compute; left; reflexivity).
  split; [exact Hin|].
  apply (done_never_reverts
           [AddCropDefinition 0 (0, 10, 5) None "";
            DoCrop world_store_raises 0;
            DoCropAll world_store_raises]
           album_cropped
           (mkDefinition 0 0 "" true 1 20 3
              (Some (-10)) (Some 50) (Some 900) (Some 550))
           (mkDefinition 0 0 "" true 1 20 3
              (Some (-10)) (Some 50) (Some 900) (Some 550))).
  - apply album_cropped_well_formed.
  - vm_compute. left. reflexivity.
  - reflexivity.
  - exact Hin.
  - reflexivity.
Defined.


(** ** [do_crop_all] in a world without exceptions *)

Lemma mark_done_marks id ds d' :
  In d' (mark_done id ds) -> id_definition d' = id -> done d' = true.
Proof.
  unfold mark_done. rewrite in_map_iff. intros (d & E & _).
  destruct (id_definition d =? id) eqn:Eid; subst d'; simpl; [reflexivity|].
  apply Z.eqb_neq in Eid. congruence.
Qed.

Lemma do_crop_definition_ids w id a :
  map id_definition (definitions (album_after (do_crop w id a)))
  = map id_definition (definitions a).
Proof.
  destruct (do_crop_definitions w id a) as [-> | ->];
    [reflexivity | apply map_id_mark_done].
Qed.

(** After a call of [do_crop] that returned, in a world without
    exceptions, the definition is done. *)
Lemma do_crop_returned_done w id a d' :
  NoDup (map id_definition (definitions a)) ->
  (forall name i, unrecoverable (frame_event_at (capture w name) i) = false) ->
  (forall e, outcome (do_crop w id a) <> Raised e) ->
  In d' (definitions (album_after (do_crop w id a))) ->
  id_definition d' = id -> done d' = true.
Proof.
  intros Hn Hok Hret Hd' Eid.
  destruct (crop_prelude w id a) as [|e|p] eqn:Hp.
  - assert (E : do_crop w id a = mkRun (Returned true) a [])
      by (unfold do_crop; now rewrite Hp).
    rewrite E in Hd'. simpl in Hd'.
    unfold crop_prelude in Hp.
    destruct (find _ (definitions a)) as [d|] eqn:Hd; [|discriminate].
    destruct (done d) eqn:Hdone.
    + pose proof (find_id_definition _ _ _ Hd) as Hid.
      apply find_some in Hd. destruct Hd as [Hd _].
      assert (d' = d)
        by (apply (NoDup_key_eq id_definition (definitions a)); congruence).
      now subst.
    + destruct (filter _ (videos a)) as [|v [|v' vs]]; try discriminate.
      destruct (negb _); [discriminate|].
      destruct (effective_rect _ _ d) as [rect|]; [|discriminate].
      destruct (rect_empty rect); [discriminate|].
      destruct (_ || _); discriminate.
  - exfalso. apply (Hret e). now apply do_crop_raises.
  - pose proof (crop_prelude_ready_find _ _ _ _ Hp) as Hd.
    apply find_id_definition in Hd.
    rewrite (do_crop_ready _ _ _ _ Hp) in Hd'.
    pose proof (crop_loop_completed (plan_capture p) (plan_definition p)
                  (plan_rect p)
                  (py_range (plan_start p) (plan_end p) (plan_step p)) 0 a)
      as Hc.
    pose proof (crop_loop_frame (plan_capture p) (plan_definition p)
                  (plan_rect p)
                  (py_range (plan_start p) (plan_end p) (plan_step p)) 0 a)
      as Hf.
    rewrite no_unrecoverable in Hc.
    + destruct (crop_loop _ _ _ _ _ _) as [[c a'] rs]. simpl in Hc, Hf.
      subst c. simpl in Hd'. destruct Hf as (_ & Ed & _).
      rewrite Ed, Hd in Hd'. now apply (mark_done_marks id (definitions a)).
    + intros i _.
      unfold crop_prelude in Hp.
      destruct (find _ (definitions a)) as [d|]; [|discriminate].
      destruct (done d); [discriminate|].
      destruct (filter _ (videos a)) as [|v [|v' vs]]; try discriminate.
      destruct (negb _); [discriminate|].
      destruct (effective_rect _ _ d) as [rect|]; [|discriminate].
      destruct (rect_empty rect); [discriminate|].
      destruct (_ || _); [discriminate|].
      injection Hp as <-. simpl. apply Hok.
Qed.

Lemma do_crop_each_done_mono w ids : forall a d',
  In d' (definitions (snd (fst (do_crop_each w ids a)))) ->
  exists d, In d (definitions a)
            /\ id_definition d' = id_definition d
            /\ (done d = true -> done d' = true).
Proof.
  induction ids as [|i ids IH]; intros a d' Hd'; simpl in Hd'.
  - exists d'. tauto.
  - assert (Hstep : forall d1,
               In d1 (definitions (album_after (do_crop w i a))) ->
               exists d, In d (definitions a)
                         /\ id_definition d1 = id_definition d
                         /\ (done d = true -> done d1 = true)).
    { intros d1 Hd1. destruct (do_crop_definitions w i a) as [E | E];
        rewrite E in Hd1.
      - exists d1. tauto.
      - apply In_mark_done in Hd1. destruct Hd1 as (d & Hd & Eid & _ & H).
        now exists d. }
    destruct (outcome (do_crop w i a)); simpl in Hd'; [|now apply Hstep].
    specialize (IH (album_after (do_crop w i a)) d').
    destruct (do_crop_each w ids (album_after (do_crop w i a)))
      as [[res a'] calls]. simpl in *.
    destruct (IH Hd') as (d1 & Hd1 & E1 & H1).
    destruct (Hstep d1 Hd1) as (d & Hd & E & H).
    exists d. split; [exact Hd|]. split; [congruence | tauto].
Qed.

Lemma do_crop_each_all_done w ids : forall a d',
  NoDup (map id_definition (definitions a)) ->
  (forall name i, unrecoverable (frame_event_at (capture w name) i) = false) ->
  (forall e, fst (fst (do_crop_each w ids a)) <> Raised e) ->
  In d' (definitions (snd (fst (do_crop_each w ids a)))) ->
  In (id_definition d') ids -> done d' = true.
Proof.
  induction ids as [|id ids IH]; intros a d' Hn Hok Hret Hd' Hin;
    [destruct Hin|].
  simpl in Hret, Hd'.
  destruct (outcome (do_crop w id a)) as [b|e] eqn:Eo;
    [|exfalso; now apply (Hret e)].
  assert (Hn1 : NoDup (map id_definition
                         (definitions (album_after (do_crop w id a)))))
    by now rewrite do_crop_definition_ids.
  specialize (IH (album_after (do_crop w id a)) d' Hn1 Hok).
  pose proof (do_crop_each_done_mono w ids (album_after (do_crop w id a)) d')
    as Hmono.
  destruct (do_crop_each w ids (album_after (do_crop w id a)))
    as [[res a'] calls]. simpl in *.
  destruct (Z.eq_dec (id_definition d') id) as [E | Hne].
  - destruct (Hmono Hd') as (d1 & Hd1 & E1 & Hdone). apply Hdone.
    apply (do_crop_returned_done w id a d1 Hn Hok); try assumption;
      [|congruence].
    intros e. rewrite Eo. discriminate.
  - apply IH; try assumption.
    destruct Hin as [Heq | Hin]; [exfalso; apply Hne; now symmetry | exact Hin].
Qed.

(** X15: in a world in which no frame meets an exception, and in an album
    whose definitions have distinct identifiers, a call of [do_crop_all]
    that returns leaves no definition that is not done. *)
Theorem do_crop_all_leaves_nothing_pending w a :
  NoDup (map id_definition (definitions a)) ->
  (forall name i, unrecoverable (frame_event_at (capture w name) i) = false) ->
  fst (fst (do_crop_all w a)) = Returned true ->
  pending_definitions (snd (fst (do_crop_all w a))) = [].
Proof.
  intros Hn Hok Hret. unfold pending_definitions at 1.
  destruct (filter (fun d => negb (done d))
              (definitions (snd (fst (do_crop_all w a))))) as [|d' ds] eqn:E;
    [reflexivity|].
  exfalso.
  assert (Hd' : In d' (filter (fun d => negb (done d))
                         (definitions (snd (fst (do_crop_all w a))))))
    by (rewrite E; now left).
  apply filter_In in Hd'. destruct Hd' as [Hd' Hnot].
  apply negb_true_iff in Hnot. unfold do_crop_all in *.
  destruct (do_crop_each_done_mono w _ a d' Hd') as (d & Hd & Eid & Hdone).
  assert (Hpending : In (id_definition d') (pending_definitions a)).
  { unfold pending_definitions. rewrite Eid. apply in_map, filter_In.
    split; [exact Hd|]. apply negb_true_iff.
    destruct (done d); [|reflexivity]. rewrite Hdone in Hnot; congruence. }
  rewrite (do_crop_each_all_done w (pending_definitions a) a d' Hn Hok)
    in Hnot; try assumption; [discriminate|].
  intros e. rewrite Hret. discriminate.
Qed.

(** The witness of X15: the two definitions of [album_two_in_order]. *)
Lemma do_crop_all_leaves_nothing_pending_witness :
  pending_definitions album_two_in_order = [0; 1]
  /\ pending_definitions (snd (fst (do_crop_all world_fine album_two_in_order)))
     = [].
Proof.
  split; [reflexivity|].
  apply (do_crop_all_leaves_nothing_pending world_fine album_two_in_order).
  - simpl. repeat constructor; simpl; intuition discriminate.
  - intros name i. reflexivity.
  - reflexivity.
Defined.

(** ** Where the reading stops *)

Lemma crop_loop_reads_up_to cap d rect idxs : forall it a,
  snd (crop_loop cap d rect it idxs a) = up_to_exception cap idxs.
Proof.
  induction idxs as [|idx idxs IH]; intros it a; simpl; [reflexivity|].
  destruct (crop_body cap d rect it idx a) as [a1|a1] eqn:E.
  - rewrite (crop_body_next _ _ _ _ _ _ _ E).
    specialize (IH (it + 1) a1).
    destruct (crop_loop cap d rect (it + 1) idxs a1) as [[c a'] rs].
    simpl in *. now rewrite IH.
  - apply crop_body_thrown in E. destruct E as [-> _]. reflexivity.
Qed.

Lemma up_to_exception_prefix cap idxs :
  exists rest, idxs = (up_to_exception cap idxs ++ rest)%list.
Proof.
  induction idxs as [|idx idxs [rest IH]]; simpl; [now exists []|].
  destruct (unrecoverable (frame_event_at cap idx)).
  - now exists idxs.
  - exists rest. simpl. now rewrite <- IH.
Qed.

(** X16: a run of [do_crop] that gets to its loop attempts its reads in
    the order of the frame range and stops at the first frame that meets an
    exception: the frames read are a prefix of the range, and no frame is
    read after one that raised. No file that was in the image directory is
    missing afterwards, whether the run completed or was rolled back. *)
Theorem do_crop_reads_up_to_exception w id a d v rect :
  reaches_loop w id a d v rect ->
  frames_read (do_crop w id a)
  = up_to_exception (capture w (name_video v))
      (sampled d (capture w (name_video v)))
  /\ (exists rest,
        sampled d (capture w (name_video v))
        = (frames_read (do_crop w id a) ++ rest)%list)
  /\ (forall x, In x (dir_image a) ->
                In x (dir_image (album_after (do_crop w id a)))).
Proof.
  intros Hreach.
  rewrite (do_crop_ready _ _ _ _ (reaches_loop_prelude _ _ _ _ _ _ Hreach)).
  cbn [plan_capture plan_definition plan_rect plan_start plan_end plan_step].
  set (cap := capture w (name_video v)).
  pose proof (crop_loop_reads_up_to cap d rect (sampled d cap) 0 a) as Hr.
  pose proof (crop_loop_files cap d rect (sampled d cap) 0 a) as Hf.
  unfold sampled in Hr, Hf |- *.
  destruct (crop_loop _ _ _ _ _ _) as [[c a'] rs]. simpl in Hr, Hf.
  destruct Hf as [Hf _].
  assert (E : frames_read
                (if c
                 then mkRun (Returned true)
                        (mkAlbum (videos a')
                           (mark_done (id_definition d) (definitions a'))
                           (images a') (max_id_video a')
                           (max_id_definition a') (max_id_image a')
                           (dir_video a') (dir_image a')) rs
                 else mkRun (Returned true)
                        (mkAlbum (videos a) (definitions a) (images a)
                           (max_id_video a) (max_id_definition a)
                           (max_id_image a) (dir_video a) (dir_image a')) rs)
              = rs) by now destruct c.
  split; [now rewrite E|]. split.
  - rewrite E, Hr. apply up_to_exception_prefix.
  - destruct c; simpl; exact Hf.
Qed.

(** The witness of X16: of the frames 1, 4, 7 the store raises at 4; frame
    7 is not read, and the file of frame 1 stays. *)
Lemma do_crop_reads_up_to_exception_witness :
  frames_read (do_crop world_store_raises 0 album_clamped) = [1; 4].
Proof.
  assert (H : reaches_loop world_store_raises 0 album_clamped
                (mkDefinition 0 0 "" false 1 20 3
                   (Some (-10)) (Some 50) (Some 900) (Some 550))
                (mkVideo 0 "clip.mp4") (0, 50, 800, 550)).
  { unfold reaches_loop. repeat split; try reflexivity; simpl; lia. }
  rewrite (proj1 (do_crop_reads_up_to_exception _ _ _ _ _ _ H)).
  reflexivity.
Defined.

(** ** A definition that cannot be run *)

Lemma find_mark_done_other id id' ds :
  id <> id' ->
  find (fun d => id_definition d =? id) (mark_done id' ds)
  = find (fun d => id_definition d =? id) ds.
Proof.
  intros Hne. induction ds as [|d ds IH]; simpl; [reflexivity|].
  destruct (id_definition d =? id') eqn:E'; simpl.
  - apply Z.eqb_eq in E'.
    assert (E : (id_definition d =? id) = false)
      by (apply Z.eqb_neq; congruence).
    now rewrite E.
  - now rewrite IH.
Qed.

Lemma do_crop_each_blocked w ids : forall a id d,
  find (fun d => id_definition d =? id) (definitions a) = Some d ->
  done d = false ->
  index_start d < 0 \/ step_index d < 1
  \/ (exists l t r b,
         pixel_left d = Some l /\ pixel_top d = Some t
         /\ pixel_right d = Some r /\ pixel_bottom d = Some b
         /\ (r <= l \/ b <= t)) ->
  In id ids ->
  (exists e, fst (fst (do_crop_each w ids a)) = Raised e)
  /\ find (fun d => id_definition d =? id)
       (definitions (snd (fst (do_crop_each w ids a)))) = Some d.
Proof.
  induction ids as [|i ids IH]; intros a id d Hd Hdone Hbad Hin;
    [destruct Hin|].
  simpl.
  destruct (Z.eq_dec i id) as [-> | Hne].
  - destruct (do_crop_rejects_invalid w id a d Hd Hdone Hbad) as (e & E).
    rewrite E. simpl. split; [now exists e | exact Hd].
  - assert (Hd1 : find (fun d => id_definition d =? id)
                    (definitions (album_after (do_crop w i a))) = Some d).
    { destruct (do_crop_definitions w i a) as [-> | ->]; [exact Hd|].
      rewrite find_mark_done_other by congruence. exact Hd. }
    destruct (outcome (do_crop w i a)) as [b|e]; simpl;
      [|split; [now exists e | exact Hd1]].
    destruct Hin as [Hin | Hin]; [congruence|].
    specialize (IH (album_after (do_crop w i a)) id d Hd1 Hdone Hbad Hin).
    destruct (do_crop_each w ids (album_after (do_crop w i a)))
      as [[res a'] calls]. exact IH.
Qed.

(** X17: a definition that is not done and has a negative start, a step
    below 1, or a rectangle whose right is not beyond its left or whose
    bottom is not beyond its top, makes every call of [do_crop_all] raise,
    from an album whose definitions have distinct identifiers: the call
    never returns [True], and the definition is as it was afterwards, so
    that the next call raises again. *)
Theorem invalid_definition_blocks_do_crop_all w a id d :
  NoDup (map id_definition (definitions a)) ->
  In d (definitions a) -> id_definition d = id ->
  done d = false ->
  index_start d < 0 \/ step_index d < 1
  \/ (exists l t r b,
         pixel_left d = Some l /\ pixel_top d = Some t
         /\ pixel_right d = Some r /\ pixel_bottom d = Some b
         /\ (r <= l \/ b <= t)) ->
  (exists e, fst (fst (do_crop_all w a)) = Raised e)
  /\ In d (definitions (snd (fst (do_crop_all w a)))).
Proof.
  intros Hn Hd Eid Hdone Hbad.
  assert (Hfind : find (fun d => id_definition d =? id) (definitions a)
                  = Some d).
  { destruct (find _ (definitions a)) as [d0|] eqn:E.
    - pose proof (find_id_definition _ _ _ E) as E0.
      apply find_some in E. destruct E as [Hd0 _]. f_equal.
      apply (NoDup_key_eq id_definition (definitions a)); congruence.
    - apply find_definition_None in E. exfalso. apply E. rewrite <- Eid.
      now apply in_map. }
  destruct (do_crop_each_blocked w (pending_definitions a) a id d
              Hfind Hdone Hbad) as [H1 H2].
  - unfold pending_definitions. rewrite <- Eid. apply in_map, filter_In.
    split; [exact Hd | now rewrite Hdone].
  - split; [exact H1|]. unfold do_crop_all. now apply find_some in H2.
Qed.

(** The witness of X17: the rectangle of width zero in
    [album_two_pending]; the definition after it is not run. *)
Lemma invalid_definition_blocks_do_crop_all_witness :
  (exists e, fst (fst (do_crop_all world_fine album_two_pending)) = Raised e)
  /\ pending_definitions
       (snd (fst (do_crop_all world_fine album_two_pending))) = [0; 1].
Proof.
  split; [|reflexivity].
  refine (proj1 (invalid_definition_blocks_do_crop_all world_fine
                   album_two_pending 0
                   (mkDefinition 0 0 "" false 0 10 1
                      (Some 100) (Some 100) (Some 100) (Some 200))
                   _ _ _ _ _)).
  - simpl. repeat constructor; simpl; intuition discriminate.
  - left. reflexivity.
  - reflexivity.
  - reflexivity.
  - right. right. exists 100, 100, 100, 200.
    repeat split; try reflexivity. left. lia.
Defined.


(** ** What [add_video] does with other sources *)

Lemma resolve_name_not_taken names name n :
  In n names -> resolve_name names name <> n.
Proof.
  intros Hin E. apply (resolve_name_free names name). now rewrite E.
Qed.

(** X18: the calls of [add_video] that go wrong after the test of line 127.
    A directory that is to be copied, and a stored file that would be
    copied onto itself, make [shutil.copyfile] raise, and the album is as
    it was. An identifier that does not fit its column makes the commit
    raise [OverflowError]: by then the file is in the video directory and
    the counter is incremented, but there is no row. And a file of the
    album itself that is moved leaves its place: the call returns, the row
    that had the file is still there, and its file is not. *)
Theorem add_video_goes_wrong :
  (forall w p a,
      source_at w p = Directory ->
      add_video w p false a = (Raised IsADirectoryError, a))
  /\ (forall w p n a,
         source_at w p = StoredVideo n ->
         In n (dir_video a) ->
         resolve_name (map name_video (videos a)) (basename p) = n ->
         add_video w p false a = (Raised SameFileError, a))
  /\ (forall w p m a,
         source_at w p = OutsideFile ->
         int64 (max_id_video a + 1) = false ->
         let a' := snd (add_video w p m a) in
         fst (add_video w p m a) = Raised OverflowError
         /\ videos a' = videos a
         /\ max_id_video a' = max_id_video a + 1
         /\ In (resolve_name (map name_video (videos a)) (basename p))
              (dir_video a'))
  /\ (forall w p n a v,
         source_at w p = StoredVideo n ->
         In n (dir_video a) ->
         In v (videos a) -> name_video v = n ->
         int64 (max_id_video a + 1) = true ->
         let a' := snd (add_video w p true a) in
         fst (add_video w p true a) = Returned (max_id_video a + 1)
         /\ In v (videos a')
         /\ ~ In (name_video v) (dir_video a')).
Proof.
  split; [|split; [|split]].
  - intros w p a Hp. unfold add_video. now rewrite Hp.
  - intros w p n a Hp Hn E. unfold add_video. rewrite Hp.
    apply name_taken_In in Hn. cbn [source_exists transfer]. rewrite Hn, E.
    cbn [negb]. now rewrite String.eqb_refl.
  - intros w p m a Hp Hid. cbv zeta. unfold add_video. rewrite Hp.
    cbn [source_exists negb].
    assert (Ht : forall name dir,
               transfer OutsideFile m name dir
               = Returned (write_file name dir))
      by (intros name dir; now destruct m).
    rewrite Ht, Hid. simpl.
    split; [reflexivity|]. split; [reflexivity|]. split; [reflexivity|].
    apply In_write_file. now right.
  - intros w p n a v Hp Hn Hv Ev Hid. cbv zeta. unfold add_video. rewrite Hp.
    pose proof Hn as Hn'. apply name_taken_In in Hn'.
    cbn [source_exists transfer]. rewrite Hn', Hid. simpl.
    split; [reflexivity|]. split; [apply in_app_iff; now left|].
    rewrite Ev. intros Hin. apply In_write_file in Hin.
    destruct Hin as [Hin | E].
    + apply In_remove_file in Hin. tauto.
    + symmetry in E. revert E. apply resolve_name_not_taken.
      rewrite <- Ev. now apply in_map.
Qed.

(** The witness of X18: [/home/user] is a directory, and
    [video/clip.mp4] is the file of the video of [album_clip], which is
    stored again as [clip(1).mp4] while the row of [clip.mp4] stays. *)
Lemma add_video_goes_wrong_witness :
  add_video world_album_paths "/home/user" false album_clip
  = (Raised IsADirectoryError, album_clip)
  /\ fst (add_video world_album_paths "video/clip.mp4" true album_clip)
     = Returned 1
  /\ map name_video
       (videos (snd (add_video world_album_paths "video/clip.mp4" true
                       album_clip)))
     = ["clip.mp4"; "clip(1).mp4"]
  /\ dir_video (snd (add_video world_album_paths "video/clip.mp4" true
                       album_clip))
     = ["clip(1).mp4"].
Proof.
  split.
  - apply (proj1 add_video_goes_wrong). reflexivity.
  - destruct (proj2 (proj2 (proj2 add_video_goes_wrong))
                world_album_paths "video/clip.mp4" "clip.mp4" album_clip
                (mkVideo 0 "clip.mp4")) as (H1 & _).
    + reflexivity.
    + simpl. now left.
    + simpl. now left.
    + reflexivity.
    + reflexivity.
    + split; [exact H1|]. split; reflexivity.
Defined.
